(** * xhr-hook: a model of [src/index.ts] and its verification

    The development follows the source file top to bottom: the host values
    the module manipulates (records used as dictionaries, typed arrays over
    array buffers, header lists), the per-instance side record
    [PatchedXMLHttpRequestInstance], the patch helpers and the installer
    [hookXhrIfNeeded], the request translator [xhrToRequest], the response
    state machine [startXhrWithResponseCallback] and the registry
    ([insertXhrHook], [removeXhrHook]).  The theorems come last. *)

From Stdlib Require Import Ascii NArith ZArith Lia.
From stdpp Require Import base strings list pretty.

Local Open Scope string_scope.
Local Open Scope list_scope.
Local Open Scope nat_scope.

(** ** Host values *)

(** The double quote character, used inside the messages the module builds. *)
Definition dq : string := String (ascii_of_nat 34) EmptyString.

(** What a JavaScript call can throw, as far as the module distinguishes. *)
Inductive JsError :=
  | TypeError
  | RangeError
  | ErrorMsg (message : string).

(** A call either returns or throws. *)
Inductive Completion (A : Type) :=
  | Normal (value : A)
  | Throw (error : JsError).
Arguments Normal {A} value.
Arguments Throw {A} error.

(** *** Plain objects used as string dictionaries

    [patch.headers] is a plain object (created by [{}]).  Its own properties
    are kept in creation order; assigning to an existing key keeps the key's
    position and replaces the value. *)
Abbreviation JsRecord := (list (string * string)).

Fixpoint record_put (k v : string) (o : JsRecord) : JsRecord :=
  match o with
  | [] => [(k, v)]
  | (k', v') :: o' =>
      if String.eqb k' k then (k', v) :: o' else (k', v') :: record_put k v o'
  end.

(** [o[k] = v] on an object whose prototype is [Object.prototype]: the key
    [__proto__] reaches the inherited setter, which ignores a string value
    and creates no own property. *)
Definition record_assign (k v : string) (o : JsRecord) : JsRecord :=
  if String.eqb k "__proto__" then o else record_put k v o.

Definition digit_of (c : ascii) : option N :=
  let n := N_of_ascii c in
  if ((48 <=? n) && (n <=? 57))%N then Some (n - 48)%N else None.

Fixpoint decimal_value (acc : N) (s : string) : option N :=
  match s with
  | EmptyString => Some acc
  | String c s' =>
      match digit_of c with
      | Some d => decimal_value (10 * acc + d)%N s'
      | None => None
      end
  end.

(** A key is an array index when it is the canonical decimal form of an
    integer in [0, 2^32 - 2]. *)
Definition array_index (s : string) : option N :=
  match s with
  | EmptyString => None
  | String c rest =>
      if Ascii.eqb c "0" && negb (String.eqb rest EmptyString) then None
      else match decimal_value 0 s with
           | Some n => if (n <=? 4294967294)%N then Some n else None
           | None => None
           end
  end.

Fixpoint insert_indexed (e : N * (string * string))
    (l : list (N * (string * string))) : list (N * (string * string)) :=
  match l with
  | [] => [e]
  | e' :: l' =>
      if (fst e <=? fst e')%N then e :: l else e' :: insert_indexed e l'
  end.

Definition indexed_entries (o : JsRecord) : list (N * (string * string)) :=
  foldr insert_indexed []
    (omap (fun kv => match array_index (fst kv) with
                     | Some n => Some (n, kv)
                     | None => None
                     end) o).

Definition named_entries (o : JsRecord) : JsRecord :=
  filter (fun kv => array_index (fst kv) = None) o.

(** [Object.entries(o)]: array-index keys first, in ascending numeric order,
    then the other keys in creation order. *)
Definition Object_entries (o : JsRecord) : list (string * string) :=
  map snd (indexed_entries o) ++ named_entries o.

(** Every value the entries hold under exactly the key [name], in list
    order. *)
Definition record_values (name : string) (o : JsRecord) : list string :=
  map snd (filter (fun kv => fst kv = name) o).

(** *** Header lists

    A [Headers] object is modelled by its header list, in the order of the
    appends that built it.  Names and values are byte strings, as the
    interface requires of them. *)
Abbreviation Headers := (list (string * string)).

(** The request body a caller hands to [send]. *)
Inductive BodyInit := Body (payload : string).

Module Request.
(** What a hook can read from the [Request] it is given: the URL, the
    method, the header list and the body. *)
Record t := {
  url : string;
  method : option string;
  headers : Headers;
  body : option BodyInit
}.
End Request.

(** *** Array buffers and typed-array views

    A [Uint8Array] is a view (buffer, byte offset, length) on an array
    buffer; array buffers live in a store indexed by allocation order, so
    that two views on one buffer see each other's writes. *)
Record Uint8Array := {
  buffer : nat;
  byteOffset : nat;
  byteLength : nat
}.

Definition Heap := list (list Byte.byte).

Definition view_bytes (h : Heap) (a : Uint8Array) : list Byte.byte :=
  take (byteLength a) (drop (byteOffset a) (default [] (h !! buffer a))).

(** [new Uint8Array(n)]: a fresh zero-filled buffer and a view on all of it. *)
Definition Uint8Array_new (n : nat) (h : Heap) : Uint8Array * Heap :=
  ({| buffer := length h; byteOffset := 0; byteLength := n |},
   h ++ [replicate n Byte.x00]).

(** Overwrite [l] from position [i] with [src] (which fits). *)
Fixpoint write_at (i : nat) (src l : list Byte.byte) : list Byte.byte :=
  match src with
  | [] => l
  | b :: src' => write_at (S i) src' (<[i := b]> l)
  end.

(** [target.set(source, offset)]: throws a [RangeError] when the source does
    not fit behind [offset]. *)
Definition Uint8Array_set (target : Uint8Array) (src : list Byte.byte)
    (offset : nat) (h : Heap) : Completion Heap :=
  if decide (offset + length src ≤ byteLength target) then
    Normal (alter (write_at (byteOffset target + offset) src) (buffer target) h)
  else Throw RangeError.

(** [a.subarray(0, e)]: a view on the same buffer; [e] is clamped to the
    length of [a]. *)
Definition subarray0 (a : Uint8Array) (e : nat) : Uint8Array :=
  {| buffer := buffer a;
     byteOffset := byteOffset a;
     byteLength := e `min` byteLength a |}.

(** *** Reading a header and parsing its decimal value *)

Definition ascii_lower (c : ascii) : ascii :=
  let n := N_of_ascii c in
  if ((65 <=? n) && (n <=? 90))%N then ascii_of_N (n + 32) else c.

Fixpoint string_lower (s : string) : string :=
  match s with
  | EmptyString => EmptyString
  | String c s' => String (ascii_lower c) (string_lower s')
  end.

Fixpoint join (sep : string) (l : list string) : string :=
  match l with
  | [] => EmptyString
  | [s] => s
  | s :: l' => s +:+ sep +:+ join sep l'
  end.

(** [headers.get(name)]: names are compared without regard to ASCII case,
    several values are joined with a comma and a space, and an absent name
    gives [null]. *)
Definition Headers_get (name : string) (h : Headers) : option string :=
  match filter (fun kv => string_lower (fst kv) = string_lower name) h with
  | [] => None
  | found => Some (join ", " (map snd found))
  end.

(** The values the list holds under [name], names compared without regard
    to ASCII case, in list order. *)
Definition Headers_values (name : string) (h : Headers) : list string :=
  map snd (filter (fun kv => string_lower (fst kv) = string_lower name) h).

(** *** Appending to a header list

    [headers.append(name, value)] normalizes the value, throws a
    [TypeError] unless the name is a token and the value a header value,
    leaves out a forbidden request header when the list belongs to a
    request, and else adds the pair at the end, under the spelling the list
    already uses for the name if it has one. *)
Definition http_whitespace (c : ascii) : bool :=
  let n := N_of_ascii c in
  ((n =? 9) || (n =? 10) || (n =? 13) || (n =? 32))%N.

Definition http_tab_or_space (c : ascii) : bool :=
  let n := N_of_ascii c in ((n =? 9) || (n =? 32))%N.

Fixpoint trim_start (P : ascii -> bool) (s : string) : string :=
  match s with
  | String c s' => if P c then trim_start P s' else s
  | EmptyString => EmptyString
  end.

Fixpoint trim_end (P : ascii -> bool) (s : string) : string :=
  match s with
  | EmptyString => EmptyString
  | String c s' =>
      match trim_end P s' with
      | EmptyString => if P c then EmptyString else String c EmptyString
      | t => String c t
      end
  end.

Definition trim (P : ascii -> bool) (s : string) : string :=
  trim_end P (trim_start P s).

Definition normalize_value (value : string) : string :=
  trim http_whitespace value.

Fixpoint string_forall (P : ascii -> bool) (s : string) : bool :=
  match s with
  | EmptyString => true
  | String c s' => P c && string_forall P s'
  end.

(** The characters of a token: letters, digits and
    [! # $ % & ' * + - . ^ _ ` | ~]. *)
Definition is_tchar (c : ascii) : bool :=
  let n := N_of_ascii c in
  ((48 <=? n) && (n <=? 57) || (65 <=? n) && (n <=? 90) ||
   (97 <=? n) && (n <=? 122) ||
   existsb (N.eqb n) [33; 35; 36; 37; 38; 39; 42; 43; 45; 46; 94; 95; 96;
                      124; 126])%N.

Definition is_token (s : string) : bool :=
  negb (String.eqb s EmptyString) && string_forall is_tchar s.

(** A header value has no leading or trailing tab or space and holds no
    NUL, LF or CR. *)
Definition is_header_value (v : string) : bool :=
  String.eqb (trim http_tab_or_space v) v &&
  string_forall (fun c => let n := N_of_ascii c in
                          negb ((n =? 0) || (n =? 10) || (n =? 13))%N) v.

Definition forbidden_method (m : string) : bool :=
  existsb (String.eqb (string_lower m)) ["connect"; "trace"; "track"].

(** Where the walk over a header value is: outside a quoted string, inside
    one, or behind a backslash inside one. *)
Inductive SplitState :=
  | Outside
  | Quoted
  | Escaped.

(** Getting, decoding and splitting a header value: the value is cut at the
    commas that are outside quoted strings and each piece is trimmed of
    tabs and spaces; [current] is the piece being collected. *)
Fixpoint split_value (state : SplitState) (current s : string)
    : list string :=
  match s with
  | EmptyString => [trim http_tab_or_space current]
  | String c s' =>
      let current' := current +:+ String c EmptyString in
      match state with
      | Outside =>
          if Ascii.eqb c "," then
            trim http_tab_or_space current :: split_value Outside EmptyString s'
          else if Ascii.eqb c (ascii_of_nat 34) then
            split_value Quoted current' s'
          else split_value Outside current' s'
      | Quoted =>
          if Ascii.eqb c (ascii_of_nat 34) then split_value Outside current' s'
          else if Ascii.eqb c (ascii_of_nat 92) then
            split_value Escaped current' s'
          else split_value Quoted current' s'
      | Escaped => split_value Quoted current' s'
      end
  end.

(** In lower case, the names a request may not carry. *)
Definition forbidden_request_header_names : list string :=
  ["accept-charset"; "accept-encoding"; "access-control-request-headers";
   "access-control-request-method"; "connection"; "content-length";
   "cookie"; "cookie2"; "date"; "dnt"; "expect"; "host"; "keep-alive";
   "origin"; "referer"; "set-cookie"; "te"; "trailer"; "transfer-encoding";
   "upgrade"; "via"].

Definition forbidden_request_header (name value : string) : bool :=
  let n := string_lower name in
  existsb (String.eqb n) forbidden_request_header_names ||
  String.prefix "proxy-" n || String.prefix "sec-" n ||
  existsb (String.eqb n)
          ["x-http-method"; "x-http-method-override"; "x-method-override"] &&
  existsb forbidden_method (split_value Outside EmptyString value).

(** The guard of a [Headers] object: one made by [new Headers()] has none,
    the one inside a [Request] has the request guard. *)
Inductive HeadersGuard :=
  | GuardNone
  | GuardRequest.

(** The spelling the list uses for [name], or [name] itself. *)
Definition first_spelling (name : string) (h : Headers) : string :=
  match filter (fun kv => string_lower (fst kv) = string_lower name) h with
  | kv :: _ => fst kv
  | [] => name
  end.

Definition Headers_append (guard : HeadersGuard) (name value : string)
    (h : Headers) : Completion Headers :=
  let value := normalize_value value in
  if negb (is_token name && is_header_value value) then Throw TypeError
  else if match guard with
          | GuardRequest => forbidden_request_header name value
          | GuardNone => false
          end then Normal h
  else Normal (h ++ [(first_spelling name h, value)]).

(** Appending pairs one after the other, as a loop over them does. *)
Fixpoint Headers_append_all (guard : HeadersGuard)
    (entries : list (string * string)) (h : Headers) : Completion Headers :=
  match entries with
  | [] => Normal h
  | kv :: entries' =>
      match Headers_append guard (fst kv) (snd kv) h with
      | Normal h' => Headers_append_all guard entries' h'
      | Throw e => Throw e
      end
  end.

Definition is_space (c : ascii) : bool :=
  let n := N_of_ascii c in
  ((9 <=? n) && (n <=? 13) || (n =? 32))%N.

Fixpoint skip_spaces (s : string) : string :=
  match s with
  | String c s' => if is_space c then skip_spaces s' else s
  | EmptyString => EmptyString
  end.

(** The value of the longest prefix of decimal digits, if there is one. *)
Fixpoint leading_digits (acc : option N) (s : string) : option N :=
  match s with
  | String c s' =>
      match digit_of c with
      | Some d => leading_digits (Some (10 * default 0%N acc + d)%N) s'
      | None => acc
      end
  | EmptyString => acc
  end.

(** [parseInt(s, 10)]; [None] stands for [NaN]. *)
Definition parseInt (s : string) : option Z :=
  match skip_spaces s with
  | String "-" s' => (fun n => (- Z.of_N n)%Z) <$> leading_digits None s'
  | String "+" s' => Z.of_N <$> leading_digits None s'
  | s' => Z.of_N <$> leading_digits None s'
  end.

(** The length [new Uint8Array(n)] allocates for a numeric argument: [NaN]
    counts as 0, a negative number or one above 2^53 - 1 is a [RangeError]. *)
Definition ToIndex (n : option Z) : Completion nat :=
  match n with
  | None => Normal 0
  | Some z =>
      if decide (z < 0 \/ 9007199254740991 < z)%Z then Throw RangeError
      else Normal (Z.to_nat z)
  end.

(** *** Responses and their body streams

    A body stream is given by what successive [reader.read()] calls settle
    to: a list of [{done: false, value}] results (the value may be absent)
    and then either [{done: true}] or a rejection.  [locked] tells that
    [getReader()] throws. *)
Inductive StreamEnd :=
  | Closed
  | Errored (reason : JsError).

Record ReadableStream := {
  locked : bool;
  reads : list (option (list Byte.byte));
  ending : StreamEnd
}.

Module Response.
Record t := {
  status : nat;
  statusText : string;
  headers : Headers;
  url : string;
  body : option ReadableStream
}.
End Response.

(** An abort signal is named by the controller it belongs to. *)
Definition AbortSignal := nat.

(** What the promise returned by a responder has settled to.  A run is
    described from the settlement of what it awaits: a promise or a read of
    the body that stays pending suspends the run where it stands, and such
    a run is not described. *)
Inductive Settlement :=
  | Fulfilled (response : Response.t)
  | Rejected (reason : JsError).

Definition Responder := AbortSignal -> Settlement.

(** [XhrHook]: [undefined] is [None]. *)
Definition XhrHook := Request.t -> option Responder.

(** ** Per-instance state *)

(** [class PatchedXMLHttpRequestInstance]: every field but the abort
    controller starts [undefined]. *)
Record PatchedXMLHttpRequestInstance := {
  abortController : nat;
  method : option string;
  url : option string;
  headers : option JsRecord;
  readyState : option nat;
  status : option nat;
  statusText : option string;
  response : option Response.t;
  responseBufferInternal : option Uint8Array;
  responseBuffer : option Uint8Array;
  responseUrl : option string
}.

Definition new_PatchedXMLHttpRequestInstance (controller : nat) :=
  {| abortController := controller; method := None; url := None;
     headers := None; readyState := None; status := None;
     statusText := None; response := None;
     responseBufferInternal := None; responseBuffer := None;
     responseUrl := None |}.

Inductive Event :=
  | Ev (type : string)
  | ProgressEvent (type : string) (loaded : nat).

(** One [dispatchEvent] call, with the instance state its listeners see. *)
Record Dispatched := {
  event : Event;
  seen_patch : PatchedXMLHttpRequestInstance;
  seen_heap : Heap
}.

(** Arguments of [open] after the method and the URL. *)
Inductive JsArg :=
  | JBool (b : bool)
  | JString (s : string)
  | JNull.

(** A call forwarded to an original method with [Reflect.apply]. *)
Inductive NativeCall :=
  | NativeOpen (method url : string) (rest : list JsArg)
  | NativeSetRequestHeader (name value : string)
  | NativeSend (args : list (option BodyInit))
  | NativeAbort.

Inductive LogEntry :=
  | Log (message : string)
  | Warn (message : string)
  | LogError (message : string) (error : JsError).

(** *** The patched surface

    An own property of [XMLHttpRequest.prototype] is an accessor with a
    getter, a method that can be redefined, a method that cannot (a data
    property that is neither writable nor configurable, as
    [Object.defineProperty] makes one when it is given a value only), or
    something else; an implementation is the browser's or a replacement
    closed over the implementation it replaced. *)
Inductive Impl :=
  | Native
  | Replacement (original : Impl).

Inductive Property :=
  | Accessor (get : Impl)
  | Method (value : Impl)
  | FixedMethod (value : Impl)
  | Other.

Fixpoint wrap_depth (i : Impl) : nat :=
  match i with
  | Native => 0
  | Replacement original => S (wrap_depth original)
  end.

(** ** The world: module state and one request object

    [logs] are the calls made to the current logger, [hooks] the registry
    in iteration order, [marker] and [prototype] the [XMLHttpRequest]
    constructor's hidden flag and its prototype.  The remaining fields
    belong to one request object: its side record [patch] (which
    [getPatchedXMLHttpRequest] creates on first use with every field
    undefined; the model starts from that record), the array buffers, the
    abort controllers already aborted, the number of controllers created,
    the declared [responseType], the calls forwarded to original methods,
    the hooks invoked and the events dispatched. *)
Record World := {
  logs : list LogEntry;
  hooks : list (string * XhrHook);
  marker : bool;
  prototype : list (string * Property);
  patch : PatchedXMLHttpRequestInstance;
  heap : Heap;
  aborted : list nat;
  controllers : nat;
  responseType : string;
  nativeCalls : list NativeCall;
  hookCalls : list (string * Request.t);
  dispatched : list Dispatched
}.

Definition with_logs v (w : World) : World :=
  {| logs := v; hooks := hooks w; marker := marker w;
     prototype := prototype w; patch := patch w; heap := heap w;
     aborted := aborted w; controllers := controllers w;
     responseType := responseType w; nativeCalls := nativeCalls w;
     hookCalls := hookCalls w; dispatched := dispatched w |}.
Definition with_hooks v (w : World) : World :=
  {| logs := logs w; hooks := v; marker := marker w;
     prototype := prototype w; patch := patch w; heap := heap w;
     aborted := aborted w; controllers := controllers w;
     responseType := responseType w; nativeCalls := nativeCalls w;
     hookCalls := hookCalls w; dispatched := dispatched w |}.
Definition with_marker v (w : World) : World :=
  {| logs := logs w; hooks := hooks w; marker := v;
     prototype := prototype w; patch := patch w; heap := heap w;
     aborted := aborted w; controllers := controllers w;
     responseType := responseType w; nativeCalls := nativeCalls w;
     hookCalls := hookCalls w; dispatched := dispatched w |}.
Definition with_prototype v (w : World) : World :=
  {| logs := logs w; hooks := hooks w; marker := marker w;
     prototype := v; patch := patch w; heap := heap w;
     aborted := aborted w; controllers := controllers w;
     responseType := responseType w; nativeCalls := nativeCalls w;
     hookCalls := hookCalls w; dispatched := dispatched w |}.
Definition with_patch v (w : World) : World :=
  {| logs := logs w; hooks := hooks w; marker := marker w;
     prototype := prototype w; patch := v; heap := heap w;
     aborted := aborted w; controllers := controllers w;
     responseType := responseType w; nativeCalls := nativeCalls w;
     hookCalls := hookCalls w; dispatched := dispatched w |}.
Definition with_heap v (w : World) : World :=
  {| logs := logs w; hooks := hooks w; marker := marker w;
     prototype := prototype w; patch := patch w; heap := v;
     aborted := aborted w; controllers := controllers w;
     responseType := responseType w; nativeCalls := nativeCalls w;
     hookCalls := hookCalls w; dispatched := dispatched w |}.
Definition with_aborted v (w : World) : World :=
  {| logs := logs w; hooks := hooks w; marker := marker w;
     prototype := prototype w; patch := patch w; heap := heap w;
     aborted := v; controllers := controllers w;
     responseType := responseType w; nativeCalls := nativeCalls w;
     hookCalls := hookCalls w; dispatched := dispatched w |}.
Definition with_controllers v (w : World) : World :=
  {| logs := logs w; hooks := hooks w; marker := marker w;
     prototype := prototype w; patch := patch w; heap := heap w;
     aborted := aborted w; controllers := v;
     responseType := responseType w; nativeCalls := nativeCalls w;
     hookCalls := hookCalls w; dispatched := dispatched w |}.
Definition with_nativeCalls v (w : World) : World :=
  {| logs := logs w; hooks := hooks w; marker := marker w;
     prototype := prototype w; patch := patch w; heap := heap w;
     aborted := aborted w; controllers := controllers w;
     responseType := responseType w; nativeCalls := v;
     hookCalls := hookCalls w; dispatched := dispatched w |}.
Definition with_hookCalls v (w : World) : World :=
  {| logs := logs w; hooks := hooks w; marker := marker w;
     prototype := prototype w; patch := patch w; heap := heap w;
     aborted := aborted w; controllers := controllers w;
     responseType := responseType w; nativeCalls := nativeCalls w;
     hookCalls := v; dispatched := dispatched w |}.
Definition with_dispatched v (w : World) : World :=
  {| logs := logs w; hooks := hooks w; marker := marker w;
     prototype := prototype w; patch := patch w; heap := heap w;
     aborted := aborted w; controllers := controllers w;
     responseType := responseType w; nativeCalls := nativeCalls w;
     hookCalls := hookCalls w; dispatched := v |}.

(** Assignments to the fields of the side record. *)
Definition set_abortController v (p : PatchedXMLHttpRequestInstance) :=
  {| abortController := v; method := method p; url := url p;
     headers := headers p; readyState := readyState p; status := status p;
     statusText := statusText p; response := response p;
     responseBufferInternal := responseBufferInternal p;
     responseBuffer := responseBuffer p; responseUrl := responseUrl p |}.
Definition set_method v (p : PatchedXMLHttpRequestInstance) :=
  {| abortController := abortController p; method := v; url := url p;
     headers := headers p; readyState := readyState p; status := status p;
     statusText := statusText p; response := response p;
     responseBufferInternal := responseBufferInternal p;
     responseBuffer := responseBuffer p; responseUrl := responseUrl p |}.
Definition set_url v (p : PatchedXMLHttpRequestInstance) :=
  {| abortController := abortController p; method := method p; url := v;
     headers := headers p; readyState := readyState p; status := status p;
     statusText := statusText p; response := response p;
     responseBufferInternal := responseBufferInternal p;
     responseBuffer := responseBuffer p; responseUrl := responseUrl p |}.
Definition set_headers v (p : PatchedXMLHttpRequestInstance) :=
  {| abortController := abortController p; method := method p; url := url p;
     headers := v; readyState := readyState p; status := status p;
     statusText := statusText p; response := response p;
     responseBufferInternal := responseBufferInternal p;
     responseBuffer := responseBuffer p; responseUrl := responseUrl p |}.
Definition set_readyState v (p : PatchedXMLHttpRequestInstance) :=
  {| abortController := abortController p; method := method p; url := url p;
     headers := headers p; readyState := v; status := status p;
     statusText := statusText p; response := response p;
     responseBufferInternal := responseBufferInternal p;
     responseBuffer := responseBuffer p; responseUrl := responseUrl p |}.
Definition set_status v (p : PatchedXMLHttpRequestInstance) :=
  {| abortController := abortController p; method := method p; url := url p;
     headers := headers p; readyState := readyState p; status := v;
     statusText := statusText p; response := response p;
     responseBufferInternal := responseBufferInternal p;
     responseBuffer := responseBuffer p; responseUrl := responseUrl p |}.
Definition set_statusText v (p : PatchedXMLHttpRequestInstance) :=
  {| abortController := abortController p; method := method p; url := url p;
     headers := headers p; readyState := readyState p; status := status p;
     statusText := v; response := response p;
     responseBufferInternal := responseBufferInternal p;
     responseBuffer := responseBuffer p; responseUrl := responseUrl p |}.
Definition set_response v (p : PatchedXMLHttpRequestInstance) :=
  {| abortController := abortController p; method := method p; url := url p;
     headers := headers p; readyState := readyState p; status := status p;
     statusText := statusText p; response := v;
     responseBufferInternal := responseBufferInternal p;
     responseBuffer := responseBuffer p; responseUrl := responseUrl p |}.
Definition set_responseBufferInternal v (p : PatchedXMLHttpRequestInstance) :=
  {| abortController := abortController p; method := method p; url := url p;
     headers := headers p; readyState := readyState p; status := status p;
     statusText := statusText p; response := response p;
     responseBufferInternal := v;
     responseBuffer := responseBuffer p; responseUrl := responseUrl p |}.
Definition set_responseBuffer v (p : PatchedXMLHttpRequestInstance) :=
  {| abortController := abortController p; method := method p; url := url p;
     headers := headers p; readyState := readyState p; status := status p;
     statusText := statusText p; response := response p;
     responseBufferInternal := responseBufferInternal p;
     responseBuffer := v; responseUrl := responseUrl p |}.
Definition set_responseUrl v (p : PatchedXMLHttpRequestInstance) :=
  {| abortController := abortController p; method := method p; url := url p;
     headers := headers p; readyState := readyState p; status := status p;
     statusText := statusText p; response := response p;
     responseBufferInternal := responseBufferInternal p;
     responseBuffer := responseBuffer p; responseUrl := v |}.

(** ** Commands: state passing with exceptions

    A command runs in a world and returns or throws; what it changed before
    throwing stays changed. *)
Definition M (A : Type) := World -> Completion A * World.

Definition ret {A} (a : A) : M A := fun w => (Normal a, w).
Definition throw {A} (e : JsError) : M A := fun w => (Throw e, w).
Definition bind {A B} (m : M A) (k : A -> M B) : M B :=
  fun w => match m w with
           | (Normal a, w') => k a w'
           | (Throw e, w') => (Throw e, w')
           end.
Definition try_catch {A} (m : M A) (handler : JsError -> M A) : M A :=
  fun w => match m w with
           | (Normal a, w') => (Normal a, w')
           | (Throw e, w') => handler e w'
           end.
Definition read {A} (f : World -> A) : M A := fun w => (Normal (f w), w).
Definition update (f : World -> World) : M unit := fun w => (Normal tt, f w).
Definition lift {A} (c : Completion A) : M A := fun w => (c, w).

Declare Scope cmd_scope.
Delimit Scope cmd_scope with cmd.
Notation "'let*' x ':=' m 'in' k" := (bind m (fun x => k))
  (at level 10, x name, m at level 100, k at level 200) : cmd_scope.
Notation "m ;; k" := (bind m (fun _ => k))
  (at level 100, k at level 200, right associativity) : cmd_scope.
Local Open Scope cmd_scope.

(** [getPatchedXMLHttpRequest(xhr)]: the side record of the request object
    (created on first use; see [World]). *)
Abbreviation getPatchedXMLHttpRequest := (read patch).

(** [patch.f = v] *)
Definition assign (f : PatchedXMLHttpRequestInstance ->
                       PatchedXMLHttpRequestInstance) : M unit :=
  update (fun w => with_patch (f (patch w)) w).

Definition logger_log (message : string) : M unit :=
  update (fun w => with_logs (logs w ++ [Log message]) w).
Definition logger_warn (message : string) : M unit :=
  update (fun w => with_logs (logs w ++ [Warn message]) w).
Definition logger_error (message : string) (error : JsError) : M unit :=
  update (fun w => with_logs (logs w ++ [LogError message error]) w).

(** [xhr.dispatchEvent(e)]: listeners run now, on the current state. *)
Definition dispatchEvent (e : Event) : M unit :=
  update (fun w =>
    with_dispatched
      (dispatched w ++
         [{| event := e; seen_patch := patch w; seen_heap := heap w |}]) w).

(** [Reflect.apply(target, thisArg, args)] on an original method: the call
    is recorded; what the browser's method then does, returns or throws is
    not part of the model. *)
Definition Reflect_apply (call : NativeCall) : M unit :=
  update (fun w => with_nativeCalls (nativeCalls w ++ [call]) w).

(** [controller.abort()] *)
Definition AbortController_abort (c : nat) : M unit :=
  update (fun w => with_aborted (c :: aborted w) w).

(** [new AbortController()] *)
Definition AbortController_new : M nat :=
  fun w => (Normal (controllers w), with_controllers (S (controllers w)) w).

Definition new_Uint8Array (n : nat) : M Uint8Array :=
  fun w => let '(a, h) := Uint8Array_new n (heap w) in (Normal a, with_heap h w).

(** [target.set(source, offset)] with a typed-array source. *)
Definition set_from (target source : Uint8Array) (offset : nat) : M unit :=
  fun w => match Uint8Array_set target (view_bytes (heap w) source) offset (heap w) with
           | Normal h => (Normal tt, with_heap h w)
           | Throw e => (Throw e, w)
           end.

(** [target.set(value, offset)] with a chunk of the body stream. *)
Definition set_bytes (target : Uint8Array) (value : list Byte.byte)
    (offset : nat) : M unit :=
  fun w => match Uint8Array_set target value offset (heap w) with
           | Normal h => (Normal tt, with_heap h w)
           | Throw e => (Throw e, w)
           end.

(** ** The patch helpers and the installer *)

Fixpoint getOwnProperty (prop : string) (o : list (string * Property))
    : option Property :=
  match o with
  | [] => None
  | (k, d) :: o' => if String.eqb k prop then Some d else getOwnProperty prop o'
  end.

(** [Object.defineProperty(obj, prop, d)]: a property [obj] owns is
    replaced where it stands, a new one comes last. *)
Fixpoint defineProperty (prop : string) (d : Property)
    (o : list (string * Property)) : list (string * Property) :=
  match o with
  | [] => [(prop, d)]
  | (k, d') :: o' =>
      if String.eqb k prop then (k, d) :: o'
      else (k, d') :: defineProperty prop d o'
  end.

Definition patchGetter (prop : string) : M unit :=
  let* obj := read prototype in
  match getOwnProperty prop obj with
  | Some (Accessor get) =>
      update (with_prototype
                (defineProperty prop (Accessor (Replacement get)) obj))
  | _ =>
      throw (ErrorMsg ("Property " +:+ dq +:+ prop +:+ dq +:+
                       " does not have a getter."))
  end.

(** What [XMLHttpRequest.prototype] inherits: the event handler attributes
    and the constructor of [XMLHttpRequestEventTarget.prototype], the
    methods of [EventTarget.prototype] and what [Object.prototype] has.
    The getter of [__proto__] returns an object, which is no function. *)
Definition inherited_properties : list (string * Property) :=
  [("onloadstart", Accessor Native); ("onprogress", Accessor Native);
   ("onabort", Accessor Native); ("onerror", Accessor Native);
   ("onload", Accessor Native); ("ontimeout", Accessor Native);
   ("onloadend", Accessor Native); ("constructor", Method Native);
   ("addEventListener", Method Native);
   ("removeEventListener", Method Native); ("dispatchEvent", Method Native);
   ("__defineGetter__", Method Native); ("__defineSetter__", Method Native);
   ("hasOwnProperty", Method Native); ("__lookupGetter__", Method Native);
   ("__lookupSetter__", Method Native); ("isPrototypeOf", Method Native);
   ("propertyIsEnumerable", Method Native); ("toString", Method Native);
   ("valueOf", Method Native); ("toLocaleString", Method Native);
   ("__proto__", Other)].

(** The property [obj[prop]] reads: the object's own, or else the one it
    inherits. *)
Definition lookup_property (prop : string) (obj : list (string * Property))
    : option Property :=
  match getOwnProperty prop obj with
  | Some d => Some d
  | None => getOwnProperty prop inherited_properties
  end.

(** [obj[prop]] as far as [typeof] tells: the function, or [None] for
    anything that is no function.  An accessor runs its getter on the
    prototype object itself; a getter of the interface refuses that with a
    [TypeError], and so does a replacement, which ends in the original
    getter (the side record it makes on the way belongs to the prototype
    object, not to the request object of the model). *)
Definition Get (prop : string) (obj : list (string * Property))
    : Completion (option Impl) :=
  match lookup_property prop obj with
  | Some (Method f) | Some (FixedMethod f) => Normal (Some f)
  | Some (Accessor _) => Throw TypeError
  | Some Other | None => Normal None
  end.

(** [Object.defineProperty(obj, prop, {value})] keeps the attributes of a
    property the object owns, throws a [TypeError] when that property can
    be neither written nor configured, and makes a property the object
    does not own one that can be neither. *)
Definition patchMethod (prop : string) : M unit :=
  let* obj := read prototype in
  let* originalMethod := lift (Get prop obj) in
  match originalMethod with
  | Some f =>
      match getOwnProperty prop obj with
      | Some (FixedMethod _) => throw TypeError
      | Some _ =>
          update (with_prototype
                    (defineProperty prop (Method (Replacement f)) obj))
      | None =>
          update (with_prototype
                    (defineProperty prop (FixedMethod (Replacement f)) obj))
      end
  | None =>
      throw (ErrorMsg ("Property " +:+ dq +:+ prop +:+ dq +:+
                       " is not a method."))
  end.

Definition hookXhrIfNeeded : M unit :=
  let* hooked := read marker in
  if hooked then
    logger_warn "XMLHttpRequest is already hooked, skipping."
  else
    logger_log "Hooking XMLHttpRequest";;
    update (with_marker true);;
    patchGetter "readyState";;
    patchGetter "status";;
    patchGetter "statusText";;
    patchGetter "response";;
    patchGetter "responseURL";;
    patchGetter "responseText";;
    patchMethod "open";;
    patchMethod "setRequestHeader";;
    patchMethod "send";;
    patchMethod "abort";;
    patchMethod "getAllResponseHeaders".

(** The properties the installer replaces. *)
Definition patched_properties : list string :=
  ["readyState"; "status"; "statusText"; "response"; "responseURL";
   "responseText"; "open"; "setRequestHeader"; "send"; "abort";
   "getAllResponseHeaders"].

(** The browser's prototype before anything is installed: the properties
    of its own that the installer patches. *)
Definition native_prototype : list (string * Property) :=
  [("readyState", Accessor Native); ("status", Accessor Native);
   ("statusText", Accessor Native); ("response", Accessor Native);
   ("responseURL", Accessor Native); ("responseText", Accessor Native);
   ("open", Method Native); ("setRequestHeader", Method Native);
   ("send", Method Native); ("abort", Method Native);
   ("getAllResponseHeaders", Method Native)].

(** How many replacements are stacked on a property. *)
Definition wrappers (prop : string) (o : list (string * Property)) : nat :=
  match getOwnProperty prop o with
  | Some (Accessor i) | Some (Method i) | Some (FixedMethod i) =>
      wrap_depth i
  | _ => 0
  end.

(** ** The registry *)

(** [hooks.has(name)] and [hooks.get(name)] *)
Fixpoint Map_get (name : string) (m : list (string * XhrHook))
    : option XhrHook :=
  match m with
  | [] => None
  | (k, v) :: m' => if String.eqb k name then Some v else Map_get name m'
  end.

Definition Map_has (name : string) (m : list (string * XhrHook)) : bool :=
  bool_decide (is_Some (Map_get name m)).

(** [hooks.set(name, hook)]: an existing key keeps its place. *)
Fixpoint Map_set (name : string) (hook : XhrHook)
    (m : list (string * XhrHook)) : list (string * XhrHook) :=
  match m with
  | [] => [(name, hook)]
  | (k, v) :: m' =>
      if String.eqb k name then (k, hook) :: m'
      else (k, v) :: Map_set name hook m'
  end.

(** [hooks.delete(name)] *)
Fixpoint Map_delete (name : string) (m : list (string * XhrHook))
    : list (string * XhrHook) :=
  match m with
  | [] => []
  | (k, v) :: m' =>
      if String.eqb k name then m' else (k, v) :: Map_delete name m'
  end.

Inductive OnExists := OnReplace | OnIgnore | OnError.

(** The [onExists] entry of the options object: missing, present with the
    value [undefined], or given. *)
Inductive InsertXhrHookOptions :=
  | NoOnExists
  | UndefinedOnExists
  | GivenOnExists (v : OnExists).

(** [{ onExists: "ignore", ...options }.onExists] *)
Definition computedOptions (options : InsertXhrHookOptions) : option OnExists :=
  match options with
  | NoOnExists => Some OnIgnore
  | UndefinedOnExists => None
  | GivenOnExists v => Some v
  end.

Definition quoted (name : string) : string := dq +:+ name +:+ dq.

Definition insertXhrHook (name : string) (hook : XhrHook)
    (options : InsertXhrHookOptions) : M unit :=
  hookXhrIfNeeded;;
  let* registry := read hooks in
  let set := update (fun w => with_hooks (Map_set name hook (hooks w)) w) in
  if Map_has name registry then
    match computedOptions options with
    | Some OnError =>
        throw (ErrorMsg ("Hook with name " +:+ quoted name +:+
                         " already exists."))
    | Some OnIgnore =>
        logger_log ("Hook with name " +:+ quoted name +:+
                    " already exists, ignoring insert.")
    | Some OnReplace =>
        logger_log ("Replacing existing hook " +:+ quoted name);;
        set
    | None => set
    end
  else
    logger_log ("Inserting hook " +:+ quoted name);;
    set.

Definition removeXhrHook (name : string) : M bool :=
  let* registry := read hooks in
  if Map_has name registry then
    logger_log ("Removing hook " +:+ quoted name);;
    update (fun w => with_hooks (Map_delete name (hooks w)) w);;
    ret true
  else
    logger_warn ("Hook with name " +:+ quoted name +:+
                 " does not exist, ignoring remove.");;
    ret false.

(** ** The [Request] constructor

    [new Request(input, {method, headers, body})] for an [input] that is the
    serialization of a URL: it throws a [TypeError] when the URL includes
    credentials, when the method is not a token or is forbidden, and when a
    body comes with [GET] or [HEAD]; it normalizes the method, fills its own
    header list (which has the request guard) from the headers given, and
    names the type of a text body when the headers name none. *)
Definition ascii_upper (c : ascii) : ascii :=
  let n := N_of_ascii c in
  if ((97 <=? n) && (n <=? 122))%N then ascii_of_N (n - 32) else c.

Fixpoint string_upper (s : string) : string :=
  match s with
  | EmptyString => EmptyString
  | String c s' => String (ascii_upper c) (string_upper s')
  end.

(** What follows the scheme and its colon. *)
Fixpoint after_scheme (href : string) : option string :=
  match href with
  | EmptyString => None
  | String c rest => if Ascii.eqb c ":" then Some rest else after_scheme rest
  end.

(** Whether the authority that [s] begins with holds an [@]. *)
Fixpoint authority_has_at (s : string) : bool :=
  match s with
  | EmptyString => false
  | String c rest =>
      if Ascii.eqb c "/" || Ascii.eqb c "?" || Ascii.eqb c "#" then false
      else if Ascii.eqb c "@" then true
      else authority_has_at rest
  end.

(** A serialized URL includes credentials when its authority, which is
    what stands between the two slashes behind the scheme and the path,
    holds an [@]. *)
Definition includes_credentials (href : string) : bool :=
  match after_scheme href with
  | Some (String "/" (String "/" rest)) => authority_has_at rest
  | _ => false
  end.

Definition normalize_method (m : string) : string :=
  if existsb (String.eqb (string_upper m))
             ["DELETE"; "GET"; "HEAD"; "OPTIONS"; "POST"; "PUT"]
  then string_upper m else m.

(** The method of the request: [GET] when none is given. *)
Definition Request_method (m : option string) : Completion string :=
  match m with
  | None => Normal "GET"
  | Some m =>
      if is_token m && negb (forbidden_method m) then
        Normal (normalize_method m)
      else Throw TypeError
  end.

Definition Request_new (input : string) (method : option string)
    (headers : Headers) (body : option BodyInit) : Completion Request.t :=
  if includes_credentials input then Throw TypeError
  else
    match Request_method method with
    | Throw e => Throw e
    | Normal m =>
        match Headers_append_all GuardRequest headers [] with
        | Throw e => Throw e
        | Normal hs =>
            match body with
            | None =>
                Normal {| Request.url := input; Request.method := Some m;
                          Request.headers := hs; Request.body := None |}
            | Some b =>
                if String.eqb m "GET" || String.eqb m "HEAD" then
                  Throw TypeError
                else
                  match (if bool_decide (Headers_values "Content-Type" hs = [])
                         then Headers_append GuardRequest "Content-Type"
                                "text/plain;charset=UTF-8" hs
                         else Normal hs) with
                  | Throw e => Throw e
                  | Normal hs' =>
                      Normal {| Request.url := input;
                                Request.method := Some m;
                                Request.headers := hs';
                                Request.body := Some b |}
                  end
            end
        end
    end.

(** ** The replaced getters and methods

    The host's URL resolution, text decoding, JSON parsing and XML parsing
    are taken as given; each may return or throw. *)
Section Host.

Variable location_origin : string.
(** [new URL(url, base).toString()] *)
Variable URL_new : string -> string -> Completion string.
(** [new TextDecoder().decode(bytes)] *)
Variable TextDecoder_decode : list Byte.byte -> Completion string.
Variables JSONValue Document : Type.
(** [JSON.parse(text)] *)
Variable JSON_parse : string -> Completion JSONValue.
(** [new DOMParser().parseFromString(text, "application/xml")] *)
Variable DOMParser_parseFromString : string -> Completion Document.

(** What reading [xhr.response] gives. *)
Inductive ResponseValue :=
  | RText (text : string)
  | RArrayBuffer (bytes : list Byte.byte)
  | RBlob (bytes : list Byte.byte)
  | RDocument (document : Document)
  | RJson (value : JSONValue)
  | RNull
  | ROriginal.

(** [a ?? b] *)
Definition nullish {A} (a : option A) (b : A) : A :=
  match a with Some v => v | None => b end.

Definition readyState_getter (w : World) (getOriginal : nat) : nat :=
  nullish (readyState (patch w)) getOriginal.

Definition status_getter (w : World) (getOriginal : nat) : nat :=
  nullish (status (patch w)) getOriginal.

Definition statusText_getter (w : World) (getOriginal : string) : string :=
  nullish (statusText (patch w)) getOriginal.

Definition responseURL_getter (w : World) (getOriginal : string) : string :=
  nullish (responseUrl (patch w)) getOriginal.

(** The body of the [try] block of the [response] getter. *)
Definition materialize (type : string) (bytes : list Byte.byte)
    : Completion ResponseValue :=
  if decide (type = EmptyString \/ type = "text") then
    match TextDecoder_decode bytes with
    | Normal text => Normal (RText text)
    | Throw e => Throw e
    end
  else if decide (type = "arraybuffer") then Normal (RArrayBuffer bytes)
  else if decide (type = "blob") then Normal (RBlob bytes)
  else if decide (type = "document") then
    match TextDecoder_decode bytes with
    | Normal text =>
        match DOMParser_parseFromString text with
        | Normal d => Normal (RDocument d)
        | Throw e => Throw e
        end
    | Throw e => Throw e
    end
  else if decide (type = "json") then
    match TextDecoder_decode bytes with
    | Normal text =>
        match JSON_parse text with
        | Normal v => Normal (RJson v)
        | Throw e => Throw e
        end
    | Throw e => Throw e
    end
  else Normal RNull.

Definition response_getter (w : World)
    (getOriginal : Completion ResponseValue) : Completion ResponseValue :=
  match responseBuffer (patch w) with
  | None => getOriginal
  | Some buffer =>
      match materialize (responseType w) (view_bytes (heap w) buffer) with
      | Normal v => Normal v
      | Throw _ => Normal RNull
      end
  end.

Definition responseText_getter (w : World)
    (getOriginal : Completion string) : Completion string :=
  match responseBufferInternal (patch w) with
  | Some internal => TextDecoder_decode (view_bytes (heap w) internal)
  | None => getOriginal
  end.

Definition undefined_or (s : option string) : string :=
  match s with Some v => v | None => "undefined" end.

Definition open (method url : string) (rest : list JsArg) : M unit :=
  logger_log ("XMLHttpRequest open called with method: " +:+ method +:+
              ", url: " +:+ url);;
  let* p := getPatchedXMLHttpRequest in
  AbortController_abort (abortController p);;
  let* controller := AbortController_new in
  assign (set_abortController controller);;
  assign (set_method (Some method));;
  assign (set_url (Some url));;
  assign (set_headers (Some []));;
  Reflect_apply (NativeOpen method url rest).

(** Before the first [open] the [headers] field is undefined and the
    assignment to one of its keys throws. *)
Definition setRequestHeader (name value : string) : M unit :=
  let* p := getPatchedXMLHttpRequest in
  match headers p with
  | Some h =>
      assign (set_headers (Some (record_assign name value h)));;
      Reflect_apply (NativeSetRequestHeader name value)
  | None => throw TypeError
  end.

Definition abort : M unit :=
  let* p := getPatchedXMLHttpRequest in
  AbortController_abort (abortController p);;
  Reflect_apply NativeAbort.

(** [new Headers()], then one [append] for each entry of
    [Object.entries(patch.headers)], then the [Request] constructor. *)
Definition xhrToRequest (p : PatchedXMLHttpRequestInstance)
    (body : option BodyInit) : Completion Request.t :=
  match URL_new (match url p with
                 | Some u => u
                 | None => EmptyString
                 end) location_origin with
  | Throw e => Throw e
  | Normal href =>
      match headers p with
      | None => Throw TypeError
      | Some h =>
          match Headers_append_all GuardNone (Object_entries h) [] with
          | Throw e => Throw e
          | Normal hs => Request_new href (method p) hs body
          end
      end
  end.

Definition default_capacity : nat := 1024 * 1024.

Definition ensureNotNullish {A} (value : option A) : Completion A :=
  match value with
  | Some v => Normal v
  | None => Throw (ErrorMsg "Value is null or undefined")
  end.

(** A string or [null] used as a condition: [null] and the empty string
    count as false. *)
Definition truthy (s : option string) : bool :=
  match s with
  | Some v => negb (String.eqb v EmptyString)
  | None => false
  end.

(** The length given to [new Uint8Array(...)] for the first buffer. *)
Definition initial_capacity (response : Response.t) : Completion nat :=
  if truthy (Headers_get "Content-Length" (Response.headers response)) then
    match ensureNotNullish
            (Headers_get "Content-Length" (Response.headers response)) with
    | Normal s => ToIndex (parseInt s)
    | Throw e => Throw e
    end
  else Normal default_capacity.

(** [response.body?.getReader()] *)
Definition getReader (body : option ReadableStream)
    : Completion (option ReadableStream) :=
  match body with
  | None => Normal None
  | Some s => if locked s then Throw TypeError else Normal (Some s)
  end.

(** The [while (true)] loop over the reads of the body stream; it returns
    the final [offset]. *)
Fixpoint read_loop (buffer : Uint8Array)
    (pending : list (option (list Byte.byte))) (ending : StreamEnd)
    (offset : nat) : M nat :=
  match pending with
  | [] =>
      match ending with
      | Closed => ret offset
      | Errored reason => throw reason
      end
  | None :: pending' => read_loop buffer pending' ending offset
  | Some value :: pending' =>
      (if decide (byteLength buffer < offset + length value) then
         let* newBuffer :=
           new_Uint8Array ((byteLength buffer + length value) * 2) in
         set_from newBuffer buffer 0;;
         assign (set_responseBufferInternal (Some newBuffer))
       else
         assign (set_responseBufferInternal (Some buffer)));;
      let* p := read patch in
      match responseBufferInternal p with
      | None => throw TypeError
      | Some internal =>
          set_bytes internal value offset;;
          let offset := offset + length value in
          assign (set_responseBuffer (Some (subarray0 internal offset)));;
          assign (set_readyState (Some 3));;
          logger_log ("XMLHttpRequest loading, received " +:+
                      pretty offset +:+ " bytes");;
          dispatchEvent (Ev "readystatechange");;
          dispatchEvent (ProgressEvent "progress" offset);;
          read_loop buffer pending' ending offset
      end
  end.

(** The [try] block of [startXhrWithResponseCallback]. *)
Definition try_block (responseCallback : Responder) : M unit :=
  let* p := read patch in
  let* response :=
    lift (match responseCallback (abortController p) with
          | Fulfilled r => Normal r
          | Rejected reason => Throw reason
          end) in
  assign (set_readyState (Some 2));;
  logger_log ("XMLHttpRequest received headers with status: " +:+
              pretty (Response.status response));;
  assign (set_status (Some (Response.status response)));;
  assign (set_statusText (Some (Response.statusText response)));;
  dispatchEvent (Ev "loadstart");;
  let* capacity := lift (initial_capacity response) in
  let* buffer := new_Uint8Array capacity in
  let* reader := lift (getReader (Response.body response)) in
  assign (set_response (Some response));;
  let* offset :=
    match reader with
    | Some stream => read_loop buffer (reads stream) (ending stream) 0
    | None => ret 0
    end in
  assign (fun p =>
    set_responseBufferInternal
      ((fun internal => subarray0 internal offset)
         <$> responseBufferInternal p) p);;
  assign (set_readyState (Some 4));;
  assign (set_responseUrl (Some (Response.url response)));;
  logger_log ("Hook request completed with status: " +:+
              pretty (Response.status response));;
  dispatchEvent (Ev "load");;
  dispatchEvent (Ev "readystatechange");;
  dispatchEvent (Ev "loadend").

(** The statements of [startXhrWithResponseCallback] before its [try]. *)
Definition before_try : M unit :=
  let* _ := getPatchedXMLHttpRequest in
  assign (set_readyState (Some 1));;
  let* p := read patch in
  logger_log ("Starting XMLHttpRequest with method: " +:+
              undefined_or (method p) +:+ ", url: " +:+
              undefined_or (url p));;
  dispatchEvent (Ev "readystatechange").

(** Its [catch] block. *)
Definition catch_block (error : JsError) : M unit :=
  logger_error "XMLHttpRequest failed to start:" error;;
  assign (set_readyState (Some 4));;
  dispatchEvent (Ev "error");;
  dispatchEvent (Ev "readystatechange").

(** The promise the asynchronous function returns is followed to its
    settlement: the command returns when it fulfils and would throw if it
    rejected. *)
Definition startXhrWithResponseCallback (responseCallback : Responder)
    : M unit :=
  before_try;;
  try_catch (try_block responseCallback) catch_block.

(** [hook(request)] *)
Definition call_hook (name : string) (hook : XhrHook) (request : Request.t)
    : M (option Responder) :=
  update (fun w => with_hookCalls (hookCalls w ++ [(name, request)]) w);;
  ret (hook request).

(** The [for ... of hooks] loop of [send]; it returns the responder of the
    hook that answered, if one did. *)
Fixpoint trial (request : Request.t) (entries : list (string * XhrHook))
    : M (option Responder) :=
  match entries with
  | [] => ret None
  | (name, hook) :: entries' =>
      logger_log ("Calling hook " +:+ quoted name);;
      let* responseCallback := call_hook name hook request in
      match responseCallback with
      | Some r =>
          logger_log ("Hook " +:+ quoted name +:+
                      " is overriding the request.");;
          ret (Some r)
      | None =>
          logger_log ("Hook " +:+ quoted name +:+
                      " did not return a response.");;
          trial request entries'
      end
  end.

Definition send (body : option BodyInit) : M unit :=
  let* p := getPatchedXMLHttpRequest in
  let* request := lift (xhrToRequest p None) in
  let* registry := read hooks in
  let* answer := trial request registry in
  match answer with
  | Some responseCallback => startXhrWithResponseCallback responseCallback
  | None =>
      logger_log "No hooks returned a response, proceeding with original send.";;
      Reflect_apply (NativeSend [body])
  end.

End Host.

(** ** A world to start from, and a small host for worked examples *)

(** A page that has not loaded the module's hooks yet, with one fresh
    request object. *)
Definition initial_world : World :=
  {| logs := []; hooks := []; marker := false;
     prototype := native_prototype;
     patch := new_PatchedXMLHttpRequestInstance 0;
     heap := []; aborted := []; controllers := 1;
     responseType := EmptyString;
     nativeCalls := []; hookCalls := []; dispatched := [] |}.

Module Demo.

Definition location_origin : string := "https://example.com".

(** Absolute URLs are kept, anything else is put behind the origin. *)
Definition URL_new (url base : string) : Completion string :=
  if String.prefix "http" url then Normal url else Normal (base +:+ url).

(** One character per byte: this is UTF-8 decoding on ASCII input. *)
Definition TextDecoder_decode (bytes : list Byte.byte) : Completion string :=
  Normal (String.string_of_list_byte bytes).

(** A JSON parser for unsigned decimal literals only; other texts are
    rejected with a syntax error. *)
Definition JSON_parse (text : string) : Completion N :=
  match text with
  | EmptyString => Throw (ErrorMsg "SyntaxError")
  | _ => match decimal_value 0 text with
         | Some n => Normal n
         | None => Throw (ErrorMsg "SyntaxError")
         end
  end.

(** A document is either a parsed tree (kept as its source text) or the
    error document an XML parser returns for malformed input. *)
Inductive Document :=
  | XMLDocument (source : string)
  | ParserErrorDocument.

(** Never throws; a text that does not begin with a tag is malformed. *)
Definition DOMParser_parseFromString (text : string) : Completion Document :=
  match skip_spaces text with
  | String "<" _ => Normal (XMLDocument text)
  | _ => Normal ParserErrorDocument
  end.

Definition send := send location_origin URL_new.
Definition xhrToRequest := xhrToRequest location_origin URL_new.
Definition response_getter :=
  response_getter TextDecoder_decode N Document JSON_parse
                  DOMParser_parseFromString.
Definition responseText_getter := responseText_getter TextDecoder_decode.

(** Run a command for its effect on the world. *)
Definition exec {A} (m : M A) (w : World) : World := snd (m w).

End Demo.

(** ** Vocabulary of the statements *)

(** *** Sequences of calls *)

(** The calls a page makes to the module's registration interface. *)
Inductive ApiCall :=
  | CallInsert (name : string) (hook : XhrHook) (options : InsertXhrHookOptions)
  | CallRemove (name : string).

(** One call, and a sequence of calls; a call that throws leaves the world
    as it was when it threw, and the page goes on. *)
Definition run_call (c : ApiCall) (w : World) : World :=
  match c with
  | CallInsert name hook options => snd (insertXhrHook name hook options w)
  | CallRemove name => snd (removeXhrHook name w)
  end.

Definition run_calls (cs : list ApiCall) (w : World) : World :=
  foldl (fun w c => run_call c w) w cs.

(** A sequence of [setRequestHeader] calls. *)
Fixpoint setRequestHeaders (calls : list (string * string)) : M unit :=
  match calls with
  | [] => ret tt
  | (name, value) :: calls' =>
      setRequestHeader name value;; setRequestHeaders calls'
  end.

(** The page sets [xhr.responseType]. *)
Definition with_responseType v (w : World) : World :=
  {| logs := logs w; hooks := hooks w; marker := marker w;
     prototype := prototype w; patch := patch w; heap := heap w;
     aborted := aborted w; controllers := controllers w;
     responseType := v; nativeCalls := nativeCalls w;
     hookCalls := hookCalls w; dispatched := dispatched w |}.

(** *** Properties of commands *)

(** A property of the world that a command cannot break. *)
Definition preserves {A} (P : World -> Prop) (m : M A) : Prop :=
  forall w, P w -> P (snd (m w)).

(** A property that does not look at the side record, the array buffers,
    the log or the dispatched events. *)
Definition instance_blind (P : World -> Prop) : Prop :=
  (forall w v, P w -> P (with_patch v w)) /\
  (forall w v, P w -> P (with_heap v w)) /\
  (forall w v, P w -> P (with_logs v w)) /\
  (forall w v, P w -> P (with_dispatched v w)).

(** *** The installer *)

(** The prototype once the installer has run on the browser's. *)
Definition patched_prototype : list (string * Property) :=
  [("readyState", Accessor (Replacement Native));
   ("status", Accessor (Replacement Native));
   ("statusText", Accessor (Replacement Native));
   ("response", Accessor (Replacement Native));
   ("responseURL", Accessor (Replacement Native));
   ("responseText", Accessor (Replacement Native));
   ("open", Method (Replacement Native));
   ("setRequestHeader", Method (Replacement Native));
   ("send", Method (Replacement Native));
   ("abort", Method (Replacement Native));
   ("getAllResponseHeaders", Method (Replacement Native))].

(** *** Trials *)

(** The hook calls a trial of [entries] on [request] records. *)
Definition calls_of (request : Request.t) (entries : list (string * XhrHook))
    : list (string * Request.t) :=
  map (fun e => (fst e, request)) entries.

(** Does this registry entry answer the request? *)
Definition answers (request : Request.t) (e : string * XhrHook) : Prop :=
  is_Some (snd e request).

#[local] Instance answers_dec request e : Decision (answers request e).
Proof. unfold answers. apply _. Defined.

(** The entries a trial calls: all of them up to and including the first
    that answers. *)
Definition trialed (request : Request.t) (entries : list (string * XhrHook))
    : list (string * XhrHook) :=
  match list_find (answers request) entries with
  | Some (i, _) => take (S i) entries
  | None => entries
  end.

(** What the trial returns: the answer of the first entry that gives one. *)
Definition first_answer (request : Request.t)
    (entries : list (string * XhrHook)) : option Responder :=
  match list_find (answers request) entries with
  | Some (_, e) => snd e request
  | None => None
  end.

(** *** Captured headers *)

(** The record the calls build, starting from [h]. *)
Definition assign_all (h : JsRecord) (calls : list (string * string))
    : JsRecord :=
  foldl (fun h kv => record_assign (fst kv) (snd kv) h) h calls.

(** Names in order of first occurrence, skipping those already [seen]. *)
Fixpoint first_occurrences (seen l : list string) : list string :=
  match l with
  | [] => []
  | x :: l' =>
      if decide (x ∈ seen) then first_occurrences seen l'
      else x :: first_occurrences (seen ++ [x]) l'
  end.

(** The value of the last call that set [name], if any. *)
Definition last_captured (name : string) (calls : list (string * string))
    : option string :=
  last (map snd (filter (fun kv => fst kv = name) calls)).

(** A captured entry the header list accepts: its name is a token and its
    value, normalized, is a header value. *)
Definition valid_header (kv : string * string) : bool :=
  is_token (fst kv) && is_header_value (normalize_value (snd kv)).

(** A valid entry the header list of a request keeps. *)
Definition allowed_header (kv : string * string) : bool :=
  negb (forbidden_request_header (fst kv) (normalize_value (snd kv))).

(** The entry with its value normalized. *)
Definition normalized_header (kv : string * string) : string * string :=
  (fst kv, normalize_value (snd kv)).

(** [out] is the pair a header list holds for the entry [kv]: the name up
    to ASCII case, the value normalized. *)
Definition same_header (kv out : string * string) : Prop :=
  string_lower (fst out) = string_lower (fst kv) /\
  snd out = normalize_value (snd kv).

(** What a guard lets through. *)
Definition kept (guard : HeadersGuard) (kv : string * string) : bool :=
  match guard with
  | GuardRequest => allowed_header kv
  | GuardNone => true
  end.

(** A method the [Request] constructor accepts. *)
Definition method_ok (m : string) : bool :=
  is_token m && negb (forbidden_method m).

(** Every indexed entry carries the array index of its own key. *)
Definition well_indexed (l : list (N * (string * string))) : Prop :=
  Forall (fun e => array_index (fst (snd e)) = Some (fst e)) l.

(** *** Responses and events *)

(** The bytes a response body delivers in all. *)
Definition body_bytes (response : Response.t) : list Byte.byte :=
  match Response.body response with
  | Some stream => concat (omap id (reads stream))
  | None => []
  end.

(** The instance as the listeners of a dispatched event see it. *)
Definition seen_world (d : Dispatched) (w : World) : World :=
  with_heap (seen_heap d) (with_patch (seen_patch d) w).

(** The types of the events dispatched so far. *)
Definition events (w : World) : list Event := map event (dispatched w).

(** The events a run of the body loop dispatches. *)
Definition loading_event (e : Event) : Prop :=
  e = Ev "readystatechange" \/ exists n, e = ProgressEvent "progress" n.

(** *** Worked examples *)

(** The bytes of an ASCII text. *)
Definition ascii_bytes (s : string) : list Byte.byte :=
  String.list_byte_of_string s.

(** A response with a declared length and a body delivered in chunks. *)
Definition chunked_response (contentLength : string)
    (chunks : list (list Byte.byte)) : Response.t :=
  {| Response.status := 200; Response.statusText := "OK";
     Response.headers := [("Content-Length", contentLength)];
     Response.url := "https://example.com/data";
     Response.body := Some {| locked := false; reads := map Some chunks;
                              ending := Closed |} |}.

(** The response of the module's own test, with its length declared. *)
Definition hello_response : Response.t :=
  {| Response.status := 201; Response.statusText := "Created";
     Response.headers := [("Content-Length", "20")];
     Response.url := EmptyString;
     Response.body :=
       Some {| locked := false;
               reads := [Some (ascii_bytes "Hello from the hook!")];
               ending := Closed |} |}.

(** A response without a body. *)
Definition empty_response : Response.t :=
  {| Response.status := 204; Response.statusText := "No Content";
     Response.headers := []; Response.url := EmptyString;
     Response.body := None |}.

(** A hook whose responder fulfils with the given response. *)
Definition respond_with (response : Response.t) : XhrHook :=
  fun _ => Some (fun _ => Fulfilled response).

(** A hook that lets every request pass. *)
Definition ignore_request : XhrHook := fun _ => None.

(** A hook whose responder rejects as an aborted fetch does. *)
Definition aborting_hook : XhrHook :=
  fun _ => Some (fun _ => Rejected (ErrorMsg "AbortError")).

(** The request an opened [GET https://example.com] translates to. *)
Definition example_request : Request.t :=
  {| Request.url := "https://example.com"; Request.method := Some "GET";
     Request.headers := []; Request.body := None |}.

(** Three hooks of which only the second answers, and an opened request. *)
Definition three_hooks_world : World :=
  Demo.exec (open "GET" "https://example.com" [])
    (run_calls [CallInsert "hook1" ignore_request NoOnExists;
                CallInsert "hook2" (respond_with hello_response) NoOnExists;
                CallInsert "hook3" ignore_request NoOnExists]
       initial_world).

(** A request answered by a hook and run to completion, after which the
    hook is removed. *)
Definition finished_world : World :=
  run_calls [CallRemove "test"]
    (Demo.exec (open "GET" "https://example.com" [];; Demo.send None)
       (run_calls [CallInsert "test" (respond_with hello_response) NoOnExists]
          initial_world)).

(** The same request object used again for a request that a hook answers
    without a body. *)
Definition reused_world : World :=
  Demo.exec (open "GET" "https://example.com" [];; Demo.send None)
    (run_calls [CallInsert "test" (respond_with empty_response) NoOnExists]
       finished_world).

(** An opened request whose hook rejects. *)
Definition aborting_world : World :=
  Demo.exec (open "GET" "https://example.com" [])
    (run_calls [CallInsert "test" aborting_hook NoOnExists] initial_world).

(** A hooked response whose body is not XML, read as a document. *)
Definition malformed_document_world : World :=
  Demo.exec
    (startXhrWithResponseCallback
       (fun _ => Fulfilled (chunked_response "4" [ascii_bytes "oops"])))
    (with_responseType "document" initial_world).

(** *** Further vocabulary: the registry and the patch helpers *)

(** The names under which hooks are registered, in trial order. *)
Definition hook_names (w : World) : list string := map fst (hooks w).

(** What [insertXhrHook] does once the installer has returned. *)
Definition register_hook (name : string) (hook : XhrHook)
    (options : InsertXhrHookOptions) : M unit :=
  let* registry := read hooks in
  let set := update (fun w => with_hooks (Map_set name hook (hooks w)) w) in
  if Map_has name registry then
    match computedOptions options with
    | Some OnError =>
        throw (ErrorMsg ("Hook with name " +:+ quoted name +:+
                         " already exists."))
    | Some OnIgnore =>
        logger_log ("Hook with name " +:+ quoted name +:+
                    " already exists, ignoring insert.")
    | Some OnReplace =>
        logger_log ("Replacing existing hook " +:+ quoted name);;
        set
    | None => set
    end
  else
    logger_log ("Inserting hook " +:+ quoted name);;
    set.

(** A prototype on which [responseURL] has no getter, as on a host that
    predates that property. *)
Definition prototype_without_responseURL : list (string * Property) :=
  [("readyState", Accessor Native); ("status", Accessor Native);
   ("statusText", Accessor Native); ("response", Accessor Native);
   ("responseText", Accessor Native);
   ("open", Method Native); ("setRequestHeader", Method Native);
   ("send", Method Native); ("abort", Method Native);
   ("getAllResponseHeaders", Method Native)].

(** A page on such a host. *)
Definition legacy_world : World :=
  with_prototype prototype_without_responseURL initial_world.

(** *** Further vocabulary: one request object *)

(** The calls a page makes on a request object. *)
Inductive XhrCall :=
  | XOpen (method url : string) (rest : list JsArg)
  | XSetRequestHeader (name value : string)
  | XAbort
  | XSend (body : option BodyInit).

Definition run_xhr_call (location_origin : string)
    (URL_new : string -> string -> Completion string) (c : XhrCall)
    : M unit :=
  match c with
  | XOpen method url rest => open method url rest
  | XSetRequestHeader name value => setRequestHeader name value
  | XAbort => abort
  | XSend body => send location_origin URL_new body
  end.

(** A sequence of such calls; a call that throws leaves the world as it
    was when it threw, and the page goes on. *)
Definition run_xhr_calls (location_origin : string)
    (URL_new : string -> string -> Completion string) (cs : list XhrCall)
    (w : World) : World :=
  foldl (fun w c => snd (run_xhr_call location_origin URL_new c w)) w cs.

(** Abort controllers are numbered in order of creation: the current one
    and those aborted so far have been created. *)
Definition controllers_fresh (w : World) : Prop :=
  abortController (patch w) < controllers w /\
  forall c, c ∈ aborted w -> c < controllers w.

(** A call that neither opens nor aborts. *)
Definition keeps_token (c : XhrCall) : Prop :=
  match c with
  | XOpen _ _ _ | XAbort => False
  | _ => True
  end.

(** The part of the world the response state machine never writes. *)
Definition request_side (w : World) :=
  (abortController (patch w), method (patch w), url (patch w),
   headers (patch w), aborted w, controllers w, responseType w,
   nativeCalls w, hookCalls w, hooks w, marker w, prototype w).

(** No emulated field of the side record is set. *)
Definition emulation_unset (w : World) : Prop :=
  readyState (patch w) = None /\ status (patch w) = None /\
  statusText (patch w) = None /\ response (patch w) = None /\
  responseBufferInternal (patch w) = None /\
  responseBuffer (patch w) = None /\ responseUrl (patch w) = None.

(** No registered hook answers the request a call offers: a [send] offers
    the request [xhrToRequest] builds from the side record. *)
Definition call_passes (location_origin : string)
    (URL_new : string -> string -> Completion string) (c : XhrCall)
    (w : World) : Prop :=
  match c with
  | XSend _ =>
      match xhrToRequest location_origin URL_new (patch w) None with
      | Normal request => Forall (fun e => snd e request = None) (hooks w)
      | Throw _ => True
      end
  | _ => True
  end.

(** No registered hook answers any request the calls send, each taken in
    the state the calls before it have left. *)
Fixpoint calls_pass (location_origin : string)
    (URL_new : string -> string -> Completion string) (cs : list XhrCall)
    (w : World) : Prop :=
  match cs with
  | [] => True
  | c :: cs' =>
      call_passes location_origin URL_new c w /\
      calls_pass location_origin URL_new cs'
        (snd (run_xhr_call location_origin URL_new c w))
  end.

(** A hook that answers the requests for one URL only. *)
Definition selective_hook : XhrHook :=
  fun request =>
    if String.eqb (Request.url request) "https://example.com/hooked"
    then Some (fun _ => Fulfilled hello_response)
    else None.

(** A page with that hook registered. *)
Definition selective_world : World :=
  run_calls [CallInsert "a" selective_hook NoOnExists] initial_world.

(** What a listener of a dispatched event can tell: the event and the
    [readyState] it reads. *)
Definition observed (d : Dispatched) : Event * option nat :=
  (event d, readyState (seen_patch d)).

(** A loading event, observed with [readyState] 3. *)
Definition loading_step (o : Event * option nat) : Prop :=
  loading_event (fst o) /\ snd o = Some 3.

(** The three shapes the observations of one run can take: the responder
    failed; the response arrived and the run completed; the response
    arrived and a later step failed. *)
Definition run_shape (obs : list (Event * option nat)) : Prop :=
  obs = [(Ev "readystatechange", Some 1);
         (Ev "error", Some 4); (Ev "readystatechange", Some 4)] \/
  exists loading,
    Forall loading_step loading /\
    (obs = (Ev "readystatechange", Some 1) :: (Ev "loadstart", Some 2) ::
           loading ++
           [(Ev "load", Some 4); (Ev "readystatechange", Some 4);
            (Ev "loadend", Some 4)] \/
     obs = (Ev "readystatechange", Some 1) :: (Ev "loadstart", Some 2) ::
           loading ++
           [(Ev "error", Some 4); (Ev "readystatechange", Some 4)]).

(** The chunks a body stream delivers. *)
Definition chunks_of (stream : ReadableStream) : list (list Byte.byte) :=
  omap id (reads stream).

(** The current token, the tokens aborted and the number created. *)
Definition token_state (w : World) : nat * list nat * nat :=
  (abortController (patch w), aborted w, controllers w).

(** What the getters read and what listeners saw. *)
Definition emulation_state (w : World) :=
  (readyState (patch w), status (patch w), statusText (patch w),
   response (patch w), responseBufferInternal (patch w),
   responseBuffer (patch w), responseUrl (patch w), heap w, dispatched w,
   hooks w, responseType w).

(** The fields the body loop leaves alone: the status line stored at the
    headers step and the final URL. *)
Definition status_line (w : World)
    : option nat * option string * option string :=
  (status (patch w), statusText (patch w), responseUrl (patch w)).

(** *** The header listing

    [headers.entries()] iterates the header list sorted and combined: the
    names in lower case, in ascending order of code units and without
    repetition, each with its values joined as [get] joins them; the values
    of [set-cookie] are listed one by one. *)
Fixpoint insert_name (name : string) (names : list string) : list string :=
  match names with
  | [] => [name]
  | first :: rest =>
      match String.compare name first with
      | Lt => name :: names
      | Eq => names
      | Gt => first :: insert_name name rest
      end
  end.

Definition sorted_names (h : Headers) : list string :=
  foldr insert_name [] (map (fun kv => string_lower (fst kv)) h).

Definition Headers_entries (h : Headers) : list (string * string) :=
  flat_map
    (fun name =>
       if decide (name = "set-cookie") then
         map (fun kv => (name, snd kv))
             (filter (fun kv => string_lower (fst kv) = name) h)
       else
         match Headers_get name h with
         | Some value => [(name, value)]
         | None => []
         end)
    (sorted_names h).

Definition CRLF : string :=
  String (ascii_of_nat 13) (String (ascii_of_nat 10) EmptyString).

(** What the replaced [getAllResponseHeaders] answers from a response. *)
Definition header_listing (r : Response.t) : string :=
  join CRLF (map (fun kv => fst kv +:+ ": " +:+ snd kv)
                 (Headers_entries (Response.headers r))).

(** The replaced [getAllResponseHeaders]; [target] stands for what the
    original method returns when it is called. *)
Definition getAllResponseHeaders (w : World) (target : string) : string :=
  match response (patch w) with
  | Some r => header_listing r
  | None => target
  end.

(** A response is stored on the side record. *)
Definition answered (w : World) : Prop := is_Some (response (patch w)).

(** ** Commands step by step *)

Lemma bind_normal {A B} (m : M A) (k : A -> M B) w a w1 :
  m w = (Normal a, w1) -> bind m k w = k a w1.
Proof. intros H. unfold bind. now rewrite H. Qed.

Lemma bind_normal_inv {A B} (m : M A) (k : A -> M B) w b w' :
  bind m k w = (Normal b, w') ->
  exists a w1, m w = (Normal a, w1) /\ k a w1 = (Normal b, w').
Proof.
  unfold bind. destruct (m w) as [[a|e] w1]; intros H.
  - eauto.
  - discriminate.
Qed.

Lemma preserves_bind {A B} P (m : M A) (k : A -> M B) :
  preserves P m -> (forall a, preserves P (k a)) -> preserves P (bind m k).
Proof.
  intros Hm Hk w Hw. unfold bind. specialize (Hm w Hw).
  destruct (m w) as [[a|e] w1]; cbn in *; [now apply Hk|assumption].
Qed.

Lemma preserves_try_catch {A} P (m : M A) handler :
  preserves P m -> (forall e, preserves P (handler e)) ->
  preserves P (try_catch m handler).
Proof.
  intros Hm Hk w Hw. unfold try_catch. specialize (Hm w Hw).
  destruct (m w) as [[a|e] w1]; cbn in *; [assumption|now apply Hk].
Qed.

Lemma preserves_ret {A} P (a : A) : preserves P (ret a).
Proof. intros w Hw. exact Hw. Qed.

Lemma preserves_throw {A} P e : preserves P (@throw A e).
Proof. intros w Hw. exact Hw. Qed.

Lemma preserves_read {A} P (f : World -> A) : preserves P (read f).
Proof. intros w Hw. exact Hw. Qed.

Lemma preserves_lift {A} P (c : Completion A) : preserves P (lift c).
Proof. intros w Hw. exact Hw. Qed.

Lemma preserves_update P f :
  (forall w, P w -> P (f w)) -> preserves P (update f).
Proof. intros Hf w Hw. now apply Hf. Qed.

Lemma preserves_set_from P target source offset :
  (forall w h, P w -> P (with_heap h w)) ->
  preserves P (set_from target source offset).
Proof.
  intros Hf w Hw. unfold set_from.
  destruct (Uint8Array_set _ _ _ _); cbn; auto.
Qed.

Lemma preserves_set_bytes P target value offset :
  (forall w h, P w -> P (with_heap h w)) ->
  preserves P (set_bytes target value offset).
Proof.
  intros Hf w Hw. unfold set_bytes.
  destruct (Uint8Array_set _ _ _ _); cbn; auto.
Qed.

Lemma preserves_new_Uint8Array P n :
  (forall w h, P w -> P (with_heap h w)) ->
  preserves P (new_Uint8Array n).
Proof. intros Hf w Hw. unfold new_Uint8Array. cbn. auto. Qed.

Lemma preserves_AbortController_new P :
  (forall w c, P w -> P (with_controllers c w)) ->
  preserves P AbortController_new.
Proof. intros Hf w Hw. unfold AbortController_new. cbn. auto. Qed.

(** Break a command into its steps; what remains are the assignments. *)
Ltac preserve_steps :=
  repeat first
    [ apply preserves_ret | apply preserves_throw | apply preserves_read
    | apply preserves_lift
    | apply preserves_bind; [|intros ?]
    | apply preserves_try_catch; [|intros ?]
    | apply preserves_set_from; intros ? ? ?
    | apply preserves_set_bytes; intros ? ? ?
    | apply preserves_new_Uint8Array; intros ? ? ?
    | apply preserves_AbortController_new; intros ? ? ?
    | apply preserves_update; intros ? ? ].

(** ** The installer and the registry *)

Lemma hookXhrIfNeeded_marked w :
  marker w = true ->
  hookXhrIfNeeded w =
    (Normal tt,
     with_logs (logs w ++ [Warn "XMLHttpRequest is already hooked, skipping."]) w).
Proof.
  intros Hm. unfold hookXhrIfNeeded, bind, read. rewrite Hm. reflexivity.
Qed.

Lemma hookXhrIfNeeded_first w :
  marker w = false -> prototype w = native_prototype ->
  hookXhrIfNeeded w =
    (Normal tt,
     with_prototype patched_prototype
       (with_marker true
          (with_logs (logs w ++ [Log "Hooking XMLHttpRequest"]) w))).
Proof.
  destruct w; simpl; intros -> ->. reflexivity.
Qed.

Lemma insertXhrHook_marked name hook options w :
  marker w = true ->
  marker (snd (insertXhrHook name hook options w)) = true /\
  prototype (snd (insertXhrHook name hook options w)) = prototype w.
Proof.
  intros Hm. unfold insertXhrHook.
  rewrite (bind_normal _ _ _ _ _ (hookXhrIfNeeded_marked w Hm)).
  unfold bind, read, update, throw, logger_log; cbn.
  destruct (Map_has name (hooks w)); cbn.
  - destruct (computedOptions options) as [[| |]|]; cbn; auto.
  - auto.
Qed.

Lemma removeXhrHook_frame name w :
  marker (snd (removeXhrHook name w)) = marker w /\
  prototype (snd (removeXhrHook name w)) = prototype w.
Proof.
  unfold removeXhrHook, bind, read, update, logger_log, logger_warn, ret; cbn.
  destruct (Map_has name (hooks w)); cbn; auto.
Qed.

Lemma run_calls_marked cs : forall w,
  marker w = true ->
  marker (run_calls cs w) = true /\ prototype (run_calls cs w) = prototype w.
Proof.
  induction cs as [|c cs IH]; intros w Hm; [auto|].
  change (run_calls (c :: cs) w) with (run_calls cs (run_call c w)).
  assert (marker (run_call c w) = true /\ prototype (run_call c w) = prototype w)
    as [Hm' Hp'].
  { destruct c as [name hook options|name]; unfold run_call.
    - now apply insertXhrHook_marked.
    - destruct (removeXhrHook_frame name w) as [H1 H2].
      rewrite H1, H2. auto. }
  destruct (IH _ Hm') as [? ->]. auto.
Qed.

Lemma wrappers_patched_prototype prop :
  prop ∈ patched_properties -> wrappers prop patched_prototype = 1.
Proof.
  unfold patched_properties. rewrite !elem_of_cons, elem_of_nil.
  intros H. repeat (destruct H as [->|H]; [reflexivity|]). destruct H.
Qed.

(** C9.  On a page whose [XMLHttpRequest] is still the browser's, the first
    run of the installer succeeds and stacks exactly one replacement on each
    of the eleven getters and methods.  From then on, after any sequence of
    hook insertions and removals, running the installer again only logs the
    warning that the object is already hooked and changes nothing else, and
    every getter and method still carries exactly one replacement. *)
Theorem installer_patches_once (w : World) (cs : list ApiCall) :
  marker w = false ->
  prototype w = native_prototype ->
  let w1 := snd (hookXhrIfNeeded w) in
  let w2 := run_calls cs w1 in
  fst (hookXhrIfNeeded w) = Normal tt /\
  marker w1 = true /\
  (forall prop, prop ∈ patched_properties -> wrappers prop (prototype w1) = 1) /\
  hookXhrIfNeeded w2 =
    (Normal tt,
     with_logs (logs w2 ++ [Warn "XMLHttpRequest is already hooked, skipping."])
       w2) /\
  (forall prop, prop ∈ patched_properties -> wrappers prop (prototype w2) = 1) /\
  (forall name hook options,
     prototype (snd (insertXhrHook name hook options w2)) = prototype w1).
Proof.
  intros Hm Hp w1 w2. subst w1 w2.
  rewrite (hookXhrIfNeeded_first w Hm Hp). cbn [fst snd].
  set (w1 := with_prototype _ _).
  assert (Hm1 : marker w1 = true) by reflexivity.
  assert (Hp1 : prototype w1 = patched_prototype) by reflexivity.
  destruct (run_calls_marked cs w1 Hm1) as [Hm2 Hp2].
  repeat split.
  - intros prop Hin. rewrite Hp1. now apply wrappers_patched_prototype.
  - now apply hookXhrIfNeeded_marked.
  - intros prop Hin. rewrite Hp2, Hp1. now apply wrappers_patched_prototype.
  - intros name hook options.
    destruct (insertXhrHook_marked name hook options _ Hm2) as [_ ->].
    exact Hp2.
Qed.

Lemma installer_patches_once_witness :
  let w1 := snd (hookXhrIfNeeded initial_world) in
  let w2 := run_calls [CallInsert "a" (fun _ => None) NoOnExists;
                       CallInsert "a" (fun _ => None) (GivenOnExists OnError);
                       CallRemove "a"] w1 in
  fst (hookXhrIfNeeded initial_world) = Normal tt /\
  marker w1 = true /\
  (forall prop, prop ∈ patched_properties -> wrappers prop (prototype w1) = 1) /\
  hookXhrIfNeeded w2 =
    (Normal tt,
     with_logs (logs w2 ++ [Warn "XMLHttpRequest is already hooked, skipping."])
       w2) /\
  (forall prop, prop ∈ patched_properties -> wrappers prop (prototype w2) = 1) /\
  (forall name hook options,
     prototype (snd (insertXhrHook name hook options w2)) = prototype w1).
Proof.
  apply (installer_patches_once initial_world); reflexivity.
Defined.

(** C4.  Once the module is installed, inserting under a name the registry
    already holds with [onExists] set to [error] throws an error whose
    message quotes the name and leaves the registry as it was: the name
    still maps to the handler registered before, and a later trial of the
    hooks runs exactly as it would have. *)
Theorem insert_error_keeps_registry (w : World) (name : string)
    (hook prior : XhrHook) :
  marker w = true ->
  Map_get name (hooks w) = Some prior ->
  let result := insertXhrHook name hook (GivenOnExists OnError) w in
  fst result =
    Throw (ErrorMsg ("Hook with name " +:+ quoted name +:+ " already exists.")) /\
  hooks (snd result) = hooks w /\
  Map_get name (hooks (snd result)) = Some prior /\
  (forall request w',
     trial request (hooks (snd result)) w' = trial request (hooks w) w').
Proof.
  intros Hm Hprior result. subst result. unfold insertXhrHook.
  rewrite (bind_normal _ _ _ _ _ (hookXhrIfNeeded_marked w Hm)).
  unfold bind, read, throw. cbn.
  assert (Hhas : Map_has name (hooks w) = true).
  { unfold Map_has. apply bool_decide_eq_true. rewrite Hprior. eauto. }
  rewrite Hhas. cbn. auto.
Qed.

Lemma insert_error_keeps_registry_witness :
  let prior : XhrHook := fun _ => Some (fun _ => Rejected TypeError) in
  let w := snd (insertXhrHook "test" prior NoOnExists initial_world) in
  let result := insertXhrHook "test" (fun _ => None) (GivenOnExists OnError) w in
  marker w = true /\
  Map_get "test" (hooks w) = Some prior /\
  fst result =
    Throw (ErrorMsg ("Hook with name " +:+ quoted "test" +:+ " already exists.")) /\
  hooks (snd result) = hooks w /\
  Map_get "test" (hooks (snd result)) = Some prior /\
  (forall request w',
     trial request (hooks (snd result)) w' = trial request (hooks w) w').
Proof.
  intros prior w result.
  assert (Hm : marker w = true) by reflexivity.
  assert (Hp : Map_get "test" (hooks w) = Some prior) by reflexivity.
  split; [exact Hm|]. split; [exact Hp|].
  exact (insert_error_keeps_registry w "test" (fun _ => None) prior Hm Hp).
Defined.

Lemma patchGetter_marker prop :
  preserves (fun w => marker w = true) (patchGetter prop).
Proof.
  unfold patchGetter. apply preserves_bind; [apply preserves_read|].
  intros obj. destruct (getOwnProperty prop obj) as [[?|?|?|]|];
    preserve_steps; assumption.
Qed.

Lemma patchMethod_marker prop :
  preserves (fun w => marker w = true) (patchMethod prop).
Proof.
  unfold patchMethod. apply preserves_bind; [apply preserves_read|].
  intros obj. apply preserves_bind; [apply preserves_lift|].
  intros [f|]; [|apply preserves_throw].
  destruct (getOwnProperty prop obj) as [[?|?|?|]|];
    preserve_steps; assumption.
Qed.

Lemma establishes_bind {A B} (P : World -> Prop) (m : M A) (k : A -> M B) :
  (forall w, P (snd (m w))) -> (forall a, preserves P (k a)) ->
  forall w, P (snd (bind m k w)).
Proof.
  intros Hm Hk w. unfold bind. specialize (Hm w).
  destruct (m w) as [[a|e] w1]; cbn in *; [now apply Hk|assumption].
Qed.

(** The installer sets the marker, whether the patching succeeds or not. *)
Lemma hookXhrIfNeeded_sets_marker w : marker (snd (hookXhrIfNeeded w)) = true.
Proof.
  unfold hookXhrIfNeeded. unfold bind at 1, read at 1.
  destruct (marker w) eqn:Hm; [exact Hm|].
  unfold logger_log at 1. unfold bind at 1, update at 1. cbv beta iota.
  apply establishes_bind; [reflexivity|]. intros _.
  repeat (apply preserves_bind;
          [first [apply patchGetter_marker|apply patchMethod_marker]
          |intros _]).
  apply patchMethod_marker.
Qed.

Lemma insertXhrHook_sets_marker name hook options w :
  marker (snd (insertXhrHook name hook options w)) = true.
Proof.
  unfold insertXhrHook.
  apply establishes_bind; [apply hookXhrIfNeeded_sets_marker|]. intros _.
  apply preserves_bind; [apply preserves_read|]. intros registry. cbv zeta.
  destruct (Map_has name registry);
    [destruct (computedOptions options) as [[| |]|]|];
    unfold logger_log; preserve_steps; assumption.
Qed.

(** A name can only be in the registry of an installed module: starting
    from a page without hooks, every sequence of calls leads to a world
    where the marker is set or the registry is empty. *)
Lemma registered_implies_installed cs : forall w,
  hooks w = [] \/ marker w = true ->
  hooks (run_calls cs w) = [] \/ marker (run_calls cs w) = true.
Proof.
  induction cs as [|c cs IH]; intros w Hw; [exact Hw|].
  change (run_calls (c :: cs) w) with (run_calls cs (run_call c w)).
  apply IH. destruct c as [name hook options|name]; unfold run_call.
  - right. apply insertXhrHook_sets_marker.
  - unfold removeXhrHook, bind, read, update, logger_log, logger_warn, ret; cbn.
    destruct Hw as [Hw|Hw].
    + left. rewrite Hw. cbn. exact Hw.
    + right. destruct (Map_has name (hooks w)); cbn; auto.
Qed.

(** ** Trial of the hooks *)

Lemma trial_run request entries : forall w,
  let w' := snd (trial request entries w) in
  fst (trial request entries w) = Normal (first_answer request entries) /\
  hookCalls w' = hookCalls w ++ calls_of request (trialed request entries) /\
  nativeCalls w' = nativeCalls w /\
  patch w' = patch w /\ heap w' = heap w /\ dispatched w' = dispatched w /\
  hooks w' = hooks w /\ responseType w' = responseType w.
Proof.
  unfold first_answer, trialed.
  induction entries as [|[name hook] entries IH]; intros w; cbn.
  - rewrite app_nil_r. auto 10.
  - unfold bind, logger_log, update, call_hook, ret; cbn.
    destruct (decide (answers request (name, hook))) as [Hyes|Hno].
    + destruct Hyes as [r Hr]. cbn in Hr. rewrite Hr. cbn.
      rewrite take_0, Hr. cbn. auto 10.
    + unfold answers in Hno. cbn in Hno.
      destruct (hook request) as [r|] eqn:Hr; [exfalso; eauto|].
      match goal with
      | |- context [trial request entries ?w0] =>
          specialize (IH w0);
          destruct (trial request entries w0) as [c w1];
          cbn [fst snd] in IH |- *;
          destruct IH as (IH1 & IH2 & IH3 & IH4 & IH5 & IH6 & IH7 & IH8)
      end.
      rewrite IH1, IH2, IH3, IH4, IH5, IH6, IH7, IH8. cbn.
      destruct (list_find (answers request) entries) as [[i e]|]; cbn;
        rewrite <- app_assoc; auto 10.
Qed.

(** ** What the state machine leaves alone *)

Ltac blind_steps H :=
  destruct H as (Hbp & Hbh & Hbl & Hbd);
  unfold assign, logger_log, logger_error, dispatchEvent;
  preserve_steps;
  first [ apply Hbp; assumption | apply Hbh; assumption
        | apply Hbl; assumption | apply Hbd; assumption | idtac ].

Lemma read_loop_blind P buffer pending ending : forall offset,
  instance_blind P -> preserves P (read_loop buffer pending ending offset).
Proof.
  induction pending as [|[value|] pending IH]; intros offset HP; cbn [read_loop].
  - destruct ending; preserve_steps.
  - apply preserves_bind.
    + destruct (decide (byteLength buffer < offset + length value));
        blind_steps HP.
    + intros _. apply preserves_bind; [apply preserves_read|]. intros p.
      destruct (responseBufferInternal p) as [internal|].
      * repeat (apply preserves_bind; [blind_steps HP|intros _]).
        now apply IH.
      * preserve_steps.
  - now apply IH.
Qed.

Lemma try_block_blind P responseCallback :
  instance_blind P -> preserves P (try_block responseCallback).
Proof.
  intros HP. unfold try_block.
  apply preserves_bind; [apply preserves_read|]. intros p.
  apply preserves_bind; [apply preserves_lift|]. intros response.
  do 5 (apply preserves_bind; [blind_steps HP|intros _]).
  apply preserves_bind; [apply preserves_lift|]. intros capacity.
  apply preserves_bind; [blind_steps HP|]. intros buffer.
  apply preserves_bind; [apply preserves_lift|]. intros reader.
  apply preserves_bind; [blind_steps HP|]. intros _.
  apply preserves_bind.
  { destruct reader as [stream|]; [now apply read_loop_blind|preserve_steps]. }
  intros offset. blind_steps HP.
Qed.

Lemma startXhrWithResponseCallback_blind P responseCallback :
  instance_blind P ->
  preserves P (startXhrWithResponseCallback responseCallback).
Proof.
  intros HP. unfold startXhrWithResponseCallback.
  apply preserves_bind; [unfold before_try; blind_steps HP|]. intros _.
  apply preserves_try_catch; [now apply try_block_blind|].
  intros e. unfold catch_block. blind_steps HP.
Qed.

Lemma hookCalls_blind c : instance_blind (fun w => hookCalls w = c).
Proof. repeat split; intros w v H; exact H. Qed.

Lemma nativeCalls_blind c : instance_blind (fun w => nativeCalls w = c).
Proof. repeat split; intros w v H; exact H. Qed.

(** The state machine always settles normally: nothing is thrown at the
    code that started it. *)
Lemma startXhrWithResponseCallback_returns responseCallback w :
  fst (startXhrWithResponseCallback responseCallback w) = Normal tt.
Proof.
  unfold startXhrWithResponseCallback, before_try, try_catch, catch_block.
  unfold bind, assign, logger_log, logger_error, dispatchEvent, update, read.
  cbn.
  match goal with
  | |- fst (match ?m with _ => _ end) = _ => destruct m as [[[]|e] w1]
  end; reflexivity.
Qed.

(** ** Dispatch on [send] *)

Section Dispatch.

Variable location_origin : string.
Variable URL_new : string -> string -> Completion string.

Local Abbreviation xhrToRequest' := (xhrToRequest location_origin URL_new).
Local Abbreviation send' := (send location_origin URL_new).

Lemma send_unfold body w request :
  xhrToRequest' (patch w) None = Normal request ->
  send' body w =
    match first_answer request (hooks w) with
    | Some responseCallback =>
        startXhrWithResponseCallback responseCallback
          (snd (trial request (hooks w) w))
    | None =>
        (logger_log "No hooks returned a response, proceeding with original send.";;
         Reflect_apply (NativeSend [body])) (snd (trial request (hooks w) w))
    end.
Proof.
  intros Hreq. unfold send.
  unfold bind at 1, read at 1. unfold bind at 1, lift at 1. rewrite Hreq.
  unfold bind at 1, read at 1. unfold bind at 1.
  destruct (trial_run request (hooks w) w) as (Hfst & _).
  destruct (trial request (hooks w) w) as [c w1]. cbn [fst snd] in *.
  subst c. destruct (first_answer request (hooks w)); reflexivity.
Qed.

Lemma Map_set_fresh name hook m :
  Map_has name m = false -> Map_set name hook m = m ++ [(name, hook)].
Proof.
  unfold Map_has. rewrite bool_decide_eq_false.
  induction m as [|[k v] m IH]; cbn; intros Hno; [reflexivity|].
  destruct (String.eqb k name); [exfalso; eauto|].
  f_equal. now apply IH.
Qed.

Lemma Map_set_names name hook m :
  Map_has name m = true -> map fst (Map_set name hook m) = map fst m.
Proof.
  unfold Map_has. rewrite bool_decide_eq_true.
  induction m as [|[k v] m IH]; cbn; intros [h Hh]; [discriminate|].
  destruct (String.eqb k name); [reflexivity|].
  cbn. f_equal. apply IH. eauto.
Qed.

(** When the side record translates to a request, [send] calls the
    registered hooks on it in registry order; if some hook answers, the
    hooks called are those up to and including the first that answers and
    the state machine is run with that hook's responder on the instance as
    it was; if none answers, every hook has been called once and the
    original [send] is called with the caller's argument. *)
Lemma send_trial_steps (w : World) (body : option BodyInit)
    (request : Request.t) :
  xhrToRequest' (patch w) None = Normal request ->
  let offered := snd (trial request (hooks w) w) in
  let sent := snd (send' body w) in
  (forall name hook,
     (Map_has name (hooks w) = false ->
      Map_set name hook (hooks w) = hooks w ++ [(name, hook)]) /\
     (Map_has name (hooks w) = true ->
      map fst (Map_set name hook (hooks w)) = map fst (hooks w))) /\
  patch offered = patch w /\ heap offered = heap w /\
  dispatched offered = dispatched w /\
  match list_find (answers request) (hooks w) with
  | Some (i, (name, hook)) =>
      (forall j e, j < i -> hooks w !! j = Some e -> snd e request = None) /\
      exists responder,
        hook request = Some responder /\
        hookCalls offered =
          hookCalls w ++ calls_of request (take (S i) (hooks w)) /\
        send' body w = startXhrWithResponseCallback responder offered /\
        hookCalls sent = hookCalls offered /\
        nativeCalls sent = nativeCalls w
  | None =>
      Forall (fun e => snd e request = None) (hooks w) /\
      hookCalls sent = hookCalls w ++ calls_of request (hooks w) /\
      nativeCalls sent = nativeCalls w ++ [NativeSend [body]] /\
      patch sent = patch w /\ heap sent = heap w /\
      dispatched sent = dispatched w
  end.
Proof.
  intros Hreq offered sent. subst offered sent.
  rewrite (send_unfold body w request Hreq).
  destruct (trial_run request (hooks w) w)
    as (Hfst & Hcalls & Hnative & Hpatch & Hheap & Hdisp & Hhooks & _).
  unfold first_answer, trialed in *.
  split; [|split; [exact Hpatch|split; [exact Hheap|split; [exact Hdisp|]]]].
  - intros name hook. split; [apply Map_set_fresh|apply Map_set_names].
  - destruct (list_find (answers request) (hooks w)) as [[i [name hook]]|] eqn:Hfind.
    + apply list_find_Some in Hfind as (Hi & [r Hr] & Hbefore). cbn in Hr.
      split.
      * intros j e Hj He. specialize (Hbefore j e He Hj).
        apply eq_None_not_Some. exact Hbefore.
      * exists r. cbn [snd]. rewrite Hr.
        split; [reflexivity|]. split; [exact Hcalls|].
        split; [reflexivity|]. split.
        -- apply (startXhrWithResponseCallback_blind
                    (fun w' => hookCalls w' = _) r (hookCalls_blind _)).
           reflexivity.
        -- rewrite <- Hnative.
           apply (startXhrWithResponseCallback_blind
                    (fun w' => nativeCalls w' = _) r (nativeCalls_blind _)).
           reflexivity.
    + apply list_find_None in Hfind.
      unfold bind, logger_log, Reflect_apply, update. cbn.
      rewrite Hcalls, Hnative, Hpatch, Hheap, Hdisp. repeat split.
      eapply Forall_impl; [exact Hfind|]. intros e He.
      apply eq_None_not_Some. exact He.
Qed.

Lemma first_answer_none request entries :
  Forall (fun e => snd e request = None) entries ->
  first_answer request entries = None.
Proof.
  intros Hall. unfold first_answer.
  destruct (list_find (answers request) entries) as [[i e]|] eqn:Hfind;
    [|reflexivity].
  apply list_find_Some in Hfind as (Hi & _ & _).
  rewrite Forall_lookup in Hall. exact (Hall i e Hi).
Qed.

Variable TextDecoder_decode : list Byte.byte -> Completion string.
Variables JSONValue Document : Type.
Variable JSON_parse : string -> Completion JSONValue.
Variable DOMParser_parseFromString : string -> Completion Document.

Local Abbreviation response_getter' :=
  (response_getter TextDecoder_decode JSONValue Document JSON_parse
                   DOMParser_parseFromString).
Local Abbreviation responseText_getter' :=
  (responseText_getter TextDecoder_decode).

(** C10.  [open] aborts the current controller and installs a fresh one,
    stores the method and the URL, empties the captured headers and
    forwards the call; it leaves the emulated [readyState], [status],
    [statusText], [response], both response buffers and [responseUrl] of
    the side record as they were.  When no hook answers the request sent
    next, [send] only forwards to the original method, so that afterwards
    every replaced getter returns what it returned before the reopening:
    values a finished hooked lifecycle left behind still take precedence
    over the browser's. *)
Theorem reopen_keeps_emulated_fields (w : World) (m u : string)
    (rest : list JsArg) (body : option BodyInit) (request : Request.t) :
  let reopened := snd (open m u rest w) in
  let sent := snd (send' body reopened) in
  xhrToRequest' (patch reopened) None = Normal request ->
  Forall (fun e => snd e request = None) (hooks w) ->
  (method (patch reopened) = Some m /\
   url (patch reopened) = Some u /\
   headers (patch reopened) = Some [] /\
   abortController (patch reopened) = controllers w /\
   aborted reopened = abortController (patch w) :: aborted w) /\
  (readyState (patch reopened) = readyState (patch w) /\
   status (patch reopened) = status (patch w) /\
   statusText (patch reopened) = statusText (patch w) /\
   response (patch reopened) = response (patch w) /\
   responseBufferInternal (patch reopened) = responseBufferInternal (patch w) /\
   responseBuffer (patch reopened) = responseBuffer (patch w) /\
   responseUrl (patch reopened) = responseUrl (patch w) /\
   heap reopened = heap w) /\
  (nativeCalls sent =
     nativeCalls w ++ [NativeOpen m u rest; NativeSend [body]] /\
   patch sent = patch reopened /\ heap sent = heap w /\
   dispatched sent = dispatched w) /\
  (forall native, readyState_getter sent native = readyState_getter w native) /\
  (forall native, status_getter sent native = status_getter w native) /\
  (forall native, statusText_getter sent native = statusText_getter w native) /\
  (forall native, responseURL_getter sent native = responseURL_getter w native) /\
  (forall native, response_getter' sent native = response_getter' w native) /\
  (forall native,
     responseText_getter' sent native = responseText_getter' w native).
Proof.
  intros reopened sent Hreq Hnone.
  assert (Hopen : reopened =
    with_nativeCalls (nativeCalls w ++ [NativeOpen m u rest])
      (with_patch
         (set_headers (Some [])
            (set_url (Some u)
               (set_method (Some m)
                  (set_abortController (controllers w) (patch w)))))
         (with_controllers (S (controllers w))
            (with_aborted (abortController (patch w) :: aborted w)
               (with_logs
                  (logs w ++
                   [Log ("XMLHttpRequest open called with method: " +:+ m +:+
                         ", url: " +:+ u)]) w))))) by reflexivity.
  assert (Hhooks : hooks reopened = hooks w) by (rewrite Hopen; reflexivity).
  assert (Hsent : patch sent = patch reopened /\ heap sent = heap reopened /\
                  dispatched sent = dispatched reopened /\
                  responseType sent = responseType reopened /\
                  nativeCalls sent = nativeCalls reopened ++ [NativeSend [body]]).
  { subst sent. rewrite (send_unfold body reopened request Hreq).
    rewrite Hhooks, (first_answer_none request (hooks w) Hnone).
    destruct (trial_run request (hooks w) reopened)
      as (_ & _ & Hnative & Hpatch & Hheap & Hdisp & _ & Htype).
    destruct (trial request (hooks w) reopened) as [c w1].
    cbn [fst snd] in *.
    unfold bind, logger_log, Reflect_apply, update. cbn.
    rewrite Hnative, Hpatch, Hheap, Hdisp, Htype. repeat split. }
  destruct Hsent as (Hp & Hh & Hd & Ht & Hn).
  assert (Hheap : heap reopened = heap w) by (rewrite Hopen; reflexivity).
  assert (Htype : responseType reopened = responseType w)
    by (rewrite Hopen; reflexivity).
  split; [rewrite Hopen; repeat split|].
  split; [rewrite Hopen; repeat split|].
  split.
  { rewrite Hn, Hp, Hh, Hd, Hheap, Hopen. cbn. rewrite <- app_assoc.
    repeat split. }
  unfold readyState_getter, status_getter, statusText_getter,
    responseURL_getter, response_getter, responseText_getter.
  rewrite Hp, Hh, Ht, Hheap, Htype, Hopen. cbn. repeat split.
Qed.

End Dispatch.

(** *** Worked examples *)

Lemma reopen_keeps_emulated_fields_witness :
  let w := finished_world in
  let reopened := snd (open "GET" "/next" [] w) in
  let sent := snd (Demo.send None reopened) in
  let request :=
    {| Request.url := "https://example.com/next"; Request.method := Some "GET";
       Request.headers := []; Request.body := None |} in
  Demo.xhrToRequest (patch reopened) None = Normal request /\
  Forall (fun e => snd e request = None) (hooks w) /\
  readyState (patch w) = Some 4 /\
  nativeCalls sent =
    nativeCalls w ++ [NativeOpen "GET" "/next" []; NativeSend [None]] /\
  readyState_getter sent 1 = 4 /\
  status_getter sent 0 = 201.
Proof.
  intros w reopened sent request.
  assert (H1 : Demo.xhrToRequest (patch reopened) None = Normal request)
    by reflexivity.
  assert (H2 : Forall (fun e => snd e request = None) (hooks w))
    by (vm_compute; constructor).
  split; [exact H1|]. split; [exact H2|]. split; [reflexivity|].
  pose proof (reopen_keeps_emulated_fields Demo.location_origin Demo.URL_new
                Demo.TextDecoder_decode N Demo.Document Demo.JSON_parse
                Demo.DOMParser_parseFromString
                w "GET" "/next" [] None request H1 H2) as T.
  cbv zeta in T.
  destruct T as (_ & _ & (Hnative & _) & Hready & Hstatus & _).
  split; [exact Hnative|].
  split; [exact (Hready 1)|exact (Hstatus 0)].
Defined.

(** ** The response state machine *)

Lemma bind_update {B} f (k : unit -> M B) w : bind (update f) k w = k tt (f w).
Proof. reflexivity. Qed.

Lemma set_bytes_normal target value offset w w' :
  set_bytes target value offset w = (Normal tt, w') ->
  offset + length value <= byteLength target /\
  exists h, w' = with_heap h w.
Proof.
  unfold set_bytes, Uint8Array_set.
  destruct (decide (offset + length value <= byteLength target)) as [Hfit|Hno];
    intros H; inversion H; subst. eauto.
Qed.

(** A run of the body loop that reaches the end of the stream returns the
    number of bytes received, has dispatched only loading events, and either
    has met no chunk and left the side record alone or has left an internal
    buffer at least as long as the offset. *)
Lemma read_loop_normal buffer pending ending : forall offset w off' w',
  read_loop buffer pending ending offset w = (Normal off', w') ->
  off' = offset + length (concat (omap id pending)) /\
  (exists evs, events w' = events w ++ evs /\ Forall loading_event evs) /\
  (off' = offset /\ patch w' = patch w \/
   exists a, responseBufferInternal (patch w') = Some a /\
             off' <= byteLength a).
Proof.
  induction pending as [|[value|] pending IH]; intros offset w off' w' H;
    cbn [read_loop] in H.
  - destruct ending; inversion H; subst. cbn. rewrite Nat.add_0_r.
    split; [reflexivity|]. split; [|left; auto].
    exists []. rewrite app_nil_r. auto.
  - apply bind_normal_inv in H as ([] & w1 & Hgrow & H).
    assert (Hev1 : events w1 = events w).
    { assert (Hp : preserves (fun w0 => events w0 = events w)
        (if decide (byteLength buffer < offset + length value)
         then let* newBuffer :=
                new_Uint8Array ((byteLength buffer + length value) * 2) in
              set_from newBuffer buffer 0;;
              assign (set_responseBufferInternal (Some newBuffer))
         else assign (set_responseBufferInternal (Some buffer)))).
      { destruct (decide (byteLength buffer < offset + length value));
          unfold assign; preserve_steps; assumption. }
      specialize (Hp w eq_refl). rewrite Hgrow in Hp. exact Hp. }
    apply bind_normal_inv in H as (p & w1' & Hread & H).
    inversion Hread; subst p w1'; clear Hread.
    destruct (responseBufferInternal (patch w1)) as [internal|] eqn:Hint;
      [|discriminate].
    apply bind_normal_inv in H as ([] & w2 & Hset & H).
    apply set_bytes_normal in Hset as (Hfit & h & ->).
    cbv zeta in H. unfold assign, logger_log, dispatchEvent in H.
    rewrite !bind_update in H.
    apply IH in H as (Hoff & (evs & Hevs & Hall) & Hinv).
    assert (Hlen : length (concat (omap id (Some value :: pending))) =
                   length value + length (concat (omap id pending)))
      by (cbn; now rewrite length_app).
    split; [rewrite Hlen; lia|]. split.
    + eexists (_ :: _ :: evs). split.
      * rewrite Hevs. unfold events. cbn. rewrite !map_app. cbn.
        fold (events w1). rewrite Hev1, <- !app_assoc. reflexivity.
      * constructor; [left; reflexivity|].
        constructor; [right; eauto|exact Hall].
    + right. destruct Hinv as [[Hsame Hpatch]|Hlater]; [|exact Hlater].
      exists internal. rewrite Hpatch, Hsame. cbn. split; [exact Hint|lia].
  - apply IH in H. exact H.
Qed.

Lemma before_try_run w :
  before_try w =
    (Normal tt,
     with_dispatched
       (dispatched w ++
        [{| event := Ev "readystatechange";
            seen_patch := set_readyState (Some 1) (patch w);
            seen_heap := heap w |}])
       (with_logs
          (logs w ++
           [Log ("Starting XMLHttpRequest with method: " +:+
                 undefined_or (method (patch w)) +:+ ", url: " +:+
                 undefined_or (url (patch w)))])
          (with_patch (set_readyState (Some 1) (patch w)) w))).
Proof. reflexivity. Qed.

(** C5.  When the responder fulfils with a response and the [try] block of
    the state machine runs to its end, the state machine settles normally
    and leaves [readyState] at 4, [responseUrl] at the URL of the response,
    the internal buffer (when there is one) exactly as long as the number of
    bytes the body delivered, and the last three events dispatched are a
    load, a readiness change and a load end, in that order; no load, load
    end or error event was dispatched before them. *)
Theorem completion_of_hooked_response (w w' : World)
    (responseCallback : Responder) (response : Response.t) :
  responseCallback (abortController (patch w)) = Fulfilled response ->
  try_block responseCallback (snd (before_try w)) = (Normal tt, w') ->
  startXhrWithResponseCallback responseCallback w = (Normal tt, w') /\
  readyState (patch w') = Some 4 /\
  responseUrl (patch w') = Some (Response.url response) /\
  (forall internal,
     responseBufferInternal (patch w') = Some internal ->
     byteLength internal = length (body_bytes response)) /\
  exists earlier,
    events w' =
      events w ++ earlier ++
      [Ev "load"; Ev "readystatechange"; Ev "loadend"] /\
    Forall (fun e => e <> Ev "load" /\ e <> Ev "loadend" /\ e <> Ev "error")
           earlier.
Proof.
  intros Hful Htry.
  split.
  { unfold startXhrWithResponseCallback, bind. rewrite before_try_run in *.
    cbn [snd] in Htry. unfold try_catch. now rewrite Htry. }
  rewrite before_try_run in Htry. cbn [snd] in Htry.
  set (w0 := with_dispatched _ _) in Htry.
  unfold try_block in Htry.
  apply bind_normal_inv in Htry as (p & w1 & Hread & Htry).
  inversion Hread; subst p w1; clear Hread.
  change (abortController (set_readyState (Some 1) (patch w)))
    with (abortController (patch w)) in Htry.
  rewrite Hful in Htry.
  apply bind_normal_inv in Htry as (r & w1 & Hlift & Htry).
  inversion Hlift; subst r w1; clear Hlift.
  unfold assign, logger_log, dispatchEvent in Htry.
  rewrite !bind_update in Htry.
  apply bind_normal_inv in Htry as (capacity & w1 & Hcap & Htry).
  unfold lift in Hcap. inversion Hcap as [[Hcap' Hw1]]. subst w1. clear Hcap.
  apply bind_normal_inv in Htry as (buffer & w2 & Hnew & Htry).
  inversion Hnew; subst buffer w2; clear Hnew.
  apply bind_normal_inv in Htry as (reader & w2 & Hreader & Htry).
  unfold lift in Hreader. inversion Hreader as [[Hreader' Hw2]]. subst w2.
  clear Hreader.
  rewrite bind_update in Htry.
  apply bind_normal_inv in Htry as (offset & w3 & Hloop & Htry).
  rewrite !bind_update in Htry. inversion Htry; subst w'; clear Htry.
  match type of Hloop with
  | _ ?wl = _ => set (wl0 := wl) in *
  end.
  assert (Hevl : events wl0 = events w ++ [Ev "readystatechange"; Ev "loadstart"]).
  { clear. subst wl0 w0. unfold events. cbn. rewrite !map_app. cbn.
    rewrite <- app_assoc. reflexivity. }
  assert (Hfacts :
    offset = length (body_bytes response) /\
    (exists evs, events w3 = events wl0 ++ evs /\ Forall loading_event evs) /\
    (offset = 0 \/ exists a, responseBufferInternal (patch w3) = Some a /\
                             offset <= byteLength a)).
  { unfold body_bytes, getReader in *.
    destruct (Response.body response) as [stream|].
    - destruct (locked stream); [discriminate|].
      inversion Hreader'; subst reader.
      apply read_loop_normal in Hloop as (Hoff & Hevs & Hinv).
      split; [exact Hoff|]. split; [exact Hevs|].
      destruct Hinv as [[-> _]|Hinv]; auto.
    - inversion Hreader'; subst reader. inversion Hloop; subst offset w3.
      split; [reflexivity|]. split; [|left; reflexivity].
      exists []. rewrite app_nil_r. auto. }
  destruct Hfacts as (Hoff & (evs & Hevs & Hall) & Hinv).
  cbn. split; [reflexivity|]. split; [reflexivity|]. split.
  - intros internal Hint.
    destruct (responseBufferInternal (patch w3)) as [a|]; [|discriminate].
    cbn in Hint. inversion Hint; subst internal. cbn.
    destruct Hinv as [Hz|(a' & Ha' & Hle)]; [lia|].
    inversion Ha'; subst a'. lia.
  - exists ([Ev "readystatechange"; Ev "loadstart"] ++ evs). split.
    + unfold events in *. cbn. rewrite !map_app. cbn.
      rewrite Hevs, Hevl, <- !app_assoc. reflexivity.
    + constructor; [repeat split; discriminate|].
      constructor; [repeat split; discriminate|].
      eapply Forall_impl; [exact Hall|].
      intros e [->|[n ->]]; repeat split; discriminate.
Qed.

Lemma completion_of_hooked_response_witness :
  let responder : Responder := fun _ => Fulfilled hello_response in
  let w := initial_world in
  let w' := snd (try_block responder (snd (before_try w))) in
  responder (abortController (patch w)) = Fulfilled hello_response /\
  try_block responder (snd (before_try w)) = (Normal tt, w') /\
  startXhrWithResponseCallback responder w = (Normal tt, w') /\
  readyState (patch w') = Some 4 /\
  (forall internal,
     responseBufferInternal (patch w') = Some internal ->
     byteLength internal = 20).
Proof.
  intros responder w w'.
  assert (H1 : responder (abortController (patch w)) = Fulfilled hello_response)
    by reflexivity.
  assert (H2 : try_block responder (snd (before_try w)) = (Normal tt, w'))
    by (vm_compute; reflexivity).
  split; [exact H1|]. split; [exact H2|].
  destruct (completion_of_hooked_response w w' responder hello_response H1 H2)
    as (Hstart & Hready & _ & Htrim & _).
  split; [exact Hstart|]. split; [exact Hready|exact Htrim].
Defined.

Section Failure.

Variable location_origin : string.
Variable URL_new : string -> string -> Completion string.

Local Abbreviation xhrToRequest' := (xhrToRequest location_origin URL_new).
Local Abbreviation send' := (send location_origin URL_new).

Lemma startXhrWithResponseCallback_rejected w responseCallback reason :
  responseCallback (abortController (patch w)) = Rejected reason ->
  let result := startXhrWithResponseCallback responseCallback w in
  fst result = Normal tt /\
  patch (snd result) = set_readyState (Some 4) (patch w) /\
  events (snd result) =
    events w ++ [Ev "readystatechange"; Ev "error"; Ev "readystatechange"] /\
  last (logs (snd result)) =
    Some (LogError "XMLHttpRequest failed to start:" reason) /\
  heap (snd result) = heap w.
Proof.
  intros Hrej result. subst result.
  unfold startXhrWithResponseCallback.
  rewrite (bind_normal _ _ _ _ _ (before_try_run w)).
  set (w0 := with_dispatched _ _).
  assert (Htry : try_block responseCallback w0 = (Throw reason, w0)).
  { unfold try_block. unfold bind at 1, read at 1.
    change (abortController (patch w0)) with (abortController (patch w)).
    rewrite Hrej. reflexivity. }
  unfold try_catch. rewrite Htry.
  unfold catch_block, bind, logger_error, assign, dispatchEvent, update.
  subst w0. cbn. unfold events. cbn.
  rewrite last_snoc, !map_app, <- !app_assoc. repeat split.
Qed.

(** C6.  When the hook that answers a [send] gives a responder whose
    promise rejects (for whatever reason, cancellation included), [send]
    returns normally; the state machine has logged the failure, set
    [readyState] to 4 and left the other fields of the side record as they
    were at [send], and the events dispatched by the call are a readiness
    change (for the start), then an error and a readiness change: no load
    and no load end.  No call is forwarded to the original [send]. *)
Theorem responder_failure_signalled (w : World) (body : option BodyInit)
    (request : Request.t) (responseCallback : Responder) (reason : JsError) :
  xhrToRequest' (patch w) None = Normal request ->
  first_answer request (hooks w) = Some responseCallback ->
  responseCallback (abortController (patch w)) = Rejected reason ->
  let sent := snd (send' body w) in
  fst (send' body w) = Normal tt /\
  patch sent = set_readyState (Some 4) (patch w) /\
  events sent =
    events w ++ [Ev "readystatechange"; Ev "error"; Ev "readystatechange"] /\
  last (logs sent) = Some (LogError "XMLHttpRequest failed to start:" reason) /\
  nativeCalls sent = nativeCalls w.
Proof.
  intros Hreq Hanswer Hrej sent. subst sent.
  rewrite (send_unfold location_origin URL_new body w request Hreq), Hanswer.
  destruct (trial_run request (hooks w) w)
    as (_ & _ & Hnative & Hpatch & Hheap & Hdisp & _ & _).
  set (offered := snd (trial request (hooks w) w)) in *.
  assert (Hrej' : responseCallback (abortController (patch offered)) =
                  Rejected reason) by (rewrite Hpatch; exact Hrej).
  destruct (startXhrWithResponseCallback_rejected offered responseCallback
              reason Hrej') as (Hfst & Hp & Hev & Hlog & _).
  cbv zeta in *. rewrite Hfst, Hp, Hev, Hlog, Hpatch.
  unfold events. rewrite Hdisp. repeat split.
  rewrite <- Hnative.
  apply (startXhrWithResponseCallback_blind
           (fun w' => nativeCalls w' = _) responseCallback (nativeCalls_blind _)).
  reflexivity.
Qed.

End Failure.

Lemma responder_failure_signalled_witness :
  let w := aborting_world in
  let responder : Responder := fun _ => Rejected (ErrorMsg "AbortError") in
  let sent := snd (Demo.send None w) in
  Demo.xhrToRequest (patch w) None = Normal example_request /\
  first_answer example_request (hooks w) = Some responder /\
  responder (abortController (patch w)) = Rejected (ErrorMsg "AbortError") /\
  fst (Demo.send None w) = Normal tt /\
  readyState (patch sent) = Some 4 /\
  events sent = [Ev "readystatechange"; Ev "error"; Ev "readystatechange"] /\
  nativeCalls sent = nativeCalls w.
Proof.
  intros w responder sent.
  assert (H1 : Demo.xhrToRequest (patch w) None = Normal example_request)
    by reflexivity.
  assert (H2 : first_answer example_request (hooks w) = Some responder)
    by reflexivity.
  assert (H3 : responder (abortController (patch w)) =
               Rejected (ErrorMsg "AbortError")) by reflexivity.
  split; [exact H1|]. split; [exact H2|]. split; [exact H3|].
  destruct (responder_failure_signalled Demo.location_origin Demo.URL_new
              w None example_request responder (ErrorMsg "AbortError")
              H1 H2 H3) as (Hfst & Hpatch & Hev & _ & Hnative).
  split; [exact Hfst|]. split; [|split; [exact Hev|exact Hnative]].
  unfold sent, Demo.send. rewrite Hpatch. reflexivity.
Defined.

(** ** Captured headers and the request *)

Lemma eqb_decide (a b : string) :
  String.eqb a b = bool_decide (a = b).
Proof.
  destruct (String.eqb_spec a b) as [->|Hne].
  - now rewrite bool_decide_eq_true_2.
  - now rewrite bool_decide_eq_false_2.
Qed.

Lemma values_nil name : record_values name [] = [].
Proof. reflexivity. Qed.

Lemma values_cons name k v o :
  record_values name ((k, v) :: o) =
    if decide (k = name) then v :: record_values name o
    else record_values name o.
Proof.
  unfold record_values. rewrite filter_cons. cbn.
  destruct (decide (k = name)); reflexivity.
Qed.

Lemma values_app name o1 o2 :
  record_values name (o1 ++ o2) =
    record_values name o1 ++ record_values name o2.
Proof. unfold record_values. now rewrite filter_app, map_app. Qed.

Lemma values_absent name o :
  name ∉ map fst o -> record_values name o = [].
Proof.
  induction o as [|[k v] o IH]; intros Hno; [reflexivity|].
  rewrite values_cons. cbn in Hno. rewrite not_elem_of_cons in Hno.
  destruct Hno as [Hne Hno]. destruct (decide (k = name)); [congruence|auto].
Qed.

Lemma record_put_keys k v o :
  map fst (record_put k v o) =
    if decide (k ∈ map fst o) then map fst o else map fst o ++ [k].
Proof.
  induction o as [|[k' v'] o IH]; cbn.
  - destruct (decide (k ∈ [])) as [Hin|]; [inversion Hin|reflexivity].
  - rewrite eqb_decide. destruct (decide (k' = k)) as [->|Hne].
    + rewrite bool_decide_eq_true_2 by reflexivity. cbn.
      destruct (decide (k ∈ k :: map fst o)) as [|Hno]; [reflexivity|].
      exfalso. apply Hno. left.
    + rewrite bool_decide_eq_false_2 by assumption. cbn. rewrite IH.
      destruct (decide (k ∈ map fst o)) as [Hin|Hno].
      * destruct (decide (k ∈ k' :: map fst o)) as [|Hno']; [reflexivity|].
        exfalso. apply Hno'. now right.
      * destruct (decide (k ∈ k' :: map fst o)) as [Hin'|]; [|reflexivity].
        exfalso. apply elem_of_cons in Hin' as [->|Hin']; [now apply Hne|auto].
Qed.

Lemma record_put_NoDup k v o :
  NoDup (map fst o) -> NoDup (map fst (record_put k v o)).
Proof.
  intros Hnd. rewrite record_put_keys.
  destruct (decide (k ∈ map fst o)) as [|Hno]; [exact Hnd|].
  apply NoDup_app. split; [exact Hnd|]. split.
  - intros x Hx Hk. apply list_elem_of_singleton in Hk. subst x. auto.
  - apply NoDup_singleton.
Qed.

Lemma record_put_values name k v o :
  NoDup (map fst o) ->
  record_values name (record_put k v o) =
    if decide (name = k) then [v] else record_values name o.
Proof.
  induction o as [|[k' v'] o IH]; intros Hnd.
  - cbn [record_put]. rewrite values_cons, values_nil.
    destruct (decide (k = name)), (decide (name = k)); congruence.
  - cbn in Hnd. apply NoDup_cons in Hnd as [Hk' Hnd].
    cbn [record_put]. rewrite eqb_decide.
    destruct (decide (k' = k)) as [->|Hne].
    + rewrite bool_decide_eq_true_2 by reflexivity. rewrite !values_cons.
      destruct (decide (k = name)) as [->|Hkn].
      * rewrite decide_True by reflexivity. now rewrite values_absent.
      * rewrite decide_False by congruence. reflexivity.
    + rewrite bool_decide_eq_false_2 by assumption.
      rewrite !values_cons, IH by assumption.
      repeat case_decide; congruence.
Qed.

Lemma assign_all_NoDup calls : forall h,
  NoDup (map fst h) -> NoDup (map fst (assign_all h calls)).
Proof.
  induction calls as [|[k v] calls IH]; intros h Hnd; [exact Hnd|].
  unfold assign_all. cbn. apply IH. unfold record_assign.
  destruct (String.eqb k "__proto__"); [exact Hnd|now apply record_put_NoDup].
Qed.

(** After the calls, a name holds the value of the last call that set it. *)
Lemma assign_all_values name calls : forall h,
  name <> "__proto__" -> NoDup (map fst h) ->
  record_values name (assign_all h calls) =
    match last_captured name calls with
    | Some v => [v]
    | None => record_values name h
    end.
Proof.
  unfold last_captured.
  induction calls as [|[k v] calls IH]; intros h Hname Hnd; [reflexivity|].
  unfold assign_all. cbn [foldl fst snd]. fold (assign_all (record_assign k v h) calls).
  assert (Hnd' : NoDup (map fst (record_assign k v h))).
  { unfold record_assign.
    destruct (String.eqb k "__proto__"); [exact Hnd|now apply record_put_NoDup]. }
  rewrite (IH _ Hname Hnd'). rewrite filter_cons. cbn [fst].
  assert (Hhere : record_values name (record_assign k v h) =
                  if decide (k = name) then [v] else record_values name h).
  { unfold record_assign. rewrite eqb_decide.
    destruct (decide (k = "__proto__")) as [->|Hk].
    - rewrite bool_decide_eq_true_2 by reflexivity.
      rewrite decide_False by congruence. reflexivity.
    - rewrite bool_decide_eq_false_2 by assumption.
      rewrite record_put_values by assumption.
      destruct (decide (name = k)), (decide (k = name)); congruence. }
  rewrite Hhere.
  destruct (decide (k = name)) as [->|Hkn]; [|reflexivity].
  cbn [map snd]. rewrite last_cons.
  destruct (last (map snd (filter _ calls))); reflexivity.
Qed.

(** The names come in order of first capture. *)
Lemma assign_all_keys calls : forall h,
  map fst (assign_all h calls) =
    map fst h ++
    first_occurrences (map fst h)
      (filter (fun k => k <> "__proto__") (map fst calls)).
Proof.
  induction calls as [|[k v] calls IH]; intros h.
  - cbn. now rewrite app_nil_r.
  - unfold assign_all. cbn [foldl fst snd map].
    fold (assign_all (record_assign k v h) calls).
    rewrite IH, filter_cons. unfold record_assign. rewrite eqb_decide.
    destruct (decide (k = "__proto__")) as [->|Hk].
    + rewrite bool_decide_eq_true_2 by reflexivity.
      rewrite decide_False by (intros H; now apply H). reflexivity.
    + rewrite bool_decide_eq_false_2 by assumption.
      rewrite decide_True by assumption. cbn [first_occurrences].
      rewrite record_put_keys.
      destruct (decide (k ∈ map fst h)); [reflexivity|].
      now rewrite <- app_assoc.
Qed.

Lemma insert_indexed_elem x e l :
  x ∈ insert_indexed e l -> x = e \/ x ∈ l.
Proof.
  induction l as [|e' l IH]; cbn.
  - intros H. apply list_elem_of_singleton in H. auto.
  - destruct (fst e <=? fst e')%N.
    + intros H. apply elem_of_cons in H. exact H.
    + intros H. apply elem_of_cons in H as [->|H].
      * right. left.
      * destruct (IH H) as [->|Hl]; [auto|]. right. now right.
Qed.

Lemma insert_indexed_well e l :
  well_indexed (e :: l) -> well_indexed (insert_indexed e l).
Proof.
  unfold well_indexed. rewrite !Forall_forall. intros H x Hx.
  apply H. apply insert_indexed_elem in Hx as [->|Hx]; [left|now right].
Qed.

(** Inserting by index does not reorder entries of one name. *)
Lemma insert_indexed_values name e l :
  well_indexed (e :: l) ->
  record_values name (map snd (insert_indexed e l)) =
    record_values name (map snd (e :: l)).
Proof.
  induction l as [|e' l IH]; intros Hwell; [reflexivity|].
  cbn [insert_indexed]. destruct (fst e <=? fst e')%N eqn:Hle; [reflexivity|].
  apply Forall_cons in Hwell as [He Hwell].
  pose proof Hwell as Hwell'. apply Forall_cons in Hwell' as [He' Hl].
  cbn [map]. destruct e as [n [k v]], e' as [n' [k' v']]. cbn [fst snd] in *.
  rewrite values_cons, IH by (constructor; assumption).
  cbn [map snd]. rewrite !values_cons.
  destruct (decide (k' = name)) as [->|]; [|reflexivity].
  destruct (decide (k = name)) as [->|]; [|reflexivity].
  exfalso. rewrite He in He'. inversion He'; subst n'.
  apply N.leb_gt in Hle. lia.
Qed.

Lemma indexed_entries_well o : well_indexed (indexed_entries o).
Proof.
  unfold indexed_entries.
  induction o as [|[k v] o IH]; cbn; [constructor|].
  destruct (array_index k) as [n|] eqn:Hk; cbn; [|exact IH].
  apply insert_indexed_well. constructor; [exact Hk|exact IH].
Qed.

Lemma indexed_entries_values name o :
  record_values name (map snd (indexed_entries o)) =
    match array_index name with
    | Some _ => record_values name o
    | None => []
    end.
Proof.
  unfold indexed_entries.
  induction o as [|[k v] o IH]; cbn [omap list_omap foldr fst].
  - destruct (array_index name); reflexivity.
  - rewrite values_cons.
    destruct (array_index k) as [n|] eqn:Hk; cbn [foldr].
    + rewrite insert_indexed_values.
      * cbn [map snd]. rewrite values_cons, IH.
        destruct (decide (k = name)) as [->|]; [now rewrite Hk|reflexivity].
      * constructor; [exact Hk|apply indexed_entries_well].
    + rewrite IH. destruct (decide (k = name)) as [->|]; [|reflexivity].
      now rewrite Hk.
Qed.

Lemma named_entries_values name o :
  record_values name (named_entries o) =
    match array_index name with
    | Some _ => []
    | None => record_values name o
    end.
Proof.
  unfold named_entries.
  induction o as [|[k v] o IH].
  - cbn. destruct (array_index name); reflexivity.
  - rewrite filter_cons, values_cons. cbn [fst].
    destruct (decide (array_index k = None)) as [Hk|Hk].
    + rewrite values_cons, IH.
      destruct (decide (k = name)) as [->|]; [now rewrite Hk|reflexivity].
    + rewrite IH. destruct (decide (k = name)) as [->|]; [|reflexivity].
      destruct (array_index name); [reflexivity|congruence].
Qed.

(** [Object.entries] keeps the values of every name. *)
Lemma Object_entries_values name o :
  record_values name (Object_entries o) = record_values name o.
Proof.
  unfold Object_entries.
  rewrite values_app, indexed_entries_values, named_entries_values.
  destruct (array_index name); [apply app_nil_r|reflexivity].
Qed.

Lemma named_entries_idemp o : named_entries (named_entries o) = named_entries o.
Proof.
  unfold named_entries. induction o as [|[k v] o IH]; [reflexivity|].
  rewrite filter_cons. cbn [fst]. case_decide as Hk; [|exact IH].
  rewrite filter_cons. cbn [fst]. rewrite decide_True by exact Hk.
  now rewrite IH.
Qed.

(** The entries that are not array indices keep their order. *)
Lemma Object_entries_named o :
  named_entries (Object_entries o) = named_entries o.
Proof.
  unfold Object_entries, named_entries at 1. rewrite filter_app.
  fold (named_entries (named_entries o)). rewrite named_entries_idemp.
  assert (Hnone : filter (fun kv : string * string => array_index (fst kv) = None)
                         (map snd (indexed_entries o)) = []).
  { pose proof (indexed_entries_well o) as Hwell.
    induction Hwell as [|[n [k v]] l He Hl IH]; [reflexivity|].
    cbn [map snd]. rewrite filter_cons. cbn [fst snd] in *.
    rewrite decide_False by congruence. exact IH. }
  now rewrite Hnone.
Qed.

Lemma named_entries_keys o :
  map fst (named_entries o) =
    filter (fun k => array_index k = None) (map fst o).
Proof.
  unfold named_entries. induction o as [|[k v] o IH]; [reflexivity|].
  cbn [map fst]. rewrite !filter_cons. cbn [fst].
  case_decide; cbn [map fst]; now rewrite IH.
Qed.

Lemma setRequestHeader_run name value w h :
  headers (patch w) = Some h ->
  setRequestHeader name value w =
    (Normal tt,
     with_nativeCalls (nativeCalls w ++ [NativeSetRequestHeader name value])
       (with_patch (set_headers (Some (record_assign name value h)) (patch w))
          w)).
Proof.
  intros Hh. unfold setRequestHeader. unfold bind at 1, read at 1.
  rewrite Hh. reflexivity.
Qed.

Lemma open_run m u rest w :
  open m u rest w =
    (Normal tt,
     with_nativeCalls (nativeCalls w ++ [NativeOpen m u rest])
       (with_patch
          (set_headers (Some [])
             (set_url (Some u)
                (set_method (Some m)
                   (set_abortController (controllers w) (patch w)))))
          (with_controllers (S (controllers w))
             (with_aborted (abortController (patch w) :: aborted w)
                (with_logs
                   (logs w ++
                    [Log ("XMLHttpRequest open called with method: " +:+ m +:+
                          ", url: " +:+ u)]) w))))).
Proof. reflexivity. Qed.

Lemma setRequestHeaders_run calls : forall w h,
  headers (patch w) = Some h ->
  exists w',
    setRequestHeaders calls w = (Normal tt, w') /\
    headers (patch w') = Some (assign_all h calls) /\
    url (patch w') = url (patch w) /\
    method (patch w') = method (patch w).
Proof.
  induction calls as [|[name value] calls IH]; intros w h Hh.
  - exists w. auto.
  - cbn [setRequestHeaders].
    rewrite (bind_normal _ _ _ _ _ (setRequestHeader_run name value w h Hh)).
    match goal with
    | |- context [setRequestHeaders calls ?w1] =>
        destruct (IH w1 (record_assign name value h) eq_refl)
          as (w' & Hrun & Hhs & Hurl & Hmethod)
    end.
    exists w'. rewrite Hrun. auto.
Qed.

(** *** Trimming *)

Lemma trim_start_clean P s :
  match trim_start P s with
  | String c _ => P c = false
  | EmptyString => True
  end.
Proof.
  induction s as [|c s IH]; cbn [trim_start]; [exact I|].
  destruct (P c) eqn:Hc; [exact IH|exact Hc].
Qed.

Lemma trim_end_head P c s :
  P c = false -> exists t, trim_end P (String c s) = String c t.
Proof.
  intros Hc. cbn [trim_end]. rewrite Hc.
  destruct (trim_end P s); eauto.
Qed.

Lemma trim_end_twice (P Q : ascii -> bool) s :
  (forall c, Q c = true -> P c = true) ->
  trim_end Q (trim_end P s) = trim_end P s.
Proof.
  intros Hsub. induction s as [|c s IH]; [reflexivity|].
  cbn [trim_end]. destruct (trim_end P s) as [|d t] eqn:Ht.
  - destruct (P c) eqn:Hc; [reflexivity|].
    cbn [trim_end]. destruct (Q c) eqn:Hq; [|reflexivity].
    apply Hsub in Hq. congruence.
  - cbn [trim_end] in *. now rewrite IH.
Qed.

(** Trimming what was trimmed of more changes nothing. *)
Lemma trim_twice (P Q : ascii -> bool) s :
  (forall c, Q c = true -> P c = true) ->
  trim Q (trim P s) = trim P s.
Proof.
  intros Hsub. unfold trim.
  assert (Hstart : trim_start Q (trim_end P (trim_start P s)) =
                   trim_end P (trim_start P s)).
  { pose proof (trim_start_clean P s) as Hclean.
    destruct (trim_start P s) as [|c t]; [reflexivity|].
    destruct (trim_end_head P c t Hclean) as [t' ->].
    cbn [trim_start]. destruct (Q c) eqn:Hq; [|reflexivity].
    apply Hsub in Hq. congruence. }
  rewrite Hstart. now apply trim_end_twice.
Qed.

Lemma normalize_value_idem v :
  normalize_value (normalize_value v) = normalize_value v.
Proof. apply trim_twice. auto. Qed.

(** *** Names up to case *)

Lemma is_tchar_lower c : is_tchar (ascii_lower c) = is_tchar c.
Proof.
  destruct c as [b0 b1 b2 b3 b4 b5 b6 b7];
    destruct b0, b1, b2, b3, b4, b5, b6, b7; reflexivity.
Qed.

Lemma is_token_lower s : is_token (string_lower s) = is_token s.
Proof.
  unfold is_token. f_equal.
  - now destruct s.
  - induction s as [|c s IH]; [reflexivity|].
    cbn [string_lower string_forall]. now rewrite is_tchar_lower, IH.
Qed.

Lemma is_token_same a b :
  string_lower a = string_lower b -> is_token a = is_token b.
Proof.
  intros H. now rewrite <- (is_token_lower a), <- (is_token_lower b), H.
Qed.

Lemma forbidden_request_header_same a b v :
  string_lower a = string_lower b ->
  forbidden_request_header a v = forbidden_request_header b v.
Proof. intros H. unfold forbidden_request_header. now rewrite H. Qed.

Lemma first_spelling_lower name h :
  string_lower (first_spelling name h) = string_lower name.
Proof.
  unfold first_spelling.
  destruct (filter _ h) as [|kv l] eqn:Hf; [reflexivity|].
  assert (Hin : kv ∈ filter (fun kv => string_lower (fst kv) =
                                       string_lower name) h)
    by (rewrite Hf; apply list_elem_of_here).
  apply list_elem_of_filter in Hin as [Hkv _]. exact Hkv.
Qed.

Lemma same_header_valid kv out :
  same_header kv out -> valid_header out = valid_header kv.
Proof.
  intros [Hn Hv]. unfold valid_header.
  now rewrite (is_token_same _ _ Hn), Hv, normalize_value_idem.
Qed.

Lemma same_header_kept guard kv out :
  same_header kv out -> kept guard out = kept guard kv.
Proof.
  intros [Hn Hv]. destruct guard; [reflexivity|].
  unfold kept, allowed_header.
  now rewrite (forbidden_request_header_same _ _ _ Hn), Hv,
    normalize_value_idem.
Qed.

Lemma same_header_trans a b c :
  same_header a b -> same_header b c -> same_header a c.
Proof.
  intros [Hn1 Hv1] [Hn2 Hv2]. split; [congruence|].
  now rewrite Hv2, Hv1, normalize_value_idem.
Qed.

Lemma same_header_normalized kv : same_header kv (normalized_header kv).
Proof. split; reflexivity. Qed.

(** *** The appends *)

Lemma Headers_append_all_run guard : forall entries h,
  if forallb valid_header entries then
    exists added,
      Headers_append_all guard entries h = Normal (h ++ added) /\
      Forall2 same_header
        (filter (fun kv => kept guard kv = true) entries) added
  else Headers_append_all guard entries h = Throw TypeError.
Proof.
  induction entries as [|kv entries IH]; intros h.
  - exists []. rewrite app_nil_r. split; [reflexivity|constructor].
  - cbn [forallb Headers_append_all]. unfold Headers_append.
    fold (valid_header kv). destruct (valid_header kv); [|reflexivity].
    cbn [negb andb]. rewrite filter_cons.
    destruct guard; cbn [kept].
    + specialize (IH (h ++ [(first_spelling (fst kv) h,
                             normalize_value (snd kv))])).
      destruct (forallb valid_header entries); [|exact IH].
      destruct IH as (added & Hrun & Hall).
      rewrite decide_True by reflexivity.
      eexists (_ :: added). rewrite Hrun, <- app_assoc.
      split; [reflexivity|]. constructor; [|exact Hall].
      split; [apply first_spelling_lower|reflexivity].
    + assert (Hf : forbidden_request_header (fst kv)
                     (normalize_value (snd kv)) = negb (allowed_header kv))
        by (unfold allowed_header; now rewrite negb_involutive).
      rewrite Hf. destruct (allowed_header kv); cbn [negb].
      * specialize (IH (h ++ [(first_spelling (fst kv) h,
                               normalize_value (snd kv))])).
        destruct (forallb valid_header entries); [|exact IH].
        destruct IH as (added & Hrun & Hall).
        rewrite decide_True by reflexivity.
        eexists (_ :: added). rewrite Hrun, <- app_assoc.
        split; [reflexivity|]. constructor; [|exact Hall].
        split; [apply first_spelling_lower|reflexivity].
      * specialize (IH h).
        destruct (forallb valid_header entries); [|exact IH].
        destruct IH as (added & Hrun & Hall).
        rewrite decide_False by discriminate. eauto.
Qed.

Lemma Forall2_same_header_valid l l' :
  Forall2 same_header l l' ->
  forallb valid_header l' = forallb valid_header l.
Proof.
  induction 1 as [|kv out l l' H _ IH]; [reflexivity|].
  cbn [forallb]. now rewrite (same_header_valid _ _ H), IH.
Qed.

Lemma Forall2_same_header_kept guard l l' :
  Forall2 same_header l l' ->
  Forall2 same_header (filter (fun kv => kept guard kv = true) l)
                      (filter (fun kv => kept guard kv = true) l').
Proof.
  induction 1 as [|kv out l l' H _ IH]; [constructor|].
  rewrite !filter_cons, (same_header_kept guard _ _ H).
  case_decide; [constructor; assumption|exact IH].
Qed.

Lemma Forall2_same_header_trans l1 : forall l2 l3,
  Forall2 same_header l1 l2 -> Forall2 same_header l2 l3 ->
  Forall2 same_header l1 l3.
Proof.
  induction l1 as [|a l1 IH]; intros l2 l3 H12 H23.
  - inversion H12; subst. inversion H23; subst. constructor.
  - inversion H12 as [|? b ? l2' Hab H12']; subst.
    inversion H23 as [|? c ? l3' Hbc H23']; subst.
    constructor; [eapply same_header_trans; eassumption|eauto].
Qed.

Lemma Forall2_same_header_values name l l' :
  Forall2 same_header l l' ->
  Headers_values name l' = Headers_values name (map normalized_header l).
Proof.
  unfold Headers_values.
  induction 1 as [|kv out l l' [Hn Hv] _ IH]; [reflexivity|].
  cbn [map]. rewrite !filter_cons. cbn [normalized_header fst snd].
  rewrite Hn. case_decide; cbn [map snd]; now rewrite IH, ?Hv.
Qed.

Lemma filter_all {A} (l : list A) :
  filter (fun _ => true = true) l = l.
Proof.
  induction l as [|x l IH]; [reflexivity|].
  rewrite filter_cons, decide_True by reflexivity. now rewrite IH.
Qed.

(** The header list of the request: the appends of [xhrToRequest] followed
    by the filling of the request's own list. *)
Lemma request_headers_run entries :
  if forallb valid_header entries then
    exists hs request_hs,
      Headers_append_all GuardNone entries [] = Normal hs /\
      Headers_append_all GuardRequest hs [] = Normal request_hs /\
      forall name,
        Headers_values name request_hs =
          Headers_values name
            (map normalized_header
                 (filter (fun kv => allowed_header kv = true) entries))
  else Headers_append_all GuardNone entries [] = Throw TypeError.
Proof.
  pose proof (Headers_append_all_run GuardNone entries []) as H1.
  destruct (forallb valid_header entries) eqn:Hvalid; [|exact H1].
  destruct H1 as (hs & Hrun1 & Hall1). cbn [app kept] in Hrun1, Hall1.
  rewrite filter_all in Hall1.
  pose proof (Headers_append_all_run GuardRequest hs []) as H2.
  rewrite (Forall2_same_header_valid _ _ Hall1), Hvalid in H2.
  destruct H2 as (request_hs & Hrun2 & Hall2). cbn [app kept] in Hrun2, Hall2.
  exists hs, request_hs. split; [exact Hrun1|]. split; [exact Hrun2|].
  intros name. apply Forall2_same_header_values.
  eapply Forall2_same_header_trans; [|exact Hall2].
  apply (Forall2_same_header_kept GuardRequest _ _ Hall1).
Qed.

Section Translation.

Variable location_origin : string.
Variable URL_new : string -> string -> Completion string.

Local Abbreviation xhrToRequest' := (xhrToRequest location_origin URL_new).

(** C1, as amended.  After [open] and any sequence of [setRequestHeader]
    calls the side record holds, for every spelling of a name other than
    [__proto__], the value of the last call that used that spelling, and
    nothing under [__proto__]; a repeated spelling is overwritten.  The
    entries are listed with the array-index spellings first and the others
    in order of first call.  When the URL resolves, building the request
    throws a [TypeError] if some entry has a name that is no token or a
    value that, normalized, is no header value, if the URL includes
    credentials, or if the method is no token or is forbidden.  Otherwise
    the request has the resolved URL, the normalized method and no body,
    and holds under every name, compared without regard to case, the
    normalized values of the entries with that name that are not forbidden
    request headers, in the order of the entries. *)
Theorem xhrToRequest_keeps_last_value (w : World) (m u : string)
    (rest : list JsArg) (calls : list (string * string)) (href : string) :
  URL_new u location_origin = Normal href ->
  let captured := snd ((open m u rest;; setRequestHeaders calls) w) in
  exists entries,
    Object_entries <$> headers (patch captured) = Some entries /\
    (forall name, name <> "__proto__" ->
       record_values name entries = option_list (last_captured name calls)) /\
    record_values "__proto__" entries = [] /\
    map fst (named_entries entries) =
      filter (fun k => array_index k = None)
        (first_occurrences []
           (filter (fun k => k <> "__proto__") (map fst calls))) /\
    if forallb valid_header entries && negb (includes_credentials href) &&
       method_ok m
    then
      exists request,
        xhrToRequest' (patch captured) None = Normal request /\
        Request.url request = href /\
        Request.method request = Some (normalize_method m) /\
        Request.body request = None /\
        forall name,
          Headers_values name (Request.headers request) =
            Headers_values name
              (map normalized_header
                   (filter (fun kv => allowed_header kv = true) entries))
    else xhrToRequest' (patch captured) None = Throw TypeError.
Proof.
  intros Hurl captured. subst captured.
  rewrite (bind_normal _ _ _ _ _ (open_run m u rest w)).
  match goal with
  | |- context [setRequestHeaders calls ?w1] =>
      destruct (setRequestHeaders_run calls w1 [] eq_refl)
        as (w' & Hrun & Hhs & Hu & Hm); rewrite Hrun
  end.
  cbn [snd]. cbn in Hu, Hm.
  exists (Object_entries (assign_all [] calls)).
  split; [now rewrite Hhs|]. split; [|split; [|split]].
  - intros name Hname. rewrite Object_entries_values.
    rewrite (assign_all_values name calls [] Hname) by constructor.
    destruct (last_captured name calls); reflexivity.
  - rewrite Object_entries_values. apply values_absent.
    rewrite assign_all_keys. cbn [map app].
    generalize (@nil string).
    induction (map fst calls) as [|k ks IH]; intros seen Hin.
    + inversion Hin.
    + rewrite filter_cons in Hin. case_decide as Hk.
      * cbn [first_occurrences] in Hin. case_decide.
        -- now apply IH in Hin.
        -- apply elem_of_cons in Hin as [Heq|Hin]; [congruence|].
           now apply IH in Hin.
      * now apply IH in Hin.
  - rewrite Object_entries_named, named_entries_keys, assign_all_keys.
    reflexivity.
  - unfold xhrToRequest. rewrite Hu, Hurl, Hhs, Hm.
    pose proof (request_headers_run (Object_entries (assign_all [] calls)))
      as Hheaders.
    destruct (forallb valid_header _); cbn [andb];
      [|now rewrite Hheaders].
    destruct Hheaders as (hs & request_hs & Hrun1 & Hrun2 & Hvalues).
    rewrite Hrun1. unfold Request_new, Request_method, method_ok.
    destruct (includes_credentials href); cbn [negb andb]; [reflexivity|].
    destruct (is_token m && negb (forbidden_method m)); [|reflexivity].
    rewrite Hrun2. eexists. split; [reflexivity|]. auto.
Qed.

End Translation.

Lemma xhrToRequest_keeps_last_value_witness :
  let calls := [("Accept", "text/html"); ("X-Test", " 1 ");
                ("Accept", "application/json"); ("accept", "*/*");
                ("Date", "today")] in
  let captured :=
    snd ((open "get" "/a" [];; setRequestHeaders calls) initial_world) in
  Demo.URL_new "/a" Demo.location_origin = Normal "https://example.com/a" /\
  exists request,
    Demo.xhrToRequest (patch captured) None = Normal request /\
    Request.method request = Some "GET" /\
    Headers_values "Accept" (Request.headers request) =
      ["application/json"; "*/*"] /\
    Headers_values "x-test" (Request.headers request) = ["1"] /\
    Headers_values "Date" (Request.headers request) = [].
Proof.
  intros calls captured.
  assert (H : Demo.URL_new "/a" Demo.location_origin =
              Normal "https://example.com/a") by reflexivity.
  split; [exact H|].
  destruct (xhrToRequest_keeps_last_value Demo.location_origin Demo.URL_new
              initial_world "get" "/a" [] calls _ H)
    as (entries & Hentries & _ & _ & _ & Hreq).
  assert (He : entries =
               [("Accept", "application/json"); ("X-Test", " 1 ");
                ("accept", "*/*"); ("Date", "today")])
    by (vm_compute in Hentries; now injection Hentries as <-).
  subst entries.
  assert (Hok : forallb valid_header
                  [("Accept", "application/json"); ("X-Test", " 1 ");
                   ("accept", "*/*"); ("Date", "today")] &&
                negb (includes_credentials "https://example.com/a") &&
                method_ok "get" = true) by (vm_compute; reflexivity).
  rewrite Hok in Hreq.
  destruct Hreq as (request & Hreq & _ & Hmethod & _ & Hvalues).
  exists request. split; [exact Hreq|]. split; [exact Hmethod|].
  rewrite !Hvalues. repeat split; vm_compute; reflexivity.
Defined.

(** A captured name that is no token: the request cannot be built, and
    [send] throws before any hook is called. *)
Lemma invalid_header_name_throws :
  let captured :=
    snd ((open "GET" "/a" [];; setRequestHeaders [("bad name", "x")])
           selective_world) in
  Demo.xhrToRequest (patch captured) None = Throw TypeError /\
  Demo.send None captured = (Throw TypeError, captured).
Proof. vm_compute. split; reflexivity. Qed.

(** C1 as stated fails: a name set twice reaches the hooks once, with the
    second value only. *)
Lemma repeated_header_keeps_one_value :
  let calls := [("Accept", "text/html"); ("Accept", "application/json")] in
  let captured :=
    snd ((open "GET" "/a" [];; setRequestHeaders calls) initial_world) in
  exists request,
    Demo.xhrToRequest (patch captured) None = Normal request /\
    Request.headers request = [("Accept", "application/json")] /\
    (("Accept", "text/html") ∉ Request.headers request) /\
    Request.headers request <> calls.
Proof.
  intros calls captured. eexists. split; [vm_compute; reflexivity|].
  split; [reflexivity|]. split.
  - intros Hin. apply list_elem_of_singleton in Hin. discriminate.
  - discriminate.
Qed.

(** ** Reading the response *)

Section Reading.

Variable TextDecoder_decode : list Byte.byte -> Completion string.
Variables JSONValue Document : Type.
Variable JSON_parse : string -> Completion JSONValue.
Variable DOMParser_parseFromString : string -> Completion Document.

Local Abbreviation response_getter' :=
  (response_getter TextDecoder_decode JSONValue Document JSON_parse
                   DOMParser_parseFromString).
Local Abbreviation RDocument' := (RDocument JSONValue Document).
Local Abbreviation RJson' := (RJson JSONValue Document).
Local Abbreviation RNull' := (RNull JSONValue Document).

(** Once a hooked response has published a buffer, reading the response
    value always returns and never throws.  With the declared
    type [document] the value is the document the XML parser returns for
    the decoded text, whatever that document is, and null exactly when the
    decoder or the parser throws; with [json] it is the parsed value, and
    null when the decoder or the parser throws; with a declared type that
    is none of the six known ones it is null. *)
Theorem response_read_never_throws (w : World) (buffer : Uint8Array)
    (getOriginal : Completion (ResponseValue JSONValue Document)) :
  responseBuffer (patch w) = Some buffer ->
  let bytes := view_bytes (heap w) buffer in
  exists value,
    response_getter' w getOriginal = Normal value /\
    (responseType w = "document" ->
     value = match TextDecoder_decode bytes with
             | Normal text =>
                 match DOMParser_parseFromString text with
                 | Normal d => RDocument' d
                 | Throw _ => RNull'
                 end
             | Throw _ => RNull'
             end) /\
    (responseType w = "json" ->
     value = match TextDecoder_decode bytes with
             | Normal text =>
                 match JSON_parse text with
                 | Normal v => RJson' v
                 | Throw _ => RNull'
                 end
             | Throw _ => RNull'
             end) /\
    (responseType w ∉
       [EmptyString; "text"; "arraybuffer"; "blob"; "document"; "json"] ->
     value = RNull').
Proof.
  intros Hbuf bytes. unfold response_getter. rewrite Hbuf. fold bytes.
  destruct (materialize TextDecoder_decode JSONValue Document JSON_parse
              DOMParser_parseFromString (responseType w) bytes)
    as [v|e] eqn:Hm; eexists; (split; [reflexivity|]);
    unfold materialize in Hm; repeat split; intros Htype.
  all: try (rewrite Htype in Hm;
            repeat (rewrite decide_False in Hm
                      by first [discriminate|intros [?|?]; discriminate]);
            rewrite decide_True in Hm by reflexivity;
            destruct (TextDecoder_decode bytes) as [text|];
            [|congruence];
            destruct (DOMParser_parseFromString text), (JSON_parse text);
            congruence).
  all: rewrite !not_elem_of_cons in Htype;
       destruct Htype as (H1 & H2 & H3 & H4 & H5 & H6 & _);
       repeat (rewrite decide_False in Hm
                 by first [assumption|intros [?|?]; contradiction]);
       congruence.
Qed.

End Reading.

Lemma response_read_never_throws_witness :
  let w := malformed_document_world in
  let buffer := {| buffer := 0; byteOffset := 0; byteLength := 4 |} in
  responseBuffer (patch w) = Some buffer /\
  exists value,
    Demo.response_getter w (Throw TypeError) = Normal value /\
    (responseType w = "document" ->
     value = RDocument N Demo.Document Demo.ParserErrorDocument).
Proof.
  intros w buffer.
  assert (H : responseBuffer (patch w) = Some buffer) by reflexivity.
  split; [exact H|].
  destruct (response_read_never_throws Demo.TextDecoder_decode N Demo.Document
              Demo.JSON_parse Demo.DOMParser_parseFromString
              w buffer (Throw TypeError) H) as (value & Hv & Hdoc & _).
  exists value. split; [exact Hv|exact Hdoc].
Defined.

(** C7.  A hooked response whose body is the text "oops", read with the
    declared type [document]: the XML parser reports the malformed input by
    returning an error document and does not throw, so the getter, which
    turns only exceptions into null, gives that document where the claim
    (and the handling of a [json] parse failure next to it) has null. *)
Lemma malformed_document_is_not_null :
  let w := malformed_document_world in
  view_bytes (heap w) <$> responseBuffer (patch w) = Some (ascii_bytes "oops") /\
  responseType w = "document" /\
  Demo.DOMParser_parseFromString "oops" = Normal Demo.ParserErrorDocument /\
  Demo.response_getter w (Normal (ROriginal N Demo.Document)) =
    Normal (RDocument N Demo.Document Demo.ParserErrorDocument) /\
  Demo.response_getter w (Normal (ROriginal N Demo.Document)) <>
    Normal (RNull N Demo.Document).
Proof.
  vm_compute. repeat split. discriminate.
Qed.

(** ** The body buffer *)

(** C2.  A response that declares two bytes and delivers four in the chunks
    "ab", "c" and "d" makes the buffer grow twice.  The second growth
    copies the first buffer again, not the one holding "c": the request
    completes with load, and the published bytes are "ab", a zero byte and
    "d" where the body was "abcd". *)
Theorem second_growth_loses_bytes :
  let response :=
    chunked_response "2" [ascii_bytes "ab"; ascii_bytes "c"; ascii_bytes "d"] in
  let w :=
    Demo.exec (startXhrWithResponseCallback (fun _ => Fulfilled response))
              initial_world in
  body_bytes response = ascii_bytes "abcd" /\
  events w =
    [Ev "readystatechange"; Ev "loadstart";
     Ev "readystatechange"; ProgressEvent "progress" 2;
     Ev "readystatechange"; ProgressEvent "progress" 3;
     Ev "readystatechange"; ProgressEvent "progress" 4;
     Ev "load"; Ev "readystatechange"; Ev "loadend"] /\
  view_bytes (heap w) <$> responseBuffer (patch w) =
    Some (ascii_bytes "ab" ++ [Byte.x00] ++ ascii_bytes "d") /\
  view_bytes (heap w) <$> responseBufferInternal (patch w) =
    Some (ascii_bytes "ab" ++ [Byte.x00] ++ ascii_bytes "d") /\
  view_bytes (heap w) <$> responseBuffer (patch w) <>
    Some (body_bytes response).
Proof.
  vm_compute. repeat split. discriminate.
Qed.

(** The same defect can end a request: with a declared length of zero the
    third four-byte chunk no longer fits the buffer allocated for it, the
    write throws and the request ends in the error path. *)
Lemma third_growth_overflows :
  let response :=
    chunked_response "0"
      [ascii_bytes "abcd"; ascii_bytes "efgh"; ascii_bytes "ijkl"] in
  let w :=
    Demo.exec (startXhrWithResponseCallback (fun _ => Fulfilled response))
              initial_world in
  events w =
    [Ev "readystatechange"; Ev "loadstart";
     Ev "readystatechange"; ProgressEvent "progress" 4;
     Ev "readystatechange"; ProgressEvent "progress" 8;
     Ev "error"; Ev "readystatechange"] /\
  last (logs w) = Some (LogError "XMLHttpRequest failed to start:" RangeError).
Proof.
  vm_compute. split; reflexivity.
Qed.

(** C8.  A response that declares four bytes and delivers "Hi" first: when
    the progress event for that chunk is dispatched, the published buffer
    is the two bytes received, yet the text view decodes the whole internal
    buffer, the two unwritten zero bytes included, whereas the response
    value read as text decodes the published buffer only. *)
Theorem responseText_reads_spare_capacity :
  let response := chunked_response "4" [ascii_bytes "Hi"; ascii_bytes "ya"] in
  let w :=
    Demo.exec (startXhrWithResponseCallback (fun _ => Fulfilled response))
              initial_world in
  match dispatched w !! 3 with
  | Some d =>
      event d = ProgressEvent "progress" 2 /\
      view_bytes (seen_heap d) <$> responseBuffer (seen_patch d) =
        Some (ascii_bytes "Hi") /\
      (forall decode getOriginal,
         responseText_getter decode (seen_world d w) getOriginal =
           decode (ascii_bytes "Hi" ++ [Byte.x00; Byte.x00])) /\
      (forall decode J D parse_json parse_xml getOriginal,
         response_getter decode J D parse_json parse_xml (seen_world d w)
                         getOriginal =
           match decode (ascii_bytes "Hi") with
           | Normal text => Normal (RText J D text)
           | Throw _ => Normal (RNull J D)
           end)
  | None => False
  end.
Proof.
  vm_compute. repeat split.
  intros decode J D parse_json parse_xml getOriginal.
  destruct (decode _); reflexivity.
Qed.

(** A request object used again keeps the buffer published by the earlier
    response, while the completion of a response without chunks trims the
    internal buffer to nothing: the published buffer is then the longer of
    the two. *)
Lemma stale_buffer_outlives_trim :
  byteLength <$> responseBuffer (patch reused_world) = Some 20 /\
  byteLength <$> responseBufferInternal (patch reused_world) = Some 0 /\
  readyState (patch reused_world) = Some 4.
Proof.
  vm_compute. repeat split.
Qed.

(** ** More on the registry *)

Lemma Map_has_names name m : Map_has name m = true <-> name ∈ map fst m.
Proof.
  unfold Map_has. rewrite bool_decide_eq_true.
  induction m as [|[k v] m IH]; cbn.
  - split; [intros [x Hx]; discriminate|intros H; inversion H].
  - rewrite eqb_decide. destruct (decide (k = name)) as [->|Hne].
    + rewrite bool_decide_eq_true_2 by reflexivity.
      split; [intros _; left|eauto].
    + rewrite bool_decide_eq_false_2 by assumption. rewrite IH.
      rewrite elem_of_cons. split; [auto|].
      intros [Heq|Hin]; [congruence|exact Hin].
Qed.

Lemma Map_has_false_names name m :
  Map_has name m = false <-> name ∉ map fst m.
Proof.
  rewrite <- Map_has_names. destruct (Map_has name m); split; congruence.
Qed.

Lemma Map_get_set_eq name hook m : Map_get name (Map_set name hook m) = Some hook.
Proof.
  induction m as [|[k v] m IH]; cbn.
  - now rewrite String.eqb_refl.
  - destruct (String.eqb k name) eqn:Hk; cbn; rewrite Hk; [reflexivity|exact IH].
Qed.

Lemma Map_get_set_ne name other hook m :
  other <> name -> Map_get other (Map_set name hook m) = Map_get other m.
Proof.
  intros Hne. induction m as [|[k v] m IH]; cbn.
  - rewrite eqb_decide, bool_decide_eq_false_2 by congruence. reflexivity.
  - destruct (String.eqb k name) eqn:Hk; cbn.
    + apply String.eqb_eq in Hk. subst k.
      now rewrite eqb_decide, bool_decide_eq_false_2 by congruence.
    + now rewrite IH.
Qed.

Lemma Map_set_NoDup name hook m :
  NoDup (map fst m) -> NoDup (map fst (Map_set name hook m)).
Proof.
  intros Hnd. destruct (Map_has name m) eqn:Hhas.
  - now rewrite Map_set_names.
  - rewrite Map_set_fresh by assumption. rewrite map_app. cbn.
    apply NoDup_app. split; [exact Hnd|]. split; [|apply NoDup_singleton].
    intros x Hx Hin. apply list_elem_of_singleton in Hin. subst x.
    now apply Map_has_false_names in Hhas.
Qed.

Lemma Map_delete_names name m :
  NoDup (map fst m) ->
  map fst (Map_delete name m) = filter (fun n => n <> name) (map fst m).
Proof.
  induction m as [|[k v] m IH]; intros Hnd; [reflexivity|].
  cbn in Hnd. apply NoDup_cons in Hnd as [Hk Hnd].
  cbn [Map_delete map fst]. rewrite filter_cons, eqb_decide.
  destruct (decide (k = name)) as [->|Hne].
  - rewrite bool_decide_eq_true_2 by reflexivity.
    rewrite decide_False by (intros H; now apply H).
    clear IH Hnd. induction m as [|[k' v'] m IH]; [reflexivity|].
    cbn in Hk. apply not_elem_of_cons in Hk as [Hne Hk].
    cbn [map fst]. rewrite filter_cons, decide_True by congruence.
    f_equal. now apply IH.
  - rewrite bool_decide_eq_false_2 by assumption.
    rewrite decide_True by assumption. cbn [map fst]. f_equal. now apply IH.
Qed.

Lemma Map_delete_NoDup name m :
  NoDup (map fst m) -> NoDup (map fst (Map_delete name m)).
Proof.
  intros Hnd. rewrite Map_delete_names by assumption. now apply NoDup_filter.
Qed.

Lemma Map_get_None_names name m : Map_get name m = None <-> name ∉ map fst m.
Proof.
  rewrite <- Map_has_false_names. unfold Map_has.
  rewrite bool_decide_eq_false. apply eq_None_not_Some.
Qed.

Lemma Map_get_delete_eq name m :
  NoDup (map fst m) -> Map_get name (Map_delete name m) = None.
Proof.
  intros Hnd. apply Map_get_None_names. rewrite Map_delete_names by assumption.
  rewrite list_elem_of_filter. intros [Hne _]. now apply Hne.
Qed.

Lemma Map_get_delete_ne name other m :
  other <> name -> Map_get other (Map_delete name m) = Map_get other m.
Proof.
  intros Hne. induction m as [|[k v] m IH]; [reflexivity|].
  cbn. destruct (String.eqb k name) eqn:Hk.
  - apply String.eqb_eq in Hk. subst k.
    now rewrite eqb_decide, bool_decide_eq_false_2 by congruence.
  - cbn. now rewrite IH.
Qed.

Lemma Map_delete_set_fresh name hook m :
  Map_has name m = false -> Map_delete name (Map_set name hook m) = m.
Proof.
  unfold Map_has. rewrite bool_decide_eq_false.
  induction m as [|[k v] m IH]; cbn; intros Hno.
  - now rewrite String.eqb_refl.
  - destruct (String.eqb k name) eqn:Hk; [exfalso; eauto|].
    cbn. rewrite Hk. f_equal. now apply IH.
Qed.

Lemma patchGetter_hooks h prop :
  preserves (fun w => hooks w = h) (patchGetter prop).
Proof.
  unfold patchGetter. apply preserves_bind; [apply preserves_read|].
  intros obj. destruct (getOwnProperty prop obj) as [[?|?|?|]|];
    preserve_steps; assumption.
Qed.

Lemma patchMethod_hooks h prop :
  preserves (fun w => hooks w = h) (patchMethod prop).
Proof.
  unfold patchMethod. apply preserves_bind; [apply preserves_read|].
  intros obj. apply preserves_bind; [apply preserves_lift|].
  intros [f|]; [|apply preserves_throw].
  destruct (getOwnProperty prop obj) as [[?|?|?|]|];
    preserve_steps; assumption.
Qed.

(** The installer never touches the registry. *)
Lemma hookXhrIfNeeded_hooks w : hooks (snd (hookXhrIfNeeded w)) = hooks w.
Proof.
  assert (H : preserves (fun w' => hooks w' = hooks w) hookXhrIfNeeded);
    [|now apply H].
  unfold hookXhrIfNeeded. apply preserves_bind; [apply preserves_read|].
  intros [|]; unfold logger_warn, logger_log.
  - preserve_steps. assumption.
  - do 2 (apply preserves_bind; [preserve_steps; assumption|intros _]).
    repeat (apply preserves_bind;
            [first [apply patchGetter_hooks|apply patchMethod_hooks]
            |intros _]).
    apply patchMethod_hooks.
Qed.

Lemma insertXhrHook_split name hook options :
  insertXhrHook name hook options =
    (hookXhrIfNeeded;; register_hook name hook options).
Proof. reflexivity. Qed.

Lemma register_hook_run name hook options w :
  register_hook name hook options w =
    let set_in w0 := with_hooks (Map_set name hook (hooks w0)) w0 in
    if Map_has name (hooks w) then
      match computedOptions options with
      | Some OnError =>
          (Throw (ErrorMsg ("Hook with name " +:+ quoted name +:+
                            " already exists.")), w)
      | Some OnIgnore =>
          (Normal tt,
           with_logs (logs w ++
                      [Log ("Hook with name " +:+ quoted name +:+
                            " already exists, ignoring insert.")]) w)
      | Some OnReplace =>
          (Normal tt,
           set_in (with_logs
                     (logs w ++
                      [Log ("Replacing existing hook " +:+ quoted name)]) w))
      | None => (Normal tt, set_in w)
      end
    else
      (Normal tt,
       set_in (with_logs
                 (logs w ++ [Log ("Inserting hook " +:+ quoted name)]) w)).
Proof.
  unfold register_hook, bind, read. cbn.
  destruct (Map_has name (hooks w));
    [destruct (computedOptions options) as [[| |]|]|]; reflexivity.
Qed.

(** What an insertion can do to the registry: nothing, or set the name. *)
Lemma insertXhrHook_hooks name hook options w :
  hooks (snd (insertXhrHook name hook options w)) = hooks w \/
  hooks (snd (insertXhrHook name hook options w)) =
    Map_set name hook (hooks w).
Proof.
  rewrite insertXhrHook_split. unfold bind.
  pose proof (hookXhrIfNeeded_hooks w) as Hh.
  destruct (hookXhrIfNeeded w) as [[[]|e] w1]; cbn [snd] in *; [|now left].
  rewrite register_hook_run, Hh.
  destruct (Map_has name (hooks w)); cbn.
  - destruct (computedOptions options) as [[| |]|]; cbn; rewrite ?Hh; auto.
  - rewrite Hh. auto.
Qed.

Lemma removeXhrHook_run name w :
  removeXhrHook name w =
    if Map_has name (hooks w) then
      (Normal true,
       with_hooks (Map_delete name (hooks w))
         (with_logs (logs w ++ [Log ("Removing hook " +:+ quoted name)]) w))
    else
      (Normal false,
       with_logs
         (logs w ++
          [Warn ("Hook with name " +:+ quoted name +:+
                 " does not exist, ignoring remove.")]) w).
Proof.
  unfold removeXhrHook, bind, read. cbn.
  destruct (Map_has name (hooks w)); reflexivity.
Qed.

(** X1.  Whatever sequence of insertions and removals a page makes, with
    whatever options and whether or not a call throws, the registry never
    holds two hooks under one name. *)
Theorem registry_names_stay_distinct (cs : list ApiCall) (w : World) :
  NoDup (hook_names w) -> NoDup (hook_names (run_calls cs w)).
Proof.
  unfold hook_names. revert w.
  induction cs as [|c cs IH]; intros w Hnd; [exact Hnd|].
  change (run_calls (c :: cs) w) with (run_calls cs (run_call c w)).
  apply IH. destruct c as [name hook options|name]; unfold run_call.
  - destruct (insertXhrHook_hooks name hook options w) as [-> | ->];
      [exact Hnd|now apply Map_set_NoDup].
  - rewrite removeXhrHook_run.
    destruct (Map_has name (hooks w)); cbn; [|exact Hnd].
    now apply Map_delete_NoDup.
Qed.

Lemma registry_names_stay_distinct_witness :
  NoDup (hook_names initial_world) /\
  NoDup (hook_names
           (run_calls [CallInsert "a" ignore_request NoOnExists;
                       CallInsert "b" ignore_request NoOnExists;
                       CallInsert "a" aborting_hook (GivenOnExists OnReplace);
                       CallRemove "b";
                       CallInsert "a" ignore_request (GivenOnExists OnError)]
              initial_world)).
Proof.
  assert (H : NoDup (hook_names initial_world)) by constructor.
  split; [exact H|]. exact (registry_names_stay_distinct _ initial_world H).
Defined.

(** X2.  Removing a name from a registry without duplicates never throws
    and returns whether the name was registered.  Afterwards the name is
    not registered, every other name keeps its handler, and the remaining
    names keep their order; when the name was absent the registry is left
    as it was.  Nothing else of the page changes but the log. *)
Theorem remove_hook_removes_only_that_name (w : World) (name : string) :
  NoDup (hook_names w) ->
  let result := removeXhrHook name w in
  fst result = Normal (bool_decide (name ∈ hook_names w)) /\
  Map_get name (hooks (snd result)) = None /\
  (forall other, other <> name ->
     Map_get other (hooks (snd result)) = Map_get other (hooks w)) /\
  hook_names (snd result) = filter (fun n => n <> name) (hook_names w) /\
  (name ∉ hook_names w -> hooks (snd result) = hooks w) /\
  marker (snd result) = marker w /\
  prototype (snd result) = prototype w /\
  patch (snd result) = patch w.
Proof.
  intros Hnd result. subst result. unfold hook_names in *.
  rewrite removeXhrHook_run.
  destruct (Map_has name (hooks w)) eqn:Hhas; cbn.
  - pose proof Hhas as Hin. apply Map_has_names in Hin.
    rewrite bool_decide_eq_true_2 by assumption.
    split; [reflexivity|]. split; [now apply Map_get_delete_eq|].
    split; [intros other Hne; now apply Map_get_delete_ne|].
    split; [now apply Map_delete_names|].
    split; [intros Hno; contradiction|auto].
  - pose proof Hhas as Hno. apply Map_has_false_names in Hno.
    rewrite bool_decide_eq_false_2 by assumption.
    split; [reflexivity|]. split; [now apply Map_get_None_names|].
    split; [reflexivity|]. split; [|auto].
    symmetry. clear Hnd Hhas.
    induction (map fst (hooks w)) as [|k ks IH]; [reflexivity|].
    apply not_elem_of_cons in Hno as [Hne Hno].
    rewrite filter_cons, decide_True by congruence. f_equal. now apply IH.
Qed.

Lemma remove_hook_removes_only_that_name_witness :
  let w := run_calls [CallInsert "a" ignore_request NoOnExists;
                       CallInsert "b" aborting_hook NoOnExists;
                       CallInsert "c" ignore_request NoOnExists]
             initial_world in
  NoDup (hook_names w) /\
  fst (removeXhrHook "b" w) = Normal true /\
  hook_names (snd (removeXhrHook "b" w)) = ["a"; "c"] /\
  fst (removeXhrHook "z" w) = Normal false.
Proof.
  intros w.
  assert (H : NoDup (hook_names w))
    by (apply (bool_decide_unpack _); vm_compute; exact I).
  split; [exact H|].
  destruct (remove_hook_removes_only_that_name w "b" H)
    as (Hres & _ & _ & Hnames & _).
  destruct (remove_hook_removes_only_that_name w "z" H) as (Hres' & _).
  split; [exact Hres|]. split; [exact Hnames|exact Hres'].
Defined.

Lemma insertXhrHook_installed name hook options w :
  fst (hookXhrIfNeeded w) = Normal tt ->
  insertXhrHook name hook options w =
    register_hook name hook options (snd (hookXhrIfNeeded w)).
Proof.
  intros Hok. rewrite insertXhrHook_split. unfold bind.
  destruct (hookXhrIfNeeded w) as [[[]|e] w1]; [reflexivity|discriminate].
Qed.

(** X3.  When the installer returns, inserting a hook under a name that is
    not registered returns normally whatever the options are, puts the hook
    at the end of the registry and logs the insertion last; removing the
    name again returns true and gives back the registry as it was. *)
Theorem fresh_insert_then_remove (w : World) (name : string)
    (hook : XhrHook) (options : InsertXhrHookOptions) :
  fst (hookXhrIfNeeded w) = Normal tt ->
  name ∉ hook_names w ->
  let inserted := insertXhrHook name hook options w in
  let removed := removeXhrHook name (snd inserted) in
  fst inserted = Normal tt /\
  hooks (snd inserted) = hooks w ++ [(name, hook)] /\
  Map_get name (hooks (snd inserted)) = Some hook /\
  last (logs (snd inserted)) = Some (Log ("Inserting hook " +:+ quoted name)) /\
  fst removed = Normal true /\
  hooks (snd removed) = hooks w.
Proof.
  intros Hok Hfresh inserted removed. subst inserted removed.
  unfold hook_names in Hfresh. apply Map_has_false_names in Hfresh.
  rewrite (insertXhrHook_installed name hook options w Hok).
  pose proof (hookXhrIfNeeded_hooks w) as Hh.
  set (w1 := snd (hookXhrIfNeeded w)) in *.
  rewrite register_hook_run, Hh, Hfresh. cbn [fst snd].
  rewrite removeXhrHook_run. cbn [hooks with_hooks with_logs logs].
  rewrite Hh.
  assert (Hhas : Map_has name (Map_set name hook (hooks w)) = true).
  { apply bool_decide_eq_true. rewrite Map_get_set_eq. eauto. }
  rewrite Hhas. cbn. rewrite Map_set_fresh by assumption.
  split; [reflexivity|]. split; [reflexivity|].
  split; [rewrite <- (Map_set_fresh name hook) by assumption;
          apply Map_get_set_eq|].
  split; [apply last_snoc|]. split; [reflexivity|].
  rewrite <- (Map_set_fresh name hook) by assumption.
  now apply Map_delete_set_fresh.
Qed.

Lemma fresh_insert_then_remove_witness :
  let w := run_calls [CallInsert "a" ignore_request NoOnExists] initial_world in
  let inserted := insertXhrHook "b" aborting_hook (GivenOnExists OnError) w in
  fst (hookXhrIfNeeded w) = Normal tt /\
  ("b" ∉ hook_names w) /\
  hook_names (snd inserted) = ["a"; "b"] /\
  hooks (snd (removeXhrHook "b" (snd inserted))) = hooks w.
Proof.
  intros w inserted.
  assert (H1 : fst (hookXhrIfNeeded w) = Normal tt) by reflexivity.
  assert (H2 : "b" ∉ hook_names w).
  { intros Hin. apply list_elem_of_singleton in Hin. discriminate. }
  split; [exact H1|]. split; [exact H2|].
  destruct (fresh_insert_then_remove w "b" aborting_hook
              (GivenOnExists OnError) H1 H2)
    as (_ & Hin & _ & _ & _ & Hout).
  split; [|exact Hout].
  unfold hook_names, inserted. rewrite Hin. reflexivity.
Defined.

(** X4.  When the installer returns, inserting under a registered name with
    [onExists] set to [replace], or present but undefined, returns normally
    and swaps the handler in place: the names keep their order, the name
    maps to the new handler and every other name keeps its own. *)
Theorem replace_swaps_handler_in_place (w : World) (name : string)
    (hook : XhrHook) (options : InsertXhrHookOptions) :
  fst (hookXhrIfNeeded w) = Normal tt ->
  name ∈ hook_names w ->
  options = GivenOnExists OnReplace \/ options = UndefinedOnExists ->
  let result := insertXhrHook name hook options w in
  fst result = Normal tt /\
  hook_names (snd result) = hook_names w /\
  Map_get name (hooks (snd result)) = Some hook /\
  (forall other, other <> name ->
     Map_get other (hooks (snd result)) = Map_get other (hooks w)).
Proof.
  intros Hok Hin Hopt result. subst result.
  unfold hook_names in *. apply Map_has_names in Hin.
  rewrite (insertXhrHook_installed name hook options w Hok).
  pose proof (hookXhrIfNeeded_hooks w) as Hh.
  set (w1 := snd (hookXhrIfNeeded w)) in *.
  rewrite register_hook_run, Hh, Hin.
  destruct Hopt as [-> | ->];
    cbn [computedOptions fst snd hooks with_hooks with_logs]; rewrite Hh;
    (split; [reflexivity|]); (split; [now apply Map_set_names|]);
    (split; [apply Map_get_set_eq|]);
    intros other Hne; now apply Map_get_set_ne.
Qed.

Lemma replace_swaps_handler_in_place_witness :
  let w := run_calls [CallInsert "a" ignore_request NoOnExists;
                       CallInsert "b" ignore_request NoOnExists]
             initial_world in
  let result := insertXhrHook "a" aborting_hook UndefinedOnExists w in
  fst (hookXhrIfNeeded w) = Normal tt /\
  ("a" ∈ hook_names w) /\
  hook_names (snd result) = ["a"; "b"] /\
  Map_get "a" (hooks (snd result)) = Some aborting_hook.
Proof.
  intros w result.
  assert (H1 : fst (hookXhrIfNeeded w) = Normal tt) by reflexivity.
  assert (H2 : "a" ∈ hook_names w) by apply list_elem_of_here.
  split; [exact H1|]. split; [exact H2|].
  destruct (replace_swaps_handler_in_place w "a" aborting_hook
              UndefinedOnExists H1 H2 (or_intror eq_refl))
    as (_ & Hnames & Hget & _).
  split; [exact Hnames|exact Hget].
Defined.

(** X5.  When the installer returns, inserting under a registered name with
    no [onExists] option, or with [ignore], returns normally, leaves the
    registry as it was, so that the name keeps the handler registered
    first, and logs last that the insert is ignored. *)
Theorem ignore_keeps_registered_handler (w : World) (name : string)
    (hook prior : XhrHook) (options : InsertXhrHookOptions) :
  fst (hookXhrIfNeeded w) = Normal tt ->
  Map_get name (hooks w) = Some prior ->
  options = NoOnExists \/ options = GivenOnExists OnIgnore ->
  let result := insertXhrHook name hook options w in
  fst result = Normal tt /\
  hooks (snd result) = hooks w /\
  Map_get name (hooks (snd result)) = Some prior /\
  last (logs (snd result)) =
    Some (Log ("Hook with name " +:+ quoted name +:+
               " already exists, ignoring insert.")).
Proof.
  intros Hok Hprior Hopt result. subst result.
  assert (Hhas : Map_has name (hooks w) = true).
  { apply bool_decide_eq_true. rewrite Hprior. eauto. }
  rewrite (insertXhrHook_installed name hook options w Hok).
  pose proof (hookXhrIfNeeded_hooks w) as Hh.
  set (w1 := snd (hookXhrIfNeeded w)) in *.
  rewrite register_hook_run, Hh, Hhas.
  destruct Hopt as [-> | ->];
    cbn [computedOptions fst snd hooks logs with_hooks with_logs];
    rewrite Hh, Hprior, last_snoc; auto.
Qed.

Lemma ignore_keeps_registered_handler_witness :
  let w := run_calls [CallInsert "test" aborting_hook NoOnExists]
             initial_world in
  let result := insertXhrHook "test" ignore_request NoOnExists w in
  fst (hookXhrIfNeeded w) = Normal tt /\
  Map_get "test" (hooks w) = Some aborting_hook /\
  fst result = Normal tt /\
  Map_get "test" (hooks (snd result)) = Some aborting_hook.
Proof.
  intros w result.
  assert (H1 : fst (hookXhrIfNeeded w) = Normal tt) by reflexivity.
  assert (H2 : Map_get "test" (hooks w) = Some aborting_hook) by reflexivity.
  split; [exact H1|]. split; [exact H2|].
  destruct (ignore_keeps_registered_handler w "test" ignore_request
              aborting_hook NoOnExists H1 H2 (or_introl eq_refl))
    as (Hres & _ & Hget & _).
  split; [exact Hres|exact Hget].
Defined.

(** X6.  When patching fails, the insertion that triggered the installer
    throws the installer's error and registers nothing, yet the marker
    stays set: no later insertion patches anything, and a later insertion
    under a new name returns normally and registers its hook on the
    prototype as the failed installation left it. *)
Theorem failed_installation_is_not_retried (w : World) (e : JsError)
    (name : string) (hook : XhrHook) (options : InsertXhrHookOptions)
    (name2 : string) (hook2 : XhrHook) (options2 : InsertXhrHookOptions) :
  fst (hookXhrIfNeeded w) = Throw e ->
  name2 ∉ hook_names w ->
  let failed := insertXhrHook name hook options w in
  let again := insertXhrHook name2 hook2 options2 (snd failed) in
  fst failed = Throw e /\
  hooks (snd failed) = hooks w /\
  marker (snd failed) = true /\
  prototype (snd failed) = prototype (snd (hookXhrIfNeeded w)) /\
  fst again = Normal tt /\
  prototype (snd again) = prototype (snd failed) /\
  hooks (snd again) = hooks w ++ [(name2, hook2)].
Proof.
  intros Hfail Hfresh failed again.
  assert (Hfailed : failed = (Throw e, snd (hookXhrIfNeeded w))).
  { subst failed. rewrite insertXhrHook_split. unfold bind.
    destruct (hookXhrIfNeeded w) as [[[]|e'] w1]; cbn in *;
      [discriminate|congruence]. }
  subst again. rewrite Hfailed. cbn [fst snd].
  set (w1 := snd (hookXhrIfNeeded w)).
  assert (Hm : marker w1 = true) by apply hookXhrIfNeeded_sets_marker.
  assert (Hh : hooks w1 = hooks w) by apply hookXhrIfNeeded_hooks.
  split; [reflexivity|]. split; [exact Hh|]. split; [exact Hm|].
  split; [reflexivity|].
  assert (Hok : fst (hookXhrIfNeeded w1) = Normal tt)
    by now rewrite hookXhrIfNeeded_marked.
  assert (Hfresh1 : name2 ∉ hook_names w1)
    by (unfold hook_names; now rewrite Hh).
  destruct (insertXhrHook_marked name2 hook2 options2 w1 Hm) as [_ Hproto].
  rewrite (insertXhrHook_installed name2 hook2 options2 w1 Hok) in *.
  rewrite hookXhrIfNeeded_marked in * by assumption. cbn [snd] in *.
  rewrite register_hook_run in *. cbn [hooks with_logs] in *.
  unfold hook_names in Hfresh1. apply Map_has_false_names in Hfresh1.
  rewrite Hfresh1 in *. cbn in *.
  split; [reflexivity|]. split; [exact Hproto|].
  rewrite Map_set_fresh by assumption. now rewrite Hh.
Qed.

Lemma failed_installation_is_not_retried_witness :
  let w := legacy_world in
  let e := ErrorMsg ("Property " +:+ quoted "responseURL" +:+
                     " does not have a getter.") in
  let failed := insertXhrHook "a" aborting_hook NoOnExists w in
  let again := insertXhrHook "b" aborting_hook NoOnExists (snd failed) in
  fst (hookXhrIfNeeded w) = Throw e /\
  ("b" ∉ hook_names w) /\
  fst failed = Throw e /\
  fst again = Normal tt /\
  hook_names (snd again) = ["b"] /\
  wrappers "response" (prototype (snd again)) = 1 /\
  wrappers "send" (prototype (snd again)) = 0.
Proof.
  intros w e failed again.
  assert (H1 : fst (hookXhrIfNeeded w) = Throw e) by reflexivity.
  assert (H2 : "b" ∉ hook_names w) by (intros Hin; inversion Hin).
  split; [exact H1|]. split; [exact H2|].
  destruct (failed_installation_is_not_retried w e "a" aborting_hook
              NoOnExists "b" aborting_hook NoOnExists H1 H2)
    as (Hf & _ & _ & Hp1 & Ha & Hp2 & Hh).
  split; [exact Hf|]. split; [exact Ha|].
  split; [unfold hook_names, again, failed; now rewrite Hh|].
  unfold again, failed. rewrite Hp2, Hp1. split; reflexivity.
Defined.

(** ** The patch helpers *)

Lemma getOwnProperty_define_eq prop d o :
  getOwnProperty prop (defineProperty prop d o) = Some d.
Proof.
  induction o as [|[k d'] o IH]; cbn.
  - now rewrite String.eqb_refl.
  - destruct (String.eqb k prop) eqn:Hk; cbn; rewrite Hk; [reflexivity|exact IH].
Qed.

Lemma getOwnProperty_define_ne prop other d o :
  other <> prop ->
  getOwnProperty other (defineProperty prop d o) = getOwnProperty other o.
Proof.
  intros Hne. induction o as [|[k d'] o IH]; cbn.
  - rewrite eqb_decide, bool_decide_eq_false_2 by congruence. reflexivity.
  - destruct (String.eqb k prop) eqn:Hk; cbn.
    + apply String.eqb_eq in Hk. subst k.
      now rewrite eqb_decide, bool_decide_eq_false_2 by congruence.
    + now rewrite IH.
Qed.

(** X7.  The patch helpers keep no record of what they patched: on a
    property with a getter, [patchGetter] returns normally and puts one
    more replacement around the getter each time it is called, so that two
    calls wrap twice; [patchMethod] does the same on a method.  Either call
    leaves every other property, the marker and the registry alone. *)
Theorem patch_helpers_wrap_on_every_call (w : World) (getter method : string)
    (g m : Impl) :
  getOwnProperty getter (prototype w) = Some (Accessor g) ->
  getOwnProperty method (prototype w) = Some (Method m) ->
  let once := patchGetter getter w in
  let twice := patchGetter getter (snd once) in
  let once' := patchMethod method w in
  let twice' := patchMethod method (snd once') in
  (fst once = Normal tt /\ fst twice = Normal tt /\
   getOwnProperty getter (prototype (snd once)) =
     Some (Accessor (Replacement g)) /\
   getOwnProperty getter (prototype (snd twice)) =
     Some (Accessor (Replacement (Replacement g))) /\
   (forall other, other <> getter ->
      getOwnProperty other (prototype (snd once)) =
        getOwnProperty other (prototype w)) /\
   marker (snd once) = marker w /\ hooks (snd once) = hooks w) /\
  (fst once' = Normal tt /\ fst twice' = Normal tt /\
   getOwnProperty method (prototype (snd once')) =
     Some (Method (Replacement m)) /\
   getOwnProperty method (prototype (snd twice')) =
     Some (Method (Replacement (Replacement m))) /\
   (forall other, other <> method ->
      getOwnProperty other (prototype (snd once')) =
        getOwnProperty other (prototype w)) /\
   marker (snd once') = marker w /\ hooks (snd once') = hooks w).
Proof.
  intros Hg Hm once twice once' twice'.
  assert (Hone : once =
    (Normal tt,
     with_prototype
       (defineProperty getter (Accessor (Replacement g)) (prototype w)) w)).
  { subst once. unfold patchGetter, bind, read. cbn. now rewrite Hg. }
  assert (Hone' : once' =
    (Normal tt,
     with_prototype
       (defineProperty method (Method (Replacement m)) (prototype w)) w)).
  { subst once'. unfold patchMethod, bind, read, lift, Get, lookup_property.
    cbn. now rewrite Hm. }
  subst twice twice'. rewrite Hone, Hone'. cbn [fst snd].
  unfold patchGetter, patchMethod, bind, read, lift, Get, lookup_property.
  cbn. rewrite !getOwnProperty_define_eq. cbn.
  rewrite !getOwnProperty_define_eq.
  repeat split; intros other Hne; now apply getOwnProperty_define_ne.
Qed.

Lemma patch_helpers_wrap_on_every_call_witness :
  let w := initial_world in
  getOwnProperty "status" (prototype w) = Some (Accessor Native) /\
  getOwnProperty "send" (prototype w) = Some (Method Native) /\
  wrappers "status"
    (prototype (snd (patchGetter "status" (snd (patchGetter "status" w))))) = 2 /\
  wrappers "send"
    (prototype (snd (patchMethod "send" (snd (patchMethod "send" w))))) = 2.
Proof.
  intros w.
  assert (H1 : getOwnProperty "status" (prototype w) = Some (Accessor Native))
    by reflexivity.
  assert (H2 : getOwnProperty "send" (prototype w) = Some (Method Native))
    by reflexivity.
  split; [exact H1|]. split; [exact H2|].
  destruct (patch_helpers_wrap_on_every_call w "status" "send" Native Native
              H1 H2) as ((_ & _ & _ & Hg & _) & (_ & _ & _ & Hm & _)).
  unfold wrappers. rewrite Hg, Hm. split; reflexivity.
Defined.

Lemma inherited_properties_redefinable prop f :
  getOwnProperty prop inherited_properties <> Some (FixedMethod f).
Proof.
  unfold inherited_properties. cbn [getOwnProperty].
  repeat (destruct (String.eqb _ prop); [discriminate|]). discriminate.
Qed.

(** X8.  Asked to patch a property that has no getter of its own,
    [patchGetter] throws an error naming the property and changes nothing.
    [patchMethod] reads the property through the objects the prototype
    inherits from: when the property is not a method that can be patched,
    it throws a [TypeError] if reading it runs a getter (the property is an
    accessor, own or inherited) or if it is an own method that cannot be
    redefined, and else (the property is absent or no function) an error
    naming the property; it changes nothing. *)
Theorem patch_helpers_reject_other_shapes (w : World) (p q : string) :
  (forall g, getOwnProperty p (prototype w) <> Some (Accessor g)) ->
  (forall m, lookup_property q (prototype w) <> Some (Method m)) ->
  patchGetter p w =
    (Throw (ErrorMsg ("Property " +:+ dq +:+ p +:+ dq +:+
                      " does not have a getter.")), w) /\
  patchMethod q w =
    (Throw match lookup_property q (prototype w) with
           | Some (Accessor _) | Some (FixedMethod _) => TypeError
           | _ => ErrorMsg ("Property " +:+ dq +:+ q +:+ dq +:+
                            " is not a method.")
           end, w).
Proof.
  intros Hp Hq. split.
  - unfold patchGetter, bind, read, throw. cbn.
    destruct (getOwnProperty p (prototype w)) as [[g| | |]|];
      try reflexivity.
    now destruct (Hp g).
  - unfold patchMethod, bind, read, lift, Get, throw. cbn.
    destruct (lookup_property q (prototype w)) as [[g|m|f|]|] eqn:Hl;
      try reflexivity.
    + now destruct (Hq m).
    + unfold lookup_property in Hl.
      destruct (getOwnProperty q (prototype w)) as [d|].
      * injection Hl as ->. reflexivity.
      * now apply inherited_properties_redefinable in Hl.
Qed.

Lemma patch_helpers_reject_other_shapes_witness :
  let w := initial_world in
  (forall g, getOwnProperty "open" (prototype w) <> Some (Accessor g)) /\
  (forall m, lookup_property "onload" (prototype w) <> Some (Method m)) /\
  patchGetter "open" w =
    (Throw (ErrorMsg ("Property " +:+ dq +:+ "open" +:+ dq +:+
                      " does not have a getter.")), w) /\
  patchMethod "onload" w = (Throw TypeError, w).
Proof.
  intros w.
  assert (H1 : forall g, getOwnProperty "open" (prototype w) <> Some (Accessor g))
    by (intros g; vm_compute; discriminate).
  assert (H2 : forall m, lookup_property "onload" (prototype w) <> Some (Method m))
    by (intros m; vm_compute; discriminate).
  split; [exact H1|]. split; [exact H2|].
  exact (patch_helpers_reject_other_shapes w "open" "onload" H1 H2).
Defined.

(** ** More on the request object *)

(** The state machine writes only the emulated fields, the buffers, the
    log and the events. *)
Lemma read_loop_request_side t buffer pending ending : forall offset,
  preserves (fun w => request_side w = t)
            (read_loop buffer pending ending offset).
Proof.
  induction pending as [|[value|] pending IH]; intros offset; cbn [read_loop].
  - destruct ending; preserve_steps.
  - apply preserves_bind.
    + destruct (decide (byteLength buffer < offset + length value));
        unfold assign; preserve_steps; assumption.
    + intros _. apply preserves_bind; [apply preserves_read|]. intros p.
      destruct (responseBufferInternal p) as [internal|].
      * unfold assign, logger_log, dispatchEvent.
        repeat (apply preserves_bind; [preserve_steps; assumption|intros _]).
        apply IH.
      * preserve_steps.
  - apply IH.
Qed.

Lemma startXhrWithResponseCallback_request_side t responseCallback :
  preserves (fun w => request_side w = t)
            (startXhrWithResponseCallback responseCallback).
Proof.
  unfold startXhrWithResponseCallback.
  apply preserves_bind.
  { unfold before_try, assign, logger_log, dispatchEvent.
    preserve_steps; assumption. }
  intros _. apply preserves_try_catch.
  - unfold try_block.
    apply preserves_bind; [apply preserves_read|]. intros p.
    apply preserves_bind; [apply preserves_lift|]. intros response.
    unfold assign, logger_log, dispatchEvent.
    do 5 (apply preserves_bind; [preserve_steps; assumption|intros _]).
    apply preserves_bind; [apply preserves_lift|]. intros capacity.
    apply preserves_bind; [preserve_steps; assumption|]. intros buffer.
    apply preserves_bind; [apply preserves_lift|]. intros reader.
    apply preserves_bind; [preserve_steps; assumption|]. intros _.
    apply preserves_bind.
    { destruct reader as [stream|];
        [apply read_loop_request_side|preserve_steps]. }
    intros offset. preserve_steps; assumption.
  - intros e. unfold catch_block, assign, logger_error, dispatchEvent.
    preserve_steps; assumption.
Qed.

Section Instance.

Variable location_origin : string.
Variable URL_new : string -> string -> Completion string.

Local Abbreviation xhrToRequest' := (xhrToRequest location_origin URL_new).
Local Abbreviation send' := (send location_origin URL_new).
Local Abbreviation run_xhr_call' := (run_xhr_call location_origin URL_new).
Local Abbreviation run_xhr_calls' := (run_xhr_calls location_origin URL_new).

Lemma send_throws body w e :
  xhrToRequest' (patch w) None = Throw e -> send' body w = (Throw e, w).
Proof.
  intros Hreq. unfold send. unfold bind at 1, read at 1.
  unfold bind at 1, lift at 1. now rewrite Hreq.
Qed.

(** X9.  On a request object that was never opened the captured headers
    are undefined: [setRequestHeader] throws a [TypeError] without
    forwarding the call, and [send] throws (the error of the URL
    constructor if the empty URL does not resolve, a [TypeError] otherwise)
    before any hook is called and without forwarding the call.  Neither
    call changes anything. *)
Theorem calls_before_open_throw (w : World) (body : option BodyInit)
    (name value : string) :
  headers (patch w) = None ->
  setRequestHeader name value w = (Throw TypeError, w) /\
  send' body w =
    (Throw match URL_new (match url (patch w) with
                          | Some u => u
                          | None => EmptyString
                          end) location_origin with
           | Throw e => e
           | Normal _ => TypeError
           end, w).
Proof.
  intros Hnone. split.
  - unfold setRequestHeader. unfold bind at 1, read at 1. now rewrite Hnone.
  - apply send_throws. unfold xhrToRequest. rewrite Hnone.
    destruct (URL_new _ _); reflexivity.
Qed.

(** X10.  The body given to [send] never reaches the hooks: every request
    a [send] offers to a hook has no body, and which hooks are called, with
    which request, and what becomes of the side record, the buffers and the
    events does not depend on the body. *)
Theorem send_hides_body_from_hooks (w : World) (body body' : option BodyInit) :
  (exists calls,
     hookCalls (snd (send' body w)) = hookCalls w ++ calls /\
     Forall (fun c => Request.body (snd c) = None) calls) /\
  hookCalls (snd (send' body w)) = hookCalls (snd (send' body' w)) /\
  patch (snd (send' body w)) = patch (snd (send' body' w)) /\
  heap (snd (send' body w)) = heap (snd (send' body' w)) /\
  dispatched (snd (send' body w)) = dispatched (snd (send' body' w)).
Proof.
  destruct (xhrToRequest' (patch w) None) as [request|e] eqn:Hreq.
  - rewrite !(send_unfold location_origin URL_new _ w request Hreq).
    destruct (trial_run request (hooks w) w)
      as (_ & Hcalls & _ & _ & _ & _ & _ & _).
    set (offered := snd (trial request (hooks w) w)) in *.
    assert (Hbody : Request.body request = None).
    { unfold xhrToRequest in Hreq.
      destruct (URL_new _ _); [|discriminate].
      destruct (headers (patch w)); [|discriminate].
      destruct (Headers_append_all GuardNone _ _); [|discriminate].
      unfold Request_new in Hreq.
      destruct (includes_credentials _); [discriminate|].
      destruct (Request_method _); [|discriminate].
      destruct (Headers_append_all GuardRequest _ _); [|discriminate].
      inversion Hreq. reflexivity. }
    destruct (first_answer request (hooks w)) as [r|].
    + split; [|auto].
      exists (calls_of request (trialed request (hooks w))). split.
      * rewrite <- Hcalls.
        assert (H : request_side
                      (snd (startXhrWithResponseCallback r offered)) =
                    request_side offered)
          by now apply startXhrWithResponseCallback_request_side.
        unfold request_side in H. congruence.
      * unfold calls_of. apply Forall_forall. intros c Hc.
        apply list_elem_of_In, in_map_iff in Hc as (x & <- & _). exact Hbody.
    + unfold bind, logger_log, Reflect_apply, update. cbn.
      split; [|auto].
      exists (calls_of request (trialed request (hooks w))).
      split; [exact Hcalls|].
      unfold calls_of. apply Forall_forall. intros c Hc.
      apply list_elem_of_In, in_map_iff in Hc as (x & <- & _). exact Hbody.
  - rewrite !(send_throws _ w e Hreq). cbn. split; [|auto].
    exists []. rewrite app_nil_r. auto.
Qed.

End Instance.

Lemma calls_before_open_throw_witness :
  headers (patch initial_world) = None /\
  setRequestHeader "Accept" "text/html" initial_world =
    (Throw TypeError, initial_world) /\
  Demo.send None initial_world = (Throw TypeError, initial_world).
Proof.
  assert (H : headers (patch initial_world) = None) by reflexivity.
  split; [exact H|].
  exact (calls_before_open_throw Demo.location_origin Demo.URL_new
           initial_world None "Accept" "text/html" H).
Defined.

(** ** Cancellation tokens *)

Lemma trial_token t request entries :
  preserves (fun w => token_state w = t) (trial request entries).
Proof.
  induction entries as [|[name hook] entries IH]; cbn [trial].
  - apply preserves_ret.
  - unfold logger_log, call_hook.
    apply preserves_bind; [preserve_steps; assumption|intros _].
    apply preserves_bind; [preserve_steps; assumption|intros answer].
    destruct answer; [preserve_steps; assumption|].
    apply preserves_bind; [preserve_steps; assumption|intros _]. exact IH.
Qed.

Lemma startXhrWithResponseCallback_token t responseCallback :
  preserves (fun w => token_state w = t)
            (startXhrWithResponseCallback responseCallback).
Proof.
  intros w Hw.
  assert (H : request_side (snd (startXhrWithResponseCallback responseCallback w))
              = request_side w)
    by now apply startXhrWithResponseCallback_request_side.
  unfold request_side in H. unfold token_state in *. congruence.
Qed.

Section Tokens.

Variable location_origin : string.
Variable URL_new : string -> string -> Completion string.

Local Abbreviation send' := (send location_origin URL_new).
Local Abbreviation run_xhr_call' := (run_xhr_call location_origin URL_new).
Local Abbreviation run_xhr_calls' := (run_xhr_calls location_origin URL_new).

Lemma send_token t body :
  preserves (fun w => token_state w = t) (send' body).
Proof.
  unfold send.
  apply preserves_bind; [apply preserves_read|]. intros p.
  apply preserves_bind; [apply preserves_lift|]. intros request.
  apply preserves_bind; [apply preserves_read|]. intros registry.
  apply preserves_bind; [apply trial_token|]. intros [r|].
  - apply startXhrWithResponseCallback_token.
  - unfold logger_log, Reflect_apply. preserve_steps; assumption.
Qed.

Lemma setRequestHeader_token t name value :
  preserves (fun w => token_state w = t) (setRequestHeader name value).
Proof.
  unfold setRequestHeader.
  apply preserves_bind; [apply preserves_read|]. intros p.
  destruct (headers p); unfold assign, Reflect_apply;
    preserve_steps; assumption.
Qed.

Lemma abort_run w :
  abort w =
    (Normal tt,
     with_nativeCalls (nativeCalls w ++ [NativeAbort])
       (with_aborted (abortController (patch w) :: aborted w) w)).
Proof. reflexivity. Qed.

Lemma keeps_token_run c w :
  keeps_token c -> token_state (snd (run_xhr_call' c w)) = token_state w.
Proof.
  destruct c as [m u rest|name value| |body]; cbn; intros Hk;
    try contradiction.
  - now apply setRequestHeader_token.
  - now apply send_token.
Qed.

Lemma keeps_token_runs cs : forall w,
  Forall keeps_token cs -> token_state (run_xhr_calls' cs w) = token_state w.
Proof.
  induction cs as [|c cs IH]; intros w Hall; [reflexivity|].
  apply Forall_cons in Hall as [Hc Hall].
  change (run_xhr_calls' (c :: cs) w)
    with (run_xhr_calls' cs (snd (run_xhr_call' c w))).
  rewrite (IH _ Hall). now apply keeps_token_run.
Qed.

Lemma controllers_fresh_run c w :
  controllers_fresh w -> controllers_fresh (snd (run_xhr_call' c w)).
Proof.
  intros [Hcur Hall].
  destruct c as [m u rest|name value| |body]; cbn [run_xhr_call].
  - rewrite open_run. split; cbn; [lia|].
    intros c Hc. apply elem_of_cons in Hc as [->|Hc]; [lia|].
    specialize (Hall c Hc). lia.
  - assert (H : token_state (snd (setRequestHeader name value w)) =
                token_state w) by now apply setRequestHeader_token.
    unfold token_state in H. inversion H as [[H1 H2 H3]].
    unfold controllers_fresh. rewrite H1, H2, H3. auto.
  - rewrite abort_run. split; cbn; [exact Hcur|].
    intros c Hc. apply elem_of_cons in Hc as [->|Hc]; auto.
  - assert (H : token_state (snd (send' body w)) = token_state w)
      by now apply send_token.
    unfold token_state in H. inversion H as [[H1 H2 H3]].
    unfold controllers_fresh. rewrite H1, H2, H3. auto.
Qed.

Lemma controllers_fresh_runs cs : forall w,
  controllers_fresh w -> controllers_fresh (run_xhr_calls' cs w).
Proof.
  induction cs as [|c cs IH]; intros w Hw; [exact Hw|].
  change (run_xhr_calls' (c :: cs) w)
    with (run_xhr_calls' cs (snd (run_xhr_call' c w))).
  apply IH. now apply controllers_fresh_run.
Qed.

(** X11.  Whatever was done with a request object before, [open] aborts
    the controller that was current and makes a new one current that is
    not aborted and differs from the old one; it stays current and not
    aborted through any later calls of [setRequestHeader] and [send],
    hooked or not, until the next [open] or [abort]. *)
Theorem reopening_renews_the_token (w : World) (before after : list XhrCall)
    (m u : string) (rest : list JsArg) :
  controllers_fresh w ->
  Forall keeps_token after ->
  let w1 := run_xhr_calls' before w in
  let w2 := snd (open m u rest w1) in
  let w3 := run_xhr_calls' after w2 in
  (abortController (patch w1) ∈ aborted w2) /\
  abortController (patch w2) <> abortController (patch w1) /\
  (abortController (patch w2) ∉ aborted w2) /\
  abortController (patch w3) = abortController (patch w2) /\
  (abortController (patch w3) ∉ aborted w3).
Proof.
  intros Hfresh Hkeep w1 w2 w3.
  assert (H1 : controllers_fresh w1) by now apply controllers_fresh_runs.
  destruct H1 as [Hcur Hall].
  assert (H2 : (abortController (patch w1) ∈ aborted w2) /\
               abortController (patch w2) <> abortController (patch w1) /\
               (abortController (patch w2) ∉ aborted w2)).
  { subst w2. rewrite open_run. cbn. split; [apply list_elem_of_here|].
    split; [lia|].
    intros Hin. apply elem_of_cons in Hin as [Heq|Hin]; [lia|].
    specialize (Hall _ Hin). lia. }
  destruct H2 as (Ha & Hb & Hc).
  assert (H3 : token_state w3 = token_state w2) by now apply keeps_token_runs.
  unfold token_state in H3. inversion H3 as [[H31 H32 H33]].
  rewrite H31, H32. auto.
Qed.

(** X12.  [abort] returns normally, marks the current controller aborted,
    forwards the call and touches nothing else: the side record, emulated
    fields included, and the events stay as they were, and no new
    controller is made.  The aborted controller therefore remains the
    current one through any later calls of [setRequestHeader] and [send],
    until the request object is opened again. *)
Theorem abort_cancels_without_renewing (w : World) (after : list XhrCall) :
  Forall keeps_token after ->
  let w1 := snd (abort w) in
  let w2 := run_xhr_calls' after w1 in
  fst (abort w) = Normal tt /\
  patch w1 = patch w /\ heap w1 = heap w /\ dispatched w1 = dispatched w /\
  controllers w1 = controllers w /\
  nativeCalls w1 = nativeCalls w ++ [NativeAbort] /\
  abortController (patch w2) = abortController (patch w) /\
  (abortController (patch w2) ∈ aborted w2).
Proof.
  intros Hkeep w1 w2.
  assert (H : token_state w2 = token_state w1) by now apply keeps_token_runs.
  unfold token_state in H. injection H as H1 H2 H3.
  do 6 (split; [reflexivity|]).
  split; [exact H1|]. rewrite H1, H2. apply list_elem_of_here.
Qed.

End Tokens.

Lemma reopening_renews_the_token_witness :
  let after := [XSetRequestHeader "Accept" "text/html"; XSend None] in
  let w1 := run_xhr_calls Demo.location_origin Demo.URL_new
              [XOpen "GET" "/a" []; XAbort] finished_world in
  let w2 := snd (open "GET" "/b" [] w1) in
  let w3 := run_xhr_calls Demo.location_origin Demo.URL_new after w2 in
  controllers_fresh finished_world /\
  Forall keeps_token after /\
  abortController (patch w3) = 3 /\
  aborted w3 = [2; 2; 1; 0].
Proof.
  intros after w1 w2 w3.
  assert (H1 : controllers_fresh finished_world).
  { split; [vm_compute; lia|]. intros c Hc. vm_compute in Hc.
    apply list_elem_of_singleton in Hc. subst c. vm_compute. lia. }
  assert (H2 : Forall keeps_token after) by (repeat constructor).
  split; [exact H1|]. split; [exact H2|].
  destruct (reopening_renews_the_token Demo.location_origin Demo.URL_new
              finished_world [XOpen "GET" "/a" []; XAbort] after
              "GET" "/b" [] H1 H2) as (_ & _ & _ & Hsame & _).
  split; [exact (eq_trans Hsame eq_refl)|vm_compute; reflexivity].
Defined.

Lemma abort_cancels_without_renewing_witness :
  let after := [XSend None] in
  let w := three_hooks_world in
  let w2 := run_xhr_calls Demo.location_origin Demo.URL_new after
              (snd (abort w)) in
  Forall keeps_token after /\
  abortController (patch w2) = abortController (patch w) /\
  (abortController (patch w2) ∈ aborted w2) /\
  readyState (patch w2) = Some 4.
Proof.
  intros after w w2.
  assert (H : Forall keeps_token after) by (repeat constructor).
  split; [exact H|].
  destruct (abort_cancels_without_renewing Demo.location_origin Demo.URL_new
              w after H) as (_ & _ & _ & _ & _ & _ & Hsame & Hin).
  split; [exact Hsame|]. split; [exact Hin|]. vm_compute; reflexivity.
Defined.

(** ** Requests no hook answers *)

Section Transparency.

Variable location_origin : string.
Variable URL_new : string -> string -> Completion string.
Variable TextDecoder_decode : list Byte.byte -> Completion string.
Variables JSONValue Document : Type.
Variable JSON_parse : string -> Completion JSONValue.
Variable DOMParser_parseFromString : string -> Completion Document.

Local Abbreviation send' := (send location_origin URL_new).
Local Abbreviation run_xhr_call' := (run_xhr_call location_origin URL_new).
Local Abbreviation run_xhr_calls' := (run_xhr_calls location_origin URL_new).
Local Abbreviation response_getter' :=
  (response_getter TextDecoder_decode JSONValue Document JSON_parse
                   DOMParser_parseFromString).
Local Abbreviation responseText_getter' :=
  (responseText_getter TextDecoder_decode).

Lemma passing_call c w :
  call_passes location_origin URL_new c w ->
  emulation_state (snd (run_xhr_call' c w)) = emulation_state w.
Proof.
  intros Hpass. destruct c as [m u rest|name value| |body]; cbn [run_xhr_call].
  - now rewrite open_run.
  - destruct (headers (patch w)) as [h|] eqn:Hh.
    + now rewrite (setRequestHeader_run name value w h Hh).
    + unfold setRequestHeader. unfold bind at 1, read at 1. now rewrite Hh.
  - now rewrite abort_run.
  - cbn [call_passes] in Hpass.
    destruct (xhrToRequest location_origin URL_new (patch w) None)
      as [request|e] eqn:Hreq.
    + rewrite (send_unfold location_origin URL_new body w request Hreq).
      rewrite first_answer_none by exact Hpass.
      destruct (trial_run request (hooks w) w)
        as (_ & _ & _ & Hp & Hh & Hd & Hhooks & Ht).
      unfold bind, logger_log, Reflect_apply, update. cbn.
      unfold emulation_state. cbn. now rewrite Hp, Hh, Hd, Hhooks, Ht.
    + now rewrite (send_throws location_origin URL_new body w e Hreq).
Qed.

Lemma passing_calls cs : forall w,
  calls_pass location_origin URL_new cs w ->
  emulation_state (run_xhr_calls' cs w) = emulation_state w.
Proof.
  induction cs as [|c cs IH]; intros w Hpass; [reflexivity|].
  destruct Hpass as [Hc Hcs].
  change (run_xhr_calls' (c :: cs) w)
    with (run_xhr_calls' cs (snd (run_xhr_call' c w))).
  rewrite (IH _ Hcs). now apply passing_call.
Qed.

(** X13.  As long as no registered hook answers a request that is sent,
    a request object on which no hooked response was ever started behaves
    as the browser's: after any sequence of [open], [setRequestHeader],
    [abort] and [send] calls of which every [send] offers a request that
    each hook lets pass, no emulated field is set, no event is dispatched
    by the module, and each of the six replaced getters returns what the
    original getter returns. *)
Theorem unanswered_requests_stay_native (w : World) (cs : list XhrCall) :
  calls_pass location_origin URL_new cs w ->
  emulation_unset w ->
  let w' := run_xhr_calls' cs w in
  emulation_unset w' /\
  dispatched w' = dispatched w /\
  (forall native, readyState_getter w' native = native) /\
  (forall native, status_getter w' native = native) /\
  (forall native, statusText_getter w' native = native) /\
  (forall native, responseURL_getter w' native = native) /\
  (forall native, response_getter' w' native = native) /\
  (forall native, responseText_getter' w' native = native).
Proof.
  intros Hpass (H1 & H2 & H3 & H4 & H5 & H6 & H7) w'.
  pose proof (passing_calls cs w Hpass) as H. fold w' in H.
  unfold emulation_state in H.
  injection H as E1 E2 E3 E4 E5 E6 E7 E8 E9 E10 E11.
  unfold emulation_unset, readyState_getter, status_getter, statusText_getter,
    responseURL_getter, response_getter, responseText_getter.
  rewrite E1, E2, E3, E4, E5, E6, E7, E9, H1, H2, H3, H4, H5, H6, H7.
  repeat split.
Qed.

End Transparency.

Lemma unanswered_requests_stay_native_witness :
  let w := selective_world in
  let cs := [XOpen "GET" "/a" []; XSetRequestHeader "Accept" "text/html";
             XSend None; XAbort; XOpen "POST" "/b" []; XSend None] in
  let w' := run_xhr_calls Demo.location_origin Demo.URL_new cs w in
  calls_pass Demo.location_origin Demo.URL_new cs w /\
  emulation_unset w /\
  readyState_getter w' 1 = 1 /\
  nativeCalls w' =
    [NativeOpen "GET" "/a" []; NativeSetRequestHeader "Accept" "text/html";
     NativeSend [None]; NativeAbort; NativeOpen "POST" "/b" [];
     NativeSend [None]] /\
  map fst (hookCalls w') = ["a"; "a"] /\
  is_Some (selective_hook
             {| Request.url := "https://example.com/hooked";
                Request.method := Some "GET"; Request.headers := [];
                Request.body := None |}).
Proof.
  intros w cs w'.
  assert (H1 : calls_pass Demo.location_origin Demo.URL_new cs w)
    by (vm_compute; repeat split; repeat constructor).
  assert (H2 : emulation_unset w) by (repeat split).
  split; [exact H1|]. split; [exact H2|].
  destruct (unanswered_requests_stay_native Demo.location_origin Demo.URL_new
              Demo.TextDecoder_decode N Demo.Document Demo.JSON_parse
              Demo.DOMParser_parseFromString w cs H1 H2)
    as (_ & _ & Hready & _).
  split; [exact (Hready 1)|].
  split; [vm_compute; reflexivity|]. split; [vm_compute; reflexivity|].
  vm_compute. eauto.
Defined.

(** ** The shape of a run *)

Lemma bind_inv {A B} (m : M A) (k : A -> M B) w c w' :
  bind m k w = (c, w') ->
  (exists a w1, m w = (Normal a, w1) /\ k a w1 = (c, w')) \/
  (exists e, m w = (Throw e, w') /\ c = Throw e).
Proof.
  unfold bind. destruct (m w) as [[a|e] w1]; intros H.
  - left. eauto.
  - right. inversion H; subst. eauto.
Qed.

Lemma read_loop_status_line t buffer pending ending : forall offset,
  preserves (fun w => status_line w = t)
            (read_loop buffer pending ending offset).
Proof.
  induction pending as [|[value|] pending IH]; intros offset; cbn [read_loop].
  - destruct ending; preserve_steps.
  - apply preserves_bind.
    + destruct (decide (byteLength buffer < offset + length value));
        unfold assign; preserve_steps; assumption.
    + intros _. apply preserves_bind; [apply preserves_read|]. intros p.
      destruct (responseBufferInternal p) as [internal|].
      * unfold assign, logger_log, dispatchEvent.
        repeat (apply preserves_bind; [preserve_steps; assumption|intros _]).
        apply IH.
      * preserve_steps.
  - apply IH.
Qed.

(** Whatever way the body loop ends, it has dispatched loading events
    only, each seen with [readyState] 3. *)
Lemma read_loop_observed buffer pending ending : forall offset w c w',
  read_loop buffer pending ending offset w = (c, w') ->
  exists ds,
    dispatched w' = dispatched w ++ ds /\
    Forall loading_step (map observed ds).
Proof.
  induction pending as [|[value|] pending IH]; intros offset w c w' H;
    cbn [read_loop] in H.
  - exists []. rewrite app_nil_r.
    destruct ending; inversion H; subst; split; auto; constructor.
  - assert (Hgrow : preserves (fun w0 => dispatched w0 = dispatched w)
        (if decide (byteLength buffer < offset + length value)
         then let* newBuffer :=
                new_Uint8Array ((byteLength buffer + length value) * 2) in
              set_from newBuffer buffer 0;;
              assign (set_responseBufferInternal (Some newBuffer))
         else assign (set_responseBufferInternal (Some buffer)))).
    { destruct (decide (byteLength buffer < offset + length value));
        unfold assign; preserve_steps; assumption. }
    specialize (Hgrow w eq_refl).
    apply bind_inv in H as [([] & w1 & Hg & H)|(e & Hg & ->)];
      rewrite Hg in Hgrow; cbn [snd] in Hgrow;
      [|exists []; rewrite app_nil_r; split; [auto|constructor]].
    apply bind_inv in H as [(p & w1' & Hread & H)|(e & Hread & _)];
      [|discriminate].
    inversion Hread; subst p w1'; clear Hread.
    destruct (responseBufferInternal (patch w1)) as [internal|].
    + apply bind_inv in H as [([] & w2 & Hset & H)|(e & Hset & ->)].
      * unfold set_bytes in Hset.
        destruct (Uint8Array_set _ _ _ _) as [h|]; [|discriminate].
        inversion Hset; subst w2; clear Hset.
        cbv zeta in H. unfold assign, logger_log, dispatchEvent in H.
        rewrite !bind_update in H.
        apply IH in H as (ds & Hds & Hall).
        eexists (_ :: _ :: ds). split.
        -- rewrite Hds. cbn. rewrite Hgrow, <- !app_assoc. reflexivity.
        -- cbn [map]. constructor; [split; [left|]; reflexivity|].
           constructor; [split; [right; eexists|]; reflexivity|exact Hall].
      * unfold set_bytes in Hset.
        destruct (Uint8Array_set _ _ _ _) as [h|]; [discriminate|].
        inversion Hset; subst. exists []. rewrite app_nil_r.
        split; [auto|constructor].
    + inversion H; subst. exists []. rewrite app_nil_r.
      split; [auto|constructor].
  - apply IH in H. exact H.
Qed.

(** What the [try] block leaves, by the way it ends. *)
Lemma try_block_outcome responseCallback w c w' :
  try_block responseCallback w = (c, w') ->
  match responseCallback (abortController (patch w)) with
  | Rejected e => c = Throw e /\ w' = w
  | Fulfilled response =>
      exists ds loading,
        dispatched w' = dispatched w ++ ds /\
        Forall loading_step loading /\
        status (patch w') = Some (Response.status response) /\
        statusText (patch w') = Some (Response.statusText response) /\
        match c with
        | Normal _ =>
            readyState (patch w') = Some 4 /\
            responseUrl (patch w') = Some (Response.url response) /\
            map observed ds =
              (Ev "loadstart", Some 2) :: loading ++
              [(Ev "load", Some 4); (Ev "readystatechange", Some 4);
               (Ev "loadend", Some 4)]
        | Throw _ =>
            responseUrl (patch w') = responseUrl (patch w) /\
            map observed ds = (Ev "loadstart", Some 2) :: loading
        end
  end.
Proof.
  intros H. unfold try_block in H.
  apply bind_inv in H as [(p & w0 & Hread & H)|(e & Hread & _)];
    [|discriminate].
  inversion Hread; subst p w0; clear Hread.
  destruct (responseCallback (abortController (patch w))) as [response|e].
  2:{ apply bind_inv in H as [(a & w0 & Hl & _)|(e' & Hl & ->)];
        inversion Hl; subst; auto. }
  apply bind_inv in H as [(a & w0 & Hl & H)|(e' & Hl & _)]; [|discriminate].
  inversion Hl; subst a w0; clear Hl.
  unfold assign, logger_log, dispatchEvent in H. rewrite !bind_update in H.
  match type of H with _ ?wh = _ => set (w1 := wh) in * end.
  assert (Hd1 : exists d, dispatched w1 = dispatched w ++ [d] /\
                          observed d = (Ev "loadstart", Some 2))
    by (eexists; split; reflexivity).
  destruct Hd1 as (d1 & Hd1 & Hobs1).
  assert (Hs1 : status_line w1 = (Some (Response.status response),
                                  Some (Response.statusText response),
                                  responseUrl (patch w)))
    by reflexivity.
  clearbody w1.
  apply bind_inv in H as [(capacity & wa & Hl & H)|(e' & Hl & ->)];
    (unfold lift in Hl; injection Hl as Hcap Hw).
  2:{ subst w'. injection Hs1 as S1 S2 S3.
      exists [d1], []. cbn [map]. rewrite Hobs1. auto 10. }
  subst wa.
  apply bind_inv in H as [(buffer & w2 & Hnew & H)|(e' & Hnew & _)];
    [|discriminate].
  unfold new_Uint8Array in Hnew. cbn in Hnew. injection Hnew as Hbuf Hw2.
  apply bind_inv in H as [(reader & wb & Hl & H)|(e' & Hl & ->)];
    (unfold lift in Hl; injection Hl as Hreader Hw).
  2:{ subst w' w2. injection Hs1 as S1 S2 S3.
      exists [d1], []. cbn [map]. rewrite Hobs1. auto 10. }
  subst wb. rewrite bind_update in H.
  match type of H with _ ?wh = _ => set (w3 := wh) in * end.
  assert (Hd3 : dispatched w3 = dispatched w ++ [d1])
    by (subst w3 w2; exact Hd1).
  assert (Hs3 : status_line w3 = (Some (Response.status response),
                                  Some (Response.statusText response),
                                  responseUrl (patch w)))
    by (subst w3 w2; exact Hs1).
  clearbody w3.
  apply bind_inv in H as [(offset & w4 & Hloop & H)|(e' & Hloop & ->)].
  - assert (Hfacts : exists ds,
              dispatched w4 = dispatched w3 ++ ds /\
              Forall loading_step (map observed ds) /\
              status_line w4 = status_line w3).
    { destruct reader as [stream|].
      - pose proof (read_loop_status_line _ buffer (reads stream)
                      (ending stream) 0 w3 eq_refl) as Hs.
        rewrite Hloop in Hs.
        apply read_loop_observed in Hloop as (ds & Hds & Hall). eauto.
      - inversion Hloop; subst. exists []. rewrite app_nil_r.
        repeat split. constructor. }
    destruct Hfacts as (ds & Hds & Hall & Hs4).
    rewrite Hs3 in Hs4. injection Hs4 as S1 S2 S3.
    rewrite !bind_update in H. injection H as Hc Hw'. subst c w'.
    eexists (d1 :: ds ++ [_; _; _]), (map observed ds).
    split; [cbn; rewrite Hds, Hd3, <- !app_assoc; reflexivity|].
    split; [exact Hall|]. split; [exact S1|]. split; [exact S2|].
    split; [reflexivity|]. split; [reflexivity|].
    cbn [map]. rewrite map_app, Hobs1. reflexivity.
  - destruct reader as [stream|]; [|discriminate].
    pose proof (read_loop_status_line _ buffer (reads stream)
                      (ending stream) 0 w3 eq_refl) as Hs.
    rewrite Hloop in Hs. cbn [snd] in Hs.
    rewrite Hs3 in Hs. injection Hs as S1 S2 S3.
    apply read_loop_observed in Hloop as (ds & Hds & Hall).
    exists (d1 :: ds), (map observed ds).
    split; [rewrite Hds, Hd3, <- app_assoc; reflexivity|].
    split; [exact Hall|]. split; [exact S1|]. split; [exact S2|].
    split; [exact S3|]. cbn [map]. now rewrite Hobs1.
Qed.

(** What a run leaves behind: it settles normally at [readyState] 4, its
    first event is a readiness change seen at [readyState] 1, its events
    take one of the three shapes, and it is the given responder that
    decides between them. *)
Lemma startXhrWithResponseCallback_outcome responseCallback w :
  let result := startXhrWithResponseCallback responseCallback w in
  fst result = Normal tt /\
  readyState (patch (snd result)) = Some 4 /\
  exists d ds,
    dispatched (snd result) = dispatched w ++ d :: ds /\
    observed d = (Ev "readystatechange", Some 1) /\
    run_shape (map observed (d :: ds)) /\
    match responseCallback (abortController (patch w)) with
    | Fulfilled reply =>
        status (patch (snd result)) = Some (Response.status reply) /\
        statusText (patch (snd result)) = Some (Response.statusText reply)
    | Rejected _ =>
        map observed ds =
          [(Ev "error", Some 4); (Ev "readystatechange", Some 4)]
    end.
Proof.
  intros result. subst result. unfold startXhrWithResponseCallback.
  rewrite (bind_normal _ _ _ _ _ (before_try_run w)).
  set (w0 := with_dispatched _ _).
  assert (Hd0 : exists d, dispatched w0 = dispatched w ++ [d] /\
                          observed d = (Ev "readystatechange", Some 1))
    by (eexists; split; reflexivity).
  destruct Hd0 as (d0 & Hd0 & Hobs0).
  assert (Hc0 : abortController (patch w0) = abortController (patch w))
    by reflexivity.
  clearbody w0.
  unfold try_catch.
  destruct (try_block responseCallback w0) as [c w1] eqn:Htry.
  pose proof (try_block_outcome _ _ _ _ Htry) as Hout.
  rewrite Hc0 in Hout.
  destruct (responseCallback (abortController (patch w))) as [reply|e].
  - destruct Hout as (ds & loading & Hds & Hall & Hs & Ht & Hc).
    destruct c as [[]|e].
    + destruct Hc as (Hr & _ & Hobs). cbn [fst snd].
      split; [reflexivity|]. split; [exact Hr|].
      exists d0, ds. split.
      * rewrite Hds, Hd0, <- app_assoc. reflexivity.
      * split; [exact Hobs0|]. split; [|auto].
        cbn [map]. rewrite Hobs0, Hobs. right. exists loading.
        split; [exact Hall|]. left. reflexivity.
    + destruct Hc as (_ & Hobs).
      unfold catch_block, logger_error, assign, dispatchEvent.
      rewrite !bind_update. unfold update. cbn [fst snd].
      split; [reflexivity|]. split; [reflexivity|].
      eexists d0, (ds ++ [_; _]). split.
      * cbn. rewrite Hds, Hd0, <- !app_assoc. reflexivity.
      * split; [exact Hobs0|]. split; [|split; [exact Hs|exact Ht]].
        cbn [map]. rewrite map_app, Hobs0, Hobs. right. exists loading.
        split; [exact Hall|]. right. reflexivity.
  - destruct Hout as [-> ->].
    unfold catch_block, logger_error, assign, dispatchEvent.
    rewrite !bind_update. unfold update. cbn [fst snd].
    split; [reflexivity|]. split; [reflexivity|].
    eexists d0, [_; _]. split.
    + cbn. rewrite Hd0, <- !app_assoc. reflexivity.
    + split; [exact Hobs0|]. split; [|reflexivity].
      cbn [map]. rewrite Hobs0. left. reflexivity.
Qed.

(** X14.  For a responder whose promise has settled and a body stream whose
    reads have all settled, which are the runs this model describes, a run
    of the response state machine ends at [readyState] 4 and the events it
    dispatched, each with the [readyState] its listeners read, take one of
    three shapes: a readiness change at 1, then an error and a readiness
    change at 4; or a readiness change at 1, a load start at 2, loading
    events at 3, then a load, a readiness change and a load end at 4; or
    the same beginning followed by an error and a readiness change at 4. *)
Theorem every_run_has_one_of_three_shapes (responseCallback : Responder)
    (w : World) :
  let result := startXhrWithResponseCallback responseCallback w in
  fst result = Normal tt /\
  readyState (patch (snd result)) = Some 4 /\
  exists ds,
    dispatched (snd result) = dispatched w ++ ds /\
    run_shape (map observed ds).
Proof.
  intros result.
  destruct (startXhrWithResponseCallback_outcome responseCallback w)
    as (Hfst & Hready & d & ds & Hds & _ & Hshape & _).
  split; [exact Hfst|]. split; [exact Hready|]. eauto.
Qed.

(** X15.  Once the responder has fulfilled with a response, the run leaves
    the status and the status text of that response on the object whichever
    way it ends; the final URL is the URL of the response when the run
    completes with a load end, and is left as it was when a later step fails
    and the run ends with an error and a readiness change. *)
Theorem status_line_survives_late_failure (responseCallback : Responder)
    (w : World) (response : Response.t) :
  responseCallback (abortController (patch w)) = Fulfilled response ->
  let w' := snd (startXhrWithResponseCallback responseCallback w) in
  status (patch w') = Some (Response.status response) /\
  statusText (patch w') = Some (Response.statusText response) /\
  (responseUrl (patch w') = Some (Response.url response) /\
   last (events w') = Some (Ev "loadend") \/
   responseUrl (patch w') = responseUrl (patch w) /\
   exists before,
     events w' = before ++ [Ev "error"; Ev "readystatechange"]).
Proof.
  intros Hful w'. subst w'. unfold startXhrWithResponseCallback.
  rewrite (bind_normal _ _ _ _ _ (before_try_run w)).
  set (w0 := with_dispatched _ _).
  assert (Hc0 : abortController (patch w0) = abortController (patch w))
    by reflexivity.
  assert (Hu0 : responseUrl (patch w0) = responseUrl (patch w))
    by reflexivity.
  clearbody w0.
  unfold try_catch.
  destruct (try_block responseCallback w0) as [c w1] eqn:Htry.
  pose proof (try_block_outcome _ _ _ _ Htry) as Hout.
  rewrite Hc0, Hful in Hout.
  destruct Hout as (ds & loading & Hds & Hall & Hs & Ht & Hc).
  destruct c as [[]|e].
  - destruct Hc as (_ & Hu & Hobs). cbn [snd].
    split; [exact Hs|]. split; [exact Ht|]. left. split; [exact Hu|].
    unfold events. rewrite Hds, map_app.
    assert (Hev : map event ds = map fst (map observed ds))
      by (rewrite map_map; reflexivity).
    rewrite Hev, Hobs. cbn [map fst]. rewrite map_app. cbn [map fst].
    rewrite app_comm_cons, !app_assoc.
    change [Ev "load"; Ev "readystatechange"; Ev "loadend"]
      with ([Ev "load"; Ev "readystatechange"] ++ [Ev "loadend"]).
    rewrite !app_assoc. apply last_snoc.
  - destruct Hc as (Hu & _).
    unfold catch_block, logger_error, assign, dispatchEvent.
    rewrite !bind_update. cbn [snd].
    split; [exact Hs|]. split; [exact Ht|]. right.
    split; [rewrite <- Hu0, <- Hu; reflexivity|].
    exists (events w1). unfold events. cbn.
    rewrite !map_app, <- !app_assoc. reflexivity.
Qed.

Lemma status_line_survives_late_failure_witness :
  let response :=
    chunked_response "0"
      [ascii_bytes "late"; ascii_bytes "fail"; ascii_bytes "ure!"] in
  let responseCallback : Responder := fun _ => Fulfilled response in
  let w' := snd (startXhrWithResponseCallback responseCallback
                   initial_world) in
  responseCallback (abortController (patch initial_world)) =
    Fulfilled response /\
  status (patch w') = Some 200 /\
  statusText (patch w') = Some "OK" /\
  (responseUrl (patch w') = Some "https://example.com/data" /\
   last (events w') = Some (Ev "loadend") \/
   responseUrl (patch w') = responseUrl (patch initial_world) /\
   exists before,
     events w' = before ++ [Ev "error"; Ev "readystatechange"]).
Proof.
  intros response responseCallback w'.
  split; [reflexivity|].
  exact (status_line_survives_late_failure responseCallback initial_world
           response eq_refl).
Defined.

(** ** Bodies that fit the first buffer *)

Lemma write_at_length src : forall i l,
  length (write_at i src l) = length l.
Proof.
  induction src as [|b src IH]; intros i l; cbn [write_at]; [reflexivity|].
  rewrite IH. apply length_insert.
Qed.

Lemma write_at_app a : forall b i l,
  write_at i (a ++ b) l = write_at (i + length a) b (write_at i a l).
Proof.
  induction a as [|x a IH]; intros b i l; cbn [write_at app length].
  - now rewrite Nat.add_0_r.
  - rewrite IH. f_equal. lia.
Qed.

Lemma write_at_spec src : forall i l,
  i + length src <= length l ->
  write_at i src l = take i l ++ src ++ drop (i + length src) l.
Proof.
  induction src as [|b src IH]; intros i l H; cbn [write_at length] in *.
  - rewrite Nat.add_0_r. cbn [app]. symmetry. apply take_drop.
  - rewrite IH by (rewrite length_insert; lia).
    rewrite (take_S_r _ _ b) by (apply list_lookup_insert_eq; lia).
    rewrite take_insert_ge by lia.
    rewrite drop_insert_lt by lia.
    rewrite <- app_assoc. cbn [app].
    replace (S i + length src) with (i + S (length src)) by lia.
    reflexivity.
Qed.

(** The body loop when all that is left to read fits the first buffer: no
    second buffer is made, and the chunks end up one after the other. *)
Lemma read_loop_within buf : forall pending offset content w,
  heap w !! buffer buf = Some content ->
  offset + length (concat (omap id pending)) <= byteLength buf ->
  exists w',
    read_loop buf pending Closed offset w =
      (Normal (offset + length (concat (omap id pending))), w') /\
    heap w' !! buffer buf =
      Some (write_at (byteOffset buf + offset)
              (concat (omap id pending)) content) /\
    length (heap w') = length (heap w) /\
    (omap id pending = [] /\ patch w' = patch w \/
     responseBufferInternal (patch w') = Some buf /\
     responseBuffer (patch w') =
       Some (subarray0 buf
               (offset + length (concat (omap id pending))))).
Proof.
  induction pending as [|[value|] pending IH];
    intros offset content w Hheap Hfit.
  - exists w. cbn. rewrite Nat.add_0_r. auto 10.
  - cbn [omap list_omap id concat] in *. rewrite length_app in Hfit.
    cbn [read_loop].
    destruct (decide (byteLength buf < offset + length value)); [lia|].
    unfold assign at 1. rewrite bind_update.
    unfold bind at 1, read at 1.
    cbn [patch with_patch responseBufferInternal
         set_responseBufferInternal].
    unfold bind at 1, set_bytes at 1, Uint8Array_set.
    cbn [heap with_patch].
    destruct (decide (offset + length value <= byteLength buf)); [|lia].
    unfold assign, logger_log, dispatchEvent. rewrite !bind_update.
    match goal with |- context [read_loop _ _ _ _ ?wn] =>
      set (w1 := wn) end.
    destruct (IH (offset + length value)
                (write_at (byteOffset buf + offset) value content) w1)
      as (w' & Hrun & Hh & Hlen & Hp).
    + change (heap w1) with
        (alter (write_at (byteOffset buf + offset) value) (buffer buf)
           (heap w)).
      unfold Heap in *. rewrite list_lookup_alter_eq, Hheap. reflexivity.
    + lia.
    + exists w'. rewrite Hrun, Hh, Hlen, write_at_app, length_app.
      rewrite !Nat.add_assoc. repeat split.
      * change (heap w1) with
          (alter (write_at (byteOffset buf + offset) value) (buffer buf)
             (heap w)).
        apply length_alter.
      * right. destruct Hp as [[Hnil Hpatch]|[Hint Hbuf]].
        -- rewrite Hpatch, Hnil. subst w1. cbn. rewrite Nat.add_0_r. auto.
        -- rewrite Hint, Hbuf. auto.
  - cbn [omap list_omap id] in *. cbn [read_loop]. apply IH; assumption.
Qed.

(** The [try] block once the responder has fulfilled and the first buffer
    has its length: what is left is the reader and the body loop. *)
Lemma try_block_fulfilled responseCallback w response capacity :
  responseCallback (abortController (patch w)) = Fulfilled response ->
  initial_capacity response = Normal capacity ->
  let buf := {| buffer := length (heap w); byteOffset := 0;
                byteLength := capacity |} in
  exists w2,
    heap w2 = heap w ++ [replicate capacity Byte.x00] /\
    patch w2 =
      set_statusText (Some (Response.statusText response))
        (set_status (Some (Response.status response))
           (set_readyState (Some 2) (patch w))) /\
    (exists d, dispatched w2 = dispatched w ++ [d] /\
               event d = Ev "loadstart") /\
    match getReader (Response.body response) with
    | Throw e => try_block responseCallback w = (Throw e, w2)
    | Normal reader =>
        let w3 := with_patch (set_response (Some response) (patch w2)) w2 in
        match match reader with
              | Some stream => read_loop buf (reads stream) (ending stream) 0
              | None => ret 0
              end w3 with
        | (Throw e, w4) => try_block responseCallback w = (Throw e, w4)
        | (Normal offset, w4) =>
            exists w',
              try_block responseCallback w = (Normal tt, w') /\
              heap w' = heap w4 /\
              patch w' =
                set_responseUrl (Some (Response.url response))
                  (set_readyState (Some 4)
                     (set_responseBufferInternal
                        ((fun internal => subarray0 internal offset)
                           <$> responseBufferInternal (patch w4))
                        (patch w4))) /\
              events w' =
                events w4 ++
                [Ev "load"; Ev "readystatechange"; Ev "loadend"]
        end
    end.
Proof.
  intros Hful Hcap buf.
  destruct (try_block responseCallback w) as [c w'] eqn:Htry.
  unfold try_block in Htry.
  unfold bind at 1, read at 1 in Htry. rewrite Hful in Htry.
  unfold bind at 1, lift at 1 in Htry.
  unfold assign at 1 2 3, logger_log at 1, dispatchEvent at 1 in Htry.
  rewrite !bind_update in Htry.
  unfold bind at 1, lift at 1 in Htry. rewrite Hcap in Htry.
  unfold bind at 1, new_Uint8Array at 1, Uint8Array_new in Htry.
  cbn [heap with_dispatched with_logs with_patch] in Htry.
  match type of Htry with context [with_heap ?h ?wn] =>
    exists (with_heap h wn) end.
  split; [reflexivity|]. split; [reflexivity|].
  split; [eexists; split; reflexivity|].
  unfold bind at 1, lift at 1 in Htry.
  destruct (getReader (Response.body response)) as [reader|e];
    [|symmetry; exact Htry].
  unfold assign at 1 in Htry. rewrite bind_update in Htry.
  unfold bind at 1 in Htry. cbv zeta.
  match goal with |- match ?m with _ => _ end => set (run := m) end.
  match type of Htry with (let (_, _) := ?m' in _) = _ =>
    change m' with run in Htry end.
  destruct run as [[offset|e] w4].
  - unfold assign, logger_log, dispatchEvent in Htry.
    rewrite !bind_update in Htry. injection Htry as <- <-.
    eexists. split; [reflexivity|]. split; [reflexivity|].
    split; [reflexivity|]. unfold events. cbn.
    rewrite !map_app, <- !app_assoc. reflexivity.
  - symmetry. exact Htry.
Qed.

(** X16.  When the responder fulfils with a response whose body stream is
    free, delivers at least one chunk, closes, and delivers in all no more
    bytes than the first buffer holds, the run ends with both response
    buffers being one view that holds exactly the bytes of the body, in
    order, and with [readyState] 4. *)
Theorem body_within_capacity_is_delivered (responseCallback : Responder)
    (w : World) (response : Response.t) (stream : ReadableStream)
    (capacity : nat) :
  responseCallback (abortController (patch w)) = Fulfilled response ->
  initial_capacity response = Normal capacity ->
  Response.body response = Some stream ->
  locked stream = false ->
  ending stream = Closed ->
  chunks_of stream <> [] ->
  length (body_bytes response) <= capacity ->
  let w' := snd (startXhrWithResponseCallback responseCallback w) in
  exists view,
    responseBuffer (patch w') = Some view /\
    responseBufferInternal (patch w') = Some view /\
    view_bytes (heap w') view = body_bytes response /\
    readyState (patch w') = Some 4.
Proof.
  intros Hful Hcap Hbody Hfree Hend Hchunks Hfit w'. subst w'.
  unfold startXhrWithResponseCallback.
  rewrite (bind_normal _ _ _ _ _ (before_try_run w)).
  set (w0 := with_dispatched _ _).
  destruct (try_block_fulfilled responseCallback w0 response capacity
              Hful Hcap) as (w2 & Hh2 & Hp2 & _ & Hrest).
  unfold getReader in Hrest. rewrite Hbody, Hfree, Hend in Hrest.
  cbv zeta in Hrest.
  unfold body_bytes in *. rewrite Hbody in *. unfold chunks_of in Hchunks.
  set (buf := {| buffer := length (heap w0); byteOffset := 0;
                 byteLength := capacity |}) in *.
  set (w3 := with_patch _ w2) in *.
  destruct (read_loop_within buf (reads stream) 0
              (replicate capacity Byte.x00) w3)
    as (w4 & Hrun & Hh4 & _ & Hp4).
  { change (heap w3) with (heap w2). rewrite Hh2.
    apply list_lookup_middle. reflexivity. }
  { exact Hfit. }
  rewrite Hrun in Hrest. destruct Hrest as (w' & Htry & Hheap' & Hpatch' & _).
  unfold try_catch. rewrite Htry. cbn [snd].
  destruct Hp4 as [[Hnil _]|[Hint Hbuf]]; [contradiction|].
  cbn [plus] in *.
  exists (subarray0 buf (length (concat (omap id (reads stream))))).
  rewrite Hpatch'.
  cbn [responseBuffer responseBufferInternal readyState set_responseUrl
       set_readyState set_responseBufferInternal].
  rewrite Hint. split; [exact Hbuf|]. split; [reflexivity|].
  split; [|reflexivity].
  unfold view_bytes, subarray0.
  cbn [buffer byteOffset byteLength buf]. rewrite Hheap'.
  unfold Heap in *. change (length (heap w0)) with (buffer buf).
  rewrite Hh4. cbn [default drop plus buf byteOffset].
  rewrite write_at_spec by (rewrite length_replicate; exact Hfit).
  cbn [take app plus]. rewrite Nat.min_l by exact Hfit.
  change (drop 0 (id ?l)) with l. rewrite take_0. cbn [app].
  apply take_app_length.
Qed.

Lemma body_within_capacity_is_delivered_witness :
  let responseCallback : Responder := fun _ => Fulfilled hello_response in
  let stream := {| locked := false;
                   reads := [Some (ascii_bytes "Hello from the hook!")];
                   ending := Closed |} in
  let w' := snd (startXhrWithResponseCallback responseCallback
                   initial_world) in
  length (body_bytes hello_response) <= 20 /\
  exists view,
    responseBuffer (patch w') = Some view /\
    responseBufferInternal (patch w') = Some view /\
    view_bytes (heap w') view = body_bytes hello_response /\
    readyState (patch w') = Some 4.
Proof.
  intros responseCallback stream w'.
  assert (Hfit : length (body_bytes hello_response) <= 20)
    by (vm_compute; lia).
  split; [exact Hfit|].
  apply (body_within_capacity_is_delivered responseCallback initial_world
           hello_response stream 20);
    first [reflexivity | discriminate | exact Hfit].
Defined.

(** ** Runs that read no body *)

(** The [try] block when the length of the first buffer cannot be had. *)
Lemma try_block_no_capacity responseCallback w response e :
  responseCallback (abortController (patch w)) = Fulfilled response ->
  initial_capacity response = Throw e ->
  exists w2,
    try_block responseCallback w = (Throw e, w2) /\
    heap w2 = heap w /\
    patch w2 =
      set_statusText (Some (Response.statusText response))
        (set_status (Some (Response.status response))
           (set_readyState (Some 2) (patch w))) /\
    (exists d, dispatched w2 = dispatched w ++ [d] /\
               event d = Ev "loadstart").
Proof.
  intros Hful Hcap.
  destruct (try_block responseCallback w) as [c w'] eqn:Htry.
  unfold try_block in Htry.
  unfold bind at 1, read at 1 in Htry. rewrite Hful in Htry.
  unfold bind at 1, lift at 1 in Htry.
  unfold assign at 1 2 3, logger_log at 1, dispatchEvent at 1 in Htry.
  rewrite !bind_update in Htry.
  unfold bind at 1, lift at 1 in Htry. rewrite Hcap in Htry.
  injection Htry as <- <-.
  eexists. split; [reflexivity|]. split; [reflexivity|].
  split; [reflexivity|]. eexists. split; reflexivity.
Qed.

(** X17.  When the responder fulfils with a response that has no body and
    the first buffer can be made (the declared length, if there is one, is
    a length an array can have), the run stores the response and ends at
    [readyState] 4, but leaves
    [responseBuffer] as it was, cuts the internal buffer (when there is one)
    down to no bytes, and only adds the unused first buffer to the store of
    array buffers: a body buffer left by an earlier run on the same object
    stays in place. *)
Theorem bodyless_response_keeps_previous_body (responseCallback : Responder)
    (w : World) (reply : Response.t) (capacity : nat) :
  responseCallback (abortController (patch w)) = Fulfilled reply ->
  initial_capacity reply = Normal capacity ->
  Response.body reply = None ->
  let w' := snd (startXhrWithResponseCallback responseCallback w) in
  response (patch w') = Some reply /\
  responseBuffer (patch w') = responseBuffer (patch w) /\
  responseBufferInternal (patch w') =
    (fun internal => subarray0 internal 0)
      <$> responseBufferInternal (patch w) /\
  heap w' = heap w ++ [replicate capacity Byte.x00] /\
  readyState (patch w') = Some 4 /\
  events w' =
    events w ++
    [Ev "readystatechange"; Ev "loadstart"; Ev "load";
     Ev "readystatechange"; Ev "loadend"].
Proof.
  intros Hful Hcap Hbody w'. subst w'.
  unfold startXhrWithResponseCallback.
  rewrite (bind_normal _ _ _ _ _ (before_try_run w)).
  set (w0 := with_dispatched _ _).
  destruct (try_block_fulfilled responseCallback w0 reply capacity
              Hful Hcap) as (w2 & Hh2 & Hp2 & (d & Hd2 & Hev) & Hrest).
  rewrite Hbody in Hrest. cbn [getReader] in Hrest. cbv zeta in Hrest.
  unfold ret in Hrest. destruct Hrest as (w' & Htry & Hheap' & Hpatch' & He).
  unfold try_catch. rewrite Htry. cbn [snd].
  rewrite Hpatch', Hheap', He. cbn [heap patch with_patch].
  rewrite Hh2, Hp2. unfold events. cbn [dispatched with_patch].
  rewrite Hd2, !map_app. cbn [map]. rewrite Hev.
  repeat split. subst w0. cbn. rewrite !map_app, <- !app_assoc. reflexivity.
Qed.

Lemma bodyless_response_keeps_previous_body_witness :
  let responseCallback : Responder := fun _ => Fulfilled empty_response in
  let w := finished_world in
  let w' := snd (startXhrWithResponseCallback responseCallback w) in
  initial_capacity empty_response = Normal default_capacity /\
  Response.body empty_response = None /\
  response (patch w') = Some empty_response /\
  responseBuffer (patch w') = responseBuffer (patch w) /\
  responseBufferInternal (patch w') =
    (fun internal => subarray0 internal 0)
      <$> responseBufferInternal (patch w) /\
  heap w' = heap w ++ [replicate default_capacity Byte.x00] /\
  readyState (patch w') = Some 4 /\
  events w' =
    events w ++
    [Ev "readystatechange"; Ev "loadstart"; Ev "load";
     Ev "readystatechange"; Ev "loadend"].
Proof.
  intros responseCallback w w'.
  split; [reflexivity|]. split; [reflexivity|].
  exact (bodyless_response_keeps_previous_body responseCallback w
           empty_response default_capacity eq_refl eq_refl eq_refl).
Defined.

(** X18.  When the responder fulfils with a response but the length of the
    first buffer cannot be had or the reader of the body cannot be taken,
    the run fails after the load start: it dispatches a readiness change, a
    load start, an error and a readiness change, leaves the status line of
    the response and [readyState] 4 on the object, and stores neither the
    response nor any body buffer. *)
Theorem failure_before_body_stores_no_response (responseCallback : Responder)
    (w : World) (reply : Response.t) (e : JsError) :
  responseCallback (abortController (patch w)) = Fulfilled reply ->
  initial_capacity reply = Throw e \/
  getReader (Response.body reply) = Throw e ->
  let w' := snd (startXhrWithResponseCallback responseCallback w) in
  response (patch w') = response (patch w) /\
  responseBuffer (patch w') = responseBuffer (patch w) /\
  responseBufferInternal (patch w') = responseBufferInternal (patch w) /\
  responseUrl (patch w') = responseUrl (patch w) /\
  status (patch w') = Some (Response.status reply) /\
  statusText (patch w') = Some (Response.statusText reply) /\
  readyState (patch w') = Some 4 /\
  events w' =
    events w ++
    [Ev "readystatechange"; Ev "loadstart"; Ev "error";
     Ev "readystatechange"].
Proof.
  intros Hful Hfail w'. subst w'.
  unfold startXhrWithResponseCallback.
  rewrite (bind_normal _ _ _ _ _ (before_try_run w)).
  set (w0 := with_dispatched _ _).
  assert (Hrun : exists e' w2,
            try_block responseCallback w0 = (Throw e', w2) /\
            patch w2 =
              set_statusText (Some (Response.statusText reply))
                (set_status (Some (Response.status reply))
                   (set_readyState (Some 2) (patch w0))) /\
            exists d, dispatched w2 = dispatched w0 ++ [d] /\
                      event d = Ev "loadstart").
  { destruct (initial_capacity reply) as [capacity|e'] eqn:Hcap.
    - destruct Hfail as [Hfail|Hfail]; [discriminate|].
      destruct (try_block_fulfilled responseCallback w0 reply capacity
                  Hful Hcap) as (w2 & _ & Hp2 & Hd2 & Hrest).
      rewrite Hfail in Hrest. eauto.
    - destruct (try_block_no_capacity responseCallback w0 reply e'
                  Hful Hcap) as (w2 & Htry & _ & Hp2 & Hd2).
      eauto. }
  destruct Hrun as (e' & w2 & Htry & Hp2 & d & Hd2 & Hev).
  unfold try_catch. rewrite Htry.
  unfold catch_block, logger_error, assign, dispatchEvent.
  rewrite !bind_update. unfold update. cbn [snd]. unfold events.
  cbn [patch dispatched with_dispatched with_patch with_logs].
  rewrite Hp2, Hd2, !map_app. cbn [map]. rewrite Hev.
  repeat split. subst w0. cbn. rewrite !map_app, <- !app_assoc. reflexivity.
Qed.

Lemma failure_before_body_stores_no_response_witness :
  let reply := chunked_response "-1" [ascii_bytes "never read"] in
  let responseCallback : Responder := fun _ => Fulfilled reply in
  let w := finished_world in
  let w' := snd (startXhrWithResponseCallback responseCallback w) in
  (initial_capacity reply = Throw RangeError \/
   getReader (Response.body reply) = Throw RangeError) /\
  response (patch w') = response (patch w) /\
  responseBuffer (patch w') = responseBuffer (patch w) /\
  responseBufferInternal (patch w') = responseBufferInternal (patch w) /\
  responseUrl (patch w') = responseUrl (patch w) /\
  status (patch w') = Some 200 /\
  statusText (patch w') = Some "OK" /\
  readyState (patch w') = Some 4 /\
  events w' =
    events w ++
    [Ev "readystatechange"; Ev "loadstart"; Ev "error";
     Ev "readystatechange"].
Proof.
  intros reply responseCallback w w'.
  assert (H : initial_capacity reply = Throw RangeError \/
              getReader (Response.body reply) = Throw RangeError)
    by (left; vm_compute; reflexivity).
  split; [exact H|].
  exact (failure_before_body_stores_no_response responseCallback w reply
           RangeError eq_refl H).
Defined.

(** ** The header listing *)

Lemma read_loop_response v buffer pending ending : forall offset,
  preserves (fun w => response (patch w) = v)
            (read_loop buffer pending ending offset).
Proof.
  induction pending as [|[value|] pending IH]; intros offset; cbn [read_loop].
  - destruct ending; preserve_steps.
  - apply preserves_bind.
    + destruct (decide (byteLength buffer < offset + length value));
        unfold assign; preserve_steps; assumption.
    + intros _. apply preserves_bind; [apply preserves_read|]. intros p.
      destruct (responseBufferInternal p) as [internal|].
      * unfold assign, logger_log, dispatchEvent.
        repeat (apply preserves_bind; [preserve_steps; assumption|intros _]).
        apply IH.
      * preserve_steps.
  - apply IH.
Qed.

Lemma read_loop_answered buffer pending ending offset :
  preserves answered (read_loop buffer pending ending offset).
Proof.
  intros w [r Hr]. exists r.
  now apply (read_loop_response (Some r)).
Qed.

Lemma startXhrWithResponseCallback_answered responseCallback :
  preserves answered (startXhrWithResponseCallback responseCallback).
Proof.
  unfold startXhrWithResponseCallback.
  apply preserves_bind.
  { unfold before_try, assign, logger_log, dispatchEvent.
    preserve_steps; assumption. }
  intros _. apply preserves_try_catch.
  - unfold try_block.
    apply preserves_bind; [apply preserves_read|]. intros p.
    apply preserves_bind; [apply preserves_lift|]. intros reply.
    unfold assign, logger_log, dispatchEvent.
    do 5 (apply preserves_bind; [preserve_steps; assumption|intros _]).
    apply preserves_bind; [apply preserves_lift|]. intros capacity.
    apply preserves_bind; [preserve_steps; assumption|]. intros buffer.
    apply preserves_bind; [apply preserves_lift|]. intros reader.
    apply preserves_bind; [preserve_steps; eexists; reflexivity|]. intros _.
    apply preserves_bind.
    { destruct reader as [stream|];
        [apply read_loop_answered|preserve_steps]. }
    intros offset. preserve_steps; assumption.
  - intros e. unfold catch_block, assign, logger_error, dispatchEvent.
    preserve_steps; assumption.
Qed.

Lemma trial_answered request entries :
  preserves answered (trial request entries).
Proof.
  induction entries as [|[name hook] entries IH]; cbn [trial].
  - apply preserves_ret.
  - unfold logger_log, call_hook.
    apply preserves_bind; [preserve_steps; assumption|intros _].
    apply preserves_bind; [preserve_steps; assumption|intros answer].
    destruct answer; [preserve_steps; assumption|].
    apply preserves_bind; [preserve_steps; assumption|intros _]. exact IH.
Qed.

Section Listing.

Variable location_origin : string.
Variable URL_new : string -> string -> Completion string.

Local Abbreviation send' := (send location_origin URL_new).
Local Abbreviation run_xhr_call' := (run_xhr_call location_origin URL_new).
Local Abbreviation run_xhr_calls' := (run_xhr_calls location_origin URL_new).

Lemma send_answered body : preserves answered (send' body).
Proof.
  unfold send.
  apply preserves_bind; [apply preserves_read|]. intros p.
  apply preserves_bind; [apply preserves_lift|]. intros request.
  apply preserves_bind; [apply preserves_read|]. intros registry.
  apply preserves_bind; [apply trial_answered|]. intros [r|].
  - apply startXhrWithResponseCallback_answered.
  - unfold logger_log, Reflect_apply. preserve_steps; assumption.
Qed.

Lemma run_xhr_call_answered c : preserves answered (run_xhr_call' c).
Proof.
  destruct c as [m u rest|name value| |body]; cbn [run_xhr_call].
  - intros w Hw. rewrite open_run. exact Hw.
  - unfold setRequestHeader.
    apply preserves_bind; [apply preserves_read|]. intros p.
    destruct (headers p); unfold assign, Reflect_apply;
      preserve_steps; assumption.
  - intros w Hw. rewrite abort_run. exact Hw.
  - apply send_answered.
Qed.

Lemma run_xhr_calls_answered cs : forall w,
  answered w -> answered (run_xhr_calls' cs w).
Proof.
  induction cs as [|c cs IH]; intros w Hw; [exact Hw|].
  change (run_xhr_calls' (c :: cs) w)
    with (run_xhr_calls' cs (snd (run_xhr_call' c w))).
  apply IH. now apply run_xhr_call_answered.
Qed.

(** X19.  Once a response is stored on a request object, it stays stored
    whatever calls of [open], [setRequestHeader], [abort] and [send] follow
    and whatever the registered hooks and their responders do: from then on
    [getAllResponseHeaders] answers with the listing of a stored response
    and never with what the original method returns. *)
Theorem answered_object_never_lists_native_headers (w : World)
    (cs : list XhrCall) :
  answered w ->
  let w' := run_xhr_calls' cs w in
  exists r,
    response (patch w') = Some r /\
    forall target, getAllResponseHeaders w' target = header_listing r.
Proof.
  intros Hw w'.
  destruct (run_xhr_calls_answered cs w Hw) as [r Hr]. fold w' in Hr.
  exists r. split; [exact Hr|]. intros target.
  unfold getAllResponseHeaders. now rewrite Hr.
Qed.

(** X20.  As long as no registered hook answers a request that is sent,
    [getAllResponseHeaders] answers after any calls of [open],
    [setRequestHeader], [abort] and [send] what it answered before them:
    the listing of the response an earlier hooked run stored, if there was
    one, and else what the original method returns. *)
Theorem header_listing_outlives_the_request (w : World) (cs : list XhrCall)
    (target : string) :
  calls_pass location_origin URL_new cs w ->
  getAllResponseHeaders (run_xhr_calls' cs w) target =
    getAllResponseHeaders w target.
Proof.
  intros Hpass.
  pose proof (passing_calls location_origin URL_new cs w Hpass) as H.
  unfold emulation_state in H. injection H as _ _ _ H _ _ _ _ _ _ _.
  unfold getAllResponseHeaders. now rewrite H.
Qed.

End Listing.

(** X21.  When the responder fulfils with a response, the first buffer is
    made and the reader of the body is taken, the run stores the response
    whether the body is then read to its end or not: afterwards
    [getAllResponseHeaders] answers with the listing of the headers of that
    response, one [name: value] line per entry joined by CR LF, whatever
    the original method returns. *)
Theorem header_listing_of_answered_request (responseCallback : Responder)
    (w : World) (reply : Response.t) (capacity : nat)
    (reader : option ReadableStream) (target : string) :
  responseCallback (abortController (patch w)) = Fulfilled reply ->
  initial_capacity reply = Normal capacity ->
  getReader (Response.body reply) = Normal reader ->
  let w' := snd (startXhrWithResponseCallback responseCallback w) in
  response (patch w') = Some reply /\
  getAllResponseHeaders w' target =
    join CRLF (map (fun kv => fst kv +:+ ": " +:+ snd kv)
                   (Headers_entries (Response.headers reply))).
Proof.
  intros Hful Hcap Hreader w'.
  assert (H : response (patch w') = Some reply).
  { subst w'. unfold startXhrWithResponseCallback.
    rewrite (bind_normal _ _ _ _ _ (before_try_run w)).
    set (w0 := with_dispatched _ _).
    destruct (try_block_fulfilled responseCallback w0 reply capacity
                Hful Hcap) as (w2 & _ & _ & _ & Hrest).
    rewrite Hreader in Hrest. cbv zeta in Hrest.
    set (w3 := with_patch _ w2) in *.
    set (loop := match reader with
                 | Some stream => _
                 | None => ret 0
                 end) in *.
    assert (Hloop : response (patch (snd (loop w3))) = Some reply).
    { subst loop. destruct reader as [stream|]; [|reflexivity].
      now apply (read_loop_response (Some reply)). }
    destruct (loop w3) as [[offset|e] w4]; cbn [snd] in Hloop.
    - destruct Hrest as (w1 & Htry & _ & Hpatch & _).
      unfold try_catch. rewrite Htry. cbn [snd]. rewrite Hpatch.
      exact Hloop.
    - unfold try_catch. rewrite Hrest.
      unfold catch_block, logger_error, assign, dispatchEvent.
      rewrite !bind_update. exact Hloop. }
  split; [exact H|]. unfold getAllResponseHeaders. now rewrite H.
Qed.

Lemma answered_object_never_lists_native_headers_witness :
  let w := finished_world in
  let w' := run_xhr_calls Demo.location_origin Demo.URL_new
              [XOpen "GET" "/next" []; XSend None; XAbort] w in
  answered w /\
  exists r,
    response (patch w') = Some r /\
    forall target, getAllResponseHeaders w' target = header_listing r.
Proof.
  intros w w'.
  assert (H : answered w) by (exists hello_response; vm_compute; reflexivity).
  split; [exact H|].
  exact (answered_object_never_lists_native_headers Demo.location_origin
           Demo.URL_new w
           [XOpen "GET" "/next" []; XSend None; XAbort] H).
Defined.

Lemma header_listing_outlives_the_request_witness :
  let w := Demo.exec (open "GET" "/hooked" [];; Demo.send None)
             selective_world in
  let cs := [XOpen "GET" "/next" []; XSend None] in
  let w' := run_xhr_calls Demo.location_origin Demo.URL_new cs w in
  calls_pass Demo.location_origin Demo.URL_new cs w /\
  map fst (hooks w) = ["a"] /\
  getAllResponseHeaders w' "native" = getAllResponseHeaders w "native" /\
  getAllResponseHeaders w "native" = "content-length: 20" /\
  nativeCalls w' =
    [NativeOpen "GET" "/hooked" []; NativeOpen "GET" "/next" [];
     NativeSend [None]].
Proof.
  intros w cs w'.
  assert (H : calls_pass Demo.location_origin Demo.URL_new cs w)
    by (vm_compute; repeat split; repeat constructor).
  split; [exact H|]. split; [vm_compute; reflexivity|].
  split; [|split; vm_compute; reflexivity].
  exact (header_listing_outlives_the_request Demo.location_origin
           Demo.URL_new w cs "native" H).
Defined.

Lemma header_listing_of_answered_request_witness :
  let responseCallback : Responder := fun _ => Fulfilled hello_response in
  let w' := snd (startXhrWithResponseCallback responseCallback
                   initial_world) in
  initial_capacity hello_response = Normal 20 /\
  response (patch w') = Some hello_response /\
  getAllResponseHeaders w' "native" =
    join CRLF (map (fun kv => fst kv +:+ ": " +:+ snd kv)
                   (Headers_entries (Response.headers hello_response))).
Proof.
  intros responseCallback w'.
  assert (Hcap : initial_capacity hello_response = Normal 20)
    by (vm_compute; reflexivity).
  split; [exact Hcap|].
  exact (header_listing_of_answered_request responseCallback initial_world
           hello_response 20 _ "native" eq_refl Hcap eq_refl).
Defined.

(** ** Bodies whose last chunk outgrows the first buffer *)

Lemma read_loop_nothing buf : forall pending offset w,
  omap id pending = [] ->
  read_loop buf pending Closed offset w = (Normal offset, w).
Proof.
  induction pending as [|[value|] pending IH]; intros offset w Hnone;
    cbn [omap list_omap id] in Hnone.
  - reflexivity.
  - discriminate.
  - cbn [read_loop]. now apply IH.
Qed.

(** One round of the body loop that makes the second buffer: the first
    buffer is copied to its front and the chunk is written behind the bytes
    received so far. *)
Lemma read_loop_grows buf content value pending offset w :
  heap w !! buffer buf = Some content ->
  byteOffset buf = 0 ->
  length content = byteLength buf ->
  offset <= byteLength buf < offset + length value ->
  omap id pending = [] ->
  let grown := {| buffer := length (heap w); byteOffset := 0;
                  byteLength := (byteLength buf + length value) * 2 |} in
  exists w',
    read_loop buf (Some value :: pending) Closed offset w =
      (Normal (offset + length value), w') /\
    responseBufferInternal (patch w') = Some grown /\
    responseBuffer (patch w') =
      Some (subarray0 grown (offset + length value)) /\
    view_bytes (heap w') (subarray0 grown (offset + length value)) =
      take offset content ++ value.
Proof.
  intros Hheap Hzero Hlen [Hle Hlt] Hnone grown.
  assert (Hin : buffer buf < length (heap w))
    by (apply lookup_lt_is_Some; eauto).
  cbn [read_loop].
  destruct (decide (byteLength buf < offset + length value)); [|lia].
  unfold bind at 1. unfold bind at 1, new_Uint8Array at 1, Uint8Array_new.
  fold grown. cbv beta iota zeta.
  unfold bind at 1, set_from at 1, Uint8Array_set. cbn [heap with_heap].
  assert (Hview : view_bytes (heap w ++ [replicate (byteLength grown)
                                           Byte.x00]) buf = content).
  { unfold view_bytes. unfold Heap in *.
    rewrite lookup_app_l by exact Hin. rewrite Hheap, Hzero. cbn [default].
    change (drop 0 ?l) with l. rewrite <- Hlen. apply firstn_all. }
  cbn [byteLength grown] in Hview |- *. rewrite Hview.
  destruct (decide (0 + length content <=
                    (byteLength buf + length value) * 2)); [|lia].
  unfold assign at 1, update at 1. cbv beta iota.
  unfold bind at 1, read at 1.
  cbn [patch with_patch with_heap responseBufferInternal
       set_responseBufferInternal].
  unfold bind at 1, set_bytes at 1, Uint8Array_set.
  cbn [heap with_patch with_heap byteLength byteOffset buffer grown].
  destruct (decide (offset + length value <=
                    (byteLength buf + length value) * 2)); [|lia].
  unfold assign, logger_log, dispatchEvent. rewrite !bind_update.
  rewrite read_loop_nothing by exact Hnone.
  eexists. split; [reflexivity|].
  cbn [patch heap with_patch with_heap with_logs with_dispatched
       responseBufferInternal responseBuffer set_responseBuffer
       set_readyState set_responseBufferInternal].
  split; [reflexivity|]. split; [reflexivity|].
  unfold view_bytes, subarray0.
  cbn [buffer byteOffset byteLength grown]. unfold Heap in *.
  rewrite !list_lookup_alter_eq.
  rewrite lookup_app_r by lia. rewrite Nat.sub_diag. cbn [lookup list_lookup].
  cbn [fmap option_fmap option_map default plus].
  change (drop 0 ?l) with l.
  rewrite Nat.min_l by lia.
  rewrite (write_at_spec content 0)
    by (rewrite length_replicate; cbn [plus]; lia).
  change (id ?l) with l. rewrite take_0. cbn [app plus].
  set (rest := drop (length content) (replicate _ Byte.x00)).
  assert (Hrest : length content + length rest =
                  (byteLength buf + length value) * 2)
    by (subst rest; rewrite length_drop, length_replicate; lia).
  rewrite write_at_spec by (rewrite length_app; lia).
  rewrite (take_app_le content rest offset) by lia.
  rewrite app_assoc. apply take_app_length'.
  rewrite length_app, length_take. lia.
Qed.

(** One round of the body loop for a chunk that fits the first buffer. *)
Lemma read_loop_fits buf content value pending ending offset w :
  heap w !! buffer buf = Some content ->
  offset + length value <= byteLength buf ->
  exists w1,
    read_loop buf (Some value :: pending) ending offset w =
      read_loop buf pending ending (offset + length value) w1 /\
    heap w1 !! buffer buf =
      Some (write_at (byteOffset buf + offset) value content).
Proof.
  intros Hheap Hfit. cbn [read_loop].
  destruct (decide (byteLength buf < offset + length value)); [lia|].
  unfold assign at 1. rewrite bind_update.
  unfold bind at 1, read at 1.
  cbn [patch with_patch responseBufferInternal set_responseBufferInternal].
  unfold bind at 1, set_bytes at 1, Uint8Array_set.
  cbn [heap with_patch].
  destruct (decide (offset + length value <= byteLength buf)); [|lia].
  unfold assign, logger_log, dispatchEvent. rewrite !bind_update.
  eexists. split; [reflexivity|].
  cbn [heap with_patch with_heap with_logs with_dispatched].
  unfold Heap in *. now rewrite list_lookup_alter_eq, Hheap.
Qed.

(** The body loop when every chunk but the last fits the first buffer. *)
Lemma read_loop_last_overflow buf : forall pending offset content w front lastc,
  omap id pending = front ++ [lastc] ->
  heap w !! buffer buf = Some content ->
  byteOffset buf = 0 ->
  length content = byteLength buf ->
  offset + length (concat front) <= byteLength buf
    < offset + length (concat front) + length lastc ->
  exists w' grown,
    read_loop buf pending Closed offset w =
      (Normal (offset + length (concat front) + length lastc), w') /\
    responseBufferInternal (patch w') = Some grown /\
    responseBuffer (patch w') =
      Some (subarray0 grown
              (offset + length (concat front) + length lastc)) /\
    view_bytes (heap w')
      (subarray0 grown (offset + length (concat front) + length lastc)) =
      take offset content ++ concat front ++ lastc.
Proof.
  induction pending as [|[value|] pending IH];
    intros offset content w front lastc Hsplit Hheap Hzero Hlen [Hle Hlt];
    cbn [omap list_omap id] in Hsplit.
  - now destruct front.
  - destruct front as [|first front].
    + cbn [app] in Hsplit. injection Hsplit as -> Hnone.
      cbn [concat length] in *. rewrite Nat.add_0_r in *.
      destruct (read_loop_grows buf content lastc pending offset w
                  Hheap Hzero Hlen (conj Hle Hlt) Hnone)
        as (w' & Hrun & Hint & Hbuf & Hview).
      eauto 10.
    + cbn [app] in Hsplit. injection Hsplit as -> Hsplit.
      cbn [concat] in *. rewrite length_app in *.
      destruct (read_loop_fits buf content first pending Closed offset w
                  Hheap) as (w1 & Hstep & Hheap1); [lia|].
      rewrite Hzero in Hheap1. cbn [plus] in Hheap1.
      destruct (IH (offset + length first) _ w1 front lastc Hsplit Hheap1
                  Hzero) as (w' & grown & Hrun & Hint & Hbuf & Hview).
      { now rewrite write_at_length. }
      { lia. }
      exists w', grown. rewrite Hstep, Hrun, Hint, !Nat.add_assoc.
      rewrite Hbuf, Hview. repeat split.
      rewrite write_at_spec by lia.
      rewrite (app_assoc (take offset content)), take_app_length'
        by (rewrite length_app, length_take; lia).
      now rewrite <- !app_assoc.
  - cbn [read_loop]. now apply IH.
Qed.

(** X22.  When the responder fulfils with a response whose body stream is
    free and closes, and every chunk but the last fits the first buffer
    while the last one does not, the second buffer is made once, from the
    first: the run ends with both response buffers being one view that
    holds exactly the bytes of the body, in order, and with [readyState]
    4. *)
Theorem last_chunk_overflow_is_delivered (responseCallback : Responder)
    (w : World) (reply : Response.t) (stream : ReadableStream)
    (capacity : nat) (front : list (list Byte.byte))
    (lastc : list Byte.byte) :
  responseCallback (abortController (patch w)) = Fulfilled reply ->
  initial_capacity reply = Normal capacity ->
  Response.body reply = Some stream ->
  locked stream = false ->
  ending stream = Closed ->
  chunks_of stream = front ++ [lastc] ->
  length (concat front) <= capacity < length (concat front) + length lastc ->
  let w' := snd (startXhrWithResponseCallback responseCallback w) in
  exists view,
    responseBuffer (patch w') = Some view /\
    responseBufferInternal (patch w') = Some view /\
    view_bytes (heap w') view = body_bytes reply /\
    readyState (patch w') = Some 4.
Proof.
  intros Hful Hcap Hbody Hfree Hend Hchunks Hfit w'. subst w'.
  unfold startXhrWithResponseCallback.
  rewrite (bind_normal _ _ _ _ _ (before_try_run w)).
  set (w0 := with_dispatched _ _).
  destruct (try_block_fulfilled responseCallback w0 reply capacity
              Hful Hcap) as (w2 & Hh2 & Hp2 & _ & Hrest).
  unfold getReader in Hrest. rewrite Hbody, Hfree, Hend in Hrest.
  cbv zeta in Hrest.
  unfold body_bytes. rewrite Hbody. unfold chunks_of in Hchunks.
  set (buf := {| buffer := length (heap w0); byteOffset := 0;
                 byteLength := capacity |}) in *.
  set (w3 := with_patch _ w2) in *.
  destruct (read_loop_last_overflow buf (reads stream) 0
              (replicate capacity Byte.x00) w3 front lastc Hchunks)
    as (w4 & grown & Hrun & Hint & Hbuf & Hview).
  { change (heap w3) with (heap w2). rewrite Hh2.
    apply list_lookup_middle. reflexivity. }
  { reflexivity. }
  { apply length_replicate. }
  { exact Hfit. }
  rewrite Hrun in Hrest. destruct Hrest as (w' & Htry & Hheap' & Hpatch' & _).
  unfold try_catch. rewrite Htry. cbn [snd].
  cbn [plus] in *.
  exists (subarray0 grown (length (concat front) + length lastc)).
  rewrite Hpatch'.
  cbn [responseBuffer responseBufferInternal readyState set_responseUrl
       set_readyState set_responseBufferInternal].
  rewrite Hint. split; [exact Hbuf|]. split; [reflexivity|].
  split; [|reflexivity].
  rewrite Hheap', Hview, Hchunks, take_0, concat_app. cbn.
  now rewrite app_nil_r.
Qed.

Lemma last_chunk_overflow_is_delivered_witness :
  let reply := chunked_response "5" [ascii_bytes "abc"; ascii_bytes "defgh"] in
  let responseCallback : Responder := fun _ => Fulfilled reply in
  let stream := {| locked := false;
                   reads := [Some (ascii_bytes "abc");
                             Some (ascii_bytes "defgh")];
                   ending := Closed |} in
  let w' := snd (startXhrWithResponseCallback responseCallback
                   initial_world) in
  length (concat [ascii_bytes "abc"]) <= 5
    < length (concat [ascii_bytes "abc"]) + length (ascii_bytes "defgh") /\
  exists view,
    responseBuffer (patch w') = Some view /\
    responseBufferInternal (patch w') = Some view /\
    view_bytes (heap w') view = ascii_bytes "abcdefgh" /\
    readyState (patch w') = Some 4.
Proof.
  intros reply responseCallback stream w'.
  assert (Hfit : length (concat [ascii_bytes "abc"]) <= 5
                 < length (concat [ascii_bytes "abc"]) +
                   length (ascii_bytes "defgh"))
    by (vm_compute; lia).
  split; [exact Hfit|].
  assert (Hcap : initial_capacity reply = Normal 5)
    by (vm_compute; reflexivity).
  exact (last_chunk_overflow_is_delivered responseCallback initial_world
           reply stream 5 [ascii_bytes "abc"] (ascii_bytes "defgh")
           eq_refl Hcap eq_refl eq_refl eq_refl eq_refl Hfit).
Defined.

(** ** Dispatch on [send], as a whole *)

Section Sending.

Variable location_origin : string.
Variable URL_new : string -> string -> Completion string.

Local Abbreviation xhrToRequest' := (xhrToRequest location_origin URL_new).
Local Abbreviation send' := (send location_origin URL_new).

(** C3, as amended.  The registry keeps insertion order (setting a new
    name puts it at the end, setting a present name keeps the order of the
    names).  When the side record does not translate to a request, [send]
    throws what the translation throws, calls no hook, forwards nothing
    and changes nothing.  When it does, [send] calls the registered hooks
    on the request in registry order.  If some hook answers, the hooks
    called are exactly those up to and including the first that answers,
    no call is forwarded to the original [send], and the state machine
    runs with that hook's responder on the instance as it was: [send]
    returns normally, the first event dispatched is a readiness change
    seen at [readyState] 1, the events take one of the three shapes of a
    run, [readyState] ends at 4, and the instance carries the status line
    of the response when the responder fulfils, while the events are a
    readiness change, an error and a readiness change when it rejects.  If
    no hook answers, every hook has been called once, in order, and the
    original [send] is called with the caller's argument, the instance
    being left as it was. *)
Theorem send_trials_in_order (w : World) (body : option BodyInit) :
  (forall name hook,
     (Map_has name (hooks w) = false ->
      Map_set name hook (hooks w) = hooks w ++ [(name, hook)]) /\
     (Map_has name (hooks w) = true ->
      map fst (Map_set name hook (hooks w)) = map fst (hooks w))) /\
  match xhrToRequest' (patch w) None with
  | Throw e => send' body w = (Throw e, w)
  | Normal request =>
      let offered := snd (trial request (hooks w) w) in
      let sent := snd (send' body w) in
      patch offered = patch w /\ heap offered = heap w /\
      dispatched offered = dispatched w /\
      match list_find (answers request) (hooks w) with
      | Some (i, (name, hook)) =>
          (forall j e, j < i -> hooks w !! j = Some e ->
                       snd e request = None) /\
          exists responder,
            hook request = Some responder /\
            hookCalls sent =
              hookCalls w ++ calls_of request (take (S i) (hooks w)) /\
            nativeCalls sent = nativeCalls w /\
            send' body w = startXhrWithResponseCallback responder offered /\
            fst (send' body w) = Normal tt /\
            readyState (patch sent) = Some 4 /\
            exists d ds,
              dispatched sent = dispatched w ++ d :: ds /\
              observed d = (Ev "readystatechange", Some 1) /\
              run_shape (map observed (d :: ds)) /\
              match responder (abortController (patch w)) with
              | Fulfilled reply =>
                  status (patch sent) = Some (Response.status reply) /\
                  statusText (patch sent) =
                    Some (Response.statusText reply)
              | Rejected _ =>
                  map observed ds =
                    [(Ev "error", Some 4); (Ev "readystatechange", Some 4)]
              end
      | None =>
          Forall (fun e => snd e request = None) (hooks w) /\
          hookCalls sent = hookCalls w ++ calls_of request (hooks w) /\
          nativeCalls sent = nativeCalls w ++ [NativeSend [body]] /\
          patch sent = patch w /\ heap sent = heap w /\
          dispatched sent = dispatched w
      end
  end.
Proof.
  split.
  { intros name hook. split; [apply Map_set_fresh|apply Map_set_names]. }
  destruct (xhrToRequest' (patch w) None) as [request|e] eqn:Hreq;
    [|now apply send_throws].
  pose proof (send_trial_steps location_origin URL_new w body request Hreq)
    as T.
  cbv zeta in T |- *.
  destruct T as (_ & Hpatch & Hheap & Hdisp & T).
  split; [exact Hpatch|]. split; [exact Hheap|]. split; [exact Hdisp|].
  destruct (list_find (answers request) (hooks w)) as [[i [name hook]]|];
    [|exact T].
  destruct T as (Hbefore & r & Hr & Hcalls & Hsent & Hsame & Hnative).
  split; [exact Hbefore|]. exists r.
  split; [exact Hr|]. split; [now rewrite Hsame|].
  split; [exact Hnative|]. split; [exact Hsent|].
  rewrite Hsent.
  destruct (startXhrWithResponseCallback_outcome r
              (snd (trial request (hooks w) w)))
    as (Hfst & Hready & d & ds & Hds & Hobs & Hshape & Hwho).
  split; [exact Hfst|]. split; [exact Hready|].
  exists d, ds. rewrite Hds, Hdisp, Hpatch in *. auto.
Qed.

End Sending.

Lemma send_trials_in_order_witness :
  let w := three_hooks_world in
  map fst (hookCalls (snd (Demo.send None w))) = ["hook1"; "hook2"] /\
  nativeCalls (snd (Demo.send None w)) = nativeCalls w /\
  status (patch (snd (Demo.send None w))) = Some 201.
Proof.
  intros w.
  pose proof (send_trials_in_order Demo.location_origin Demo.URL_new w None)
    as [_ T].
  assert (H : xhrToRequest Demo.location_origin Demo.URL_new (patch w) None =
              Normal example_request) by (vm_compute; reflexivity).
  rewrite H in T. cbv zeta in T. destruct T as (_ & _ & _ & T).
  assert (Hfind : list_find (answers example_request) (hooks w) =
                  Some (1, ("hook2", respond_with hello_response)))
    by reflexivity.
  rewrite Hfind in T.
  destruct T as (_ & r & Hr & Hcalls & Hnative & _ & _ & _ & d & ds & _ &
                 _ & _ & Hwho).
  injection Hr as <-. cbn beta in Hwho. destruct Hwho as [Hstatus _].
  unfold Demo.send. split; [rewrite Hcalls; vm_compute; reflexivity|].
  split; [exact Hnative|exact Hstatus].
Defined.

(** C3 as stated fails: on a request object that was never opened, with a
    hook registered that lets every request pass, [send] throws; the hook
    is not called and the original [send] is not called either. *)
Lemma unopened_send_calls_nothing :
  let w := run_calls [CallInsert "hook1" ignore_request NoOnExists]
             initial_world in
  map fst (hooks w) = ["hook1"] /\
  Demo.send None w = (Throw TypeError, w) /\
  hookCalls (snd (Demo.send None w)) = [] /\
  nativeCalls (snd (Demo.send None w)) = [].
Proof.
  intros w. assert (H : Demo.send None w = (Throw TypeError, w))
    by (vm_compute; reflexivity).
  rewrite H. repeat split.
Qed.

